(** * Media Metadata Surgery: the binary container editors, embedded and verified

    A shallow embedding of the Go sources of the repository
    (core/image/image.go, core/video/video.go, the audio package and the
    shared core types), followed by the properties the specification
    states about them.

    Conventions of the embedding.
    - A Go [byte] is a [Z] in [0, 256); a [[]byte] and a Go [string] (an
      immutable byte sequence) are both [list Z].  String literals of the
      source are written [str "..."].
    - Go [int] (64 bit) and [uint32] values are [Z]; every narrowing
      conversion of the source ([uint32(n)], [byte(n)], [uint16(n)]) is
      written out as a [mod].
    - A Go [error] result is a [status]; a run-time panic (index or slice
      out of range) is the [Panic] status.
    - The file system and the standard output are an explicit [World]
      threaded through every operation.
    - [range] over a Go map visits the entries in an order the run time
      picks; the order is the explicit [Sched] argument of every function
      that ranges over a map.
    - Functions of libraries outside the repository (goexif, encoding/xml,
      id3v2, strings.ToUpper, ...) are the fields of [Ext]. *)

From Stdlib Require Import ZArith Lia.
From stdpp Require Import base option list gmap strings.

Local Open Scope Z_scope.

(** ** Bytes, strings and slices *)

Abbreviation bytes := (list Z).

Fixpoint str (s : string) : bytes :=
  match s with
  | EmptyString => []
  | String a s' => Z.of_N (Ascii.N_of_ascii a) :: str s'
  end.
Arguments str s%_string.

(** [len(b)] *)
Definition len {A} (b : list A) : Z := Z.of_nat (length b).

(** [b[lo:]], [b[:hi]] and [b[lo:hi]]; the callers guard the bounds. *)
Definition sliceFrom {A} (b : list A) (lo : Z) : list A := drop (Z.to_nat lo) b.
Definition sliceTo {A} (b : list A) (hi : Z) : list A := take (Z.to_nat hi) b.
Definition slice {A} (b : list A) (lo hi : Z) : list A :=
  take (Z.to_nat (hi - lo)) (drop (Z.to_nat lo) b).

(** [b[i]], with 0 standing for an index the callers never reach. *)
Definition at_ (b : bytes) (i : Z) : Z := default 0 (b !! Z.to_nat i).

Definition beq (a b : bytes) : bool := bool_decide (a = b).

(** [bytes.HasPrefix] *)
Definition HasPrefix (s prefix : bytes) : bool :=
  beq (take (length prefix) s) prefix.

(** [bytes.IndexByte]: position of the first [c], or -1. *)
Fixpoint IndexByte (b : bytes) (c : Z) : Z :=
  match b with
  | [] => -1
  | x :: b' => if bool_decide (x = c) then 0
               else let r := IndexByte b' c in if r <? 0 then -1 else r + 1
  end.

(** [bytes.Index] / [strings.Index]: position of the first occurrence of
    [sep], or -1. *)
Fixpoint Index (s sep : bytes) : Z :=
  if HasPrefix s sep then 0
  else match s with
       | [] => -1
       | _ :: s' => let r := Index s' sep in if r <? 0 then -1 else r + 1
       end.

(** [bytes.Contains] *)
Definition Contains (s sep : bytes) : bool := 0 <=? Index s sep.

(** ** encoding/binary *)

Definition beUint16 (b : bytes) : Z := at_ b 0 * 256 + at_ b 1.
Definition beUint32 (b : bytes) : Z :=
  at_ b 0 * 16777216 + at_ b 1 * 65536 + at_ b 2 * 256 + at_ b 3.
Definition leUint32 (b : bytes) : Z :=
  at_ b 0 + at_ b 1 * 256 + at_ b 2 * 65536 + at_ b 3 * 16777216.

(** [PutUint32] of [uint32(v)]: the conversion keeps the low 32 bits. *)
Definition bePutUint32 (v : Z) : bytes :=
  [ (v / 16777216) mod 256; (v / 65536) mod 256; (v / 256) mod 256; v mod 256 ].
Definition lePutUint32 (v : Z) : bytes :=
  [ v mod 256; (v / 256) mod 256; (v / 65536) mod 256; (v / 16777216) mod 256 ].
Definition lePutUint16 (v : Z) : bytes := [ v mod 256; (v / 256) mod 256 ].

(** ** Results, errors and panics *)

Inductive status :=
  | Success
  | Error (msg : string)
  | Panic (msg : string).

Inductive result (A : Type) :=
  | Ok (a : A)
  | Err (msg : string)
  | Crash (msg : string).
Arguments Ok {A} a.
Arguments Err {A} msg.
Arguments Crash {A} msg.

Definition statusOf {A} (r : result A) : status :=
  match r with Ok _ => Success | Err m => Error m | Crash m => Panic m end.

(** ** The world: files and standard output *)

Record World := mkWorld {
  files : gmap string (list Z);
  stdout : list Z
}.

(** [os.ReadFile] *)
Definition ReadFile (w : World) (path : string) : result bytes :=
  match files w !! path with
  | Some d => Ok d
  | None => Err "open: no such file or directory"
  end.

(** [os.WriteFile] *)
Definition WriteFile (w : World) (path : string) (d : bytes) : World :=
  mkWorld (<[path := d]> (files w)) (stdout w).

(** [fmt.Printf] / [fmt.Println], given the formatted text *)
Definition Printf (w : World) (text : bytes) : World :=
  mkWorld (files w) (stdout w ++ text).

(** ** core: shared types *)

Record MetaField := mkField {
  Key : bytes;
  Value : bytes;
  Category : bytes;
  Editable : bool
}.

Record EditOptions := mkEdit {
  Set_ : gmap (list Z) (list Z);
  Delete : list (list Z);
  DryRun : bool
}.

(** [StripDryRun] is the [opts.DryRun] the strip functions read. *)
Record StripOptions := mkStrip {
  KeepFields : list (list Z);
  StripGPS : bool;
  StripAll : bool;
  StripDryRun : bool
}.

(** [ResolveOutPath] *)
Definition ResolveOutPath (src dst : string) : string :=
  if bool_decide (dst = ""%string) then src else dst.

(** The order in which one [range] statement visits a map: any
    rearrangement of the entries.  [site] tells the [range] statements of
    one call apart. *)
Record Sched := mkSched {
  pick : nat → list (list Z * list Z) → list (list Z * list Z);
  pick_perm : ∀ site l, pick site l ≡ₚ l
}.

Definition rangeMap (ord : Sched) (site : nat) (m : gmap (list Z) (list Z))
  : list (list Z * list Z) :=
  pick ord site (map_to_list m).

Definition inOrder : Sched := mkSched (λ _ l, l) (λ _ l, reflexivity l).
Definition reversed : Sched :=
  mkSched (λ _ l, reverse l) (λ _ l, reverse_Permutation l).

(** Library functions the repository calls. *)
Record Ext := mkExt {
  (** [strings.ToUpper], [strings.ToLower], [strings.EqualFold] *)
  ToUpper : bytes → bytes;
  ToLower : bytes → bytes;
  EqualFold : bytes → bytes → bool;
  (** goexif: [exif.Decode] followed by [Walk], giving each tag's name and
      [tag.String()] with whether its type is ASCII or undefined; [None]
      when [Decode] returns an error. *)
  exifWalk : bytes → option (list (list Z * list Z * bool));
  (** encoding/xml: the fields [parseXMPInto] appends, which are a function
      of the token stream of the packet. *)
  xmpFields : bytes → list MetaField;
  (** id3v2: [Open], the tag edits and [Save], as one rewrite of the file. *)
  id3Rewrite : gmap (list Z) (list Z) → list (list Z) → bytes → result bytes;
  (** regexp: the substitutions [editPDF] makes in the file. *)
  pdfRewrite : gmap (list Z) (list Z) → list (list Z) → bytes → bytes;
  (** archive/zip: [None] when the file does not open as an archive, else
      the bytes that reached the output file and the error, if any, that
      stopped the copy. *)
  opcRewrite : gmap (list Z) (list Z) → list (list Z) → bytes → option (list Z * status)
}.

(** ASCII letter case, as the Go functions behave on ASCII text. *)
Definition upperByte (b : Z) : Z := if (97 <=? b) && (b <=? 122) then b - 32 else b.
Definition lowerByte (b : Z) : Z := if (65 <=? b) && (b <=? 90) then b + 32 else b.

Definition asciiExt : Ext :=
  {| ToUpper := map upperByte;
     ToLower := map lowerByte;
     EqualFold := λ a b, beq (map lowerByte a) (map lowerByte b);
     exifWalk := λ _, None;
     xmpFields := λ _, [];
     id3Rewrite := λ _ _ d, Ok d;
     pdfRewrite := λ _ _ d, d;
     opcRewrite := λ _ _ d, Some (d, Success) |}.

(** [fmt.Sprintf("%0<w>d", n)] for a non-negative [n]. *)
Fixpoint digits (fuel : nat) (n : Z) (acc : bytes) : bytes :=
  match fuel with
  | O => acc
  | S f => let acc' := (48 + n mod 10) :: acc in
           if n <? 10 then acc' else digits f (n / 10) acc'
  end.
Definition fmtD (width : nat) (n : Z) : bytes :=
  let d := digits 20 n [] in
  replicate (width - length d) 48 ++ d.

(** * PNG (core/image/image.go) *)

Record pngChunk := mkChunk {
  typ : bytes;
  data : bytes
}.

Definition pngSignature : bytes := [137; 80; 78; 71; 13; 10; 26; 10].

(** [crc32PNG]: the table entry for index [i] (the inner loop, eight
    rounds), then the running checksum over [typ] and [data]. *)
Definition crcRound (c : Z) : Z :=
  if bool_decide (Z.land c 1 ≠ 0)
  then Z.lxor 3988292384 (Z.shiftr c 1)
  else Z.shiftr c 1.
Definition crcTable (i : Z) : Z := Nat.iter 8 crcRound i.
Definition crcUpdate (crc : Z) (b : Z) : Z :=
  Z.lxor (crcTable (Z.land (Z.lxor crc b) 255)) (Z.shiftr crc 8).
Definition crc32PNG (typ data : bytes) : Z :=
  let crc := 4294967295 in
  let crc := fold_left crcUpdate typ crc in
  let crc := fold_left crcUpdate data crc in
  Z.lxor crc 4294967295.

(** [readPNGChunks].  The reader [r] is the unread rest of the file;
    [io.ReadFull] of [n] bytes fails when fewer are left.  The error of
    the fourth read (the CRC) is dropped by the source, which then reads
    on from wherever the stream stands. *)
Fixpoint readChunkLoop (fuel : nat) (r : bytes) : list pngChunk :=
  match fuel with
  | O => []
  | S fuel' =>
      if len r <? 4 then [] else
      let length := beUint32 (take 4 r) in
      let r := drop 4 r in
      if len r <? 4 then [] else
      let typBuf := take 4 r in
      let r := drop 4 r in
      if len r <? length then [] else
      let data := take (Z.to_nat length) r in
      let r := drop (Z.to_nat length) r in
      let r := drop 4 r in
      let c := mkChunk typBuf data in
      if beq typBuf (str "IEND") then [c] else c :: readChunkLoop fuel' r
  end.

Definition readPNGChunks (file : bytes) : result (list pngChunk) :=
  if bool_decide (len file = 0) then Err "EOF"
  else if len file <? 8 then Err "unexpected EOF"
  else if negb (beq (take 8 file) pngSignature) then Err "not a valid PNG"
  else Ok (readChunkLoop (length file) (drop 8 file)).

(** [writePNGChunk] and the buffer [writePNGChunks] builds. *)
Definition writePNGChunk (typ data : bytes) : bytes :=
  bePutUint32 (len data) ++ typ ++ data ++ bePutUint32 (crc32PNG typ data).

Definition pngFile (chunks : list pngChunk) : bytes :=
  pngSignature ++ concat (map (λ c, writePNGChunk (typ c) (data c)) chunks).

Definition writePNGChunks (w : World) (path : string) (chunks : list pngChunk) : World :=
  WriteFile w path (pngFile chunks).

(** The [exifWalker]: quotes around a value are removed. *)
Definition unquote (val : bytes) : bytes :=
  if (2 <=? len val) && bool_decide (at_ val 0 = 34)
     && bool_decide (at_ val (len val - 1) = 34)
  then slice val 1 (len val - 1) else val.

Definition exifFields (X : Ext) (editable : bytes → bool) (d : bytes) : list MetaField :=
  match exifWalk X d with
  | Some tags => map (λ t, mkField t.1.1 (unquote t.1.2) (str "EXIF") (editable t.1.1)) tags
  | None => []
  end.

(** The two rounds of the [iTXt] loop that skip the language and the
    translated keyword; [None] is the source's [rest = nil]. *)
Fixpoint skipNulls (n : nat) (rest : bytes) : option bytes :=
  match n with
  | O => Some rest
  | S n' =>
      if 0 <? len rest then
        let k := IndexByte rest 0 in
        if k <? 0 then None else skipNulls n' (sliceFrom rest (k + 1))
      else Some rest
  end.

(** One iteration of the loop of [viewPNG]. *)
Definition viewChunk (X : Ext) (c : pngChunk) : result (list MetaField) :=
  if beq (typ c) (str "tEXt") then
    let null := IndexByte (data c) 0 in
    if 0 <? null then
      let key := sliceTo (data c) null in
      let val := if null + 1 <? len (data c) then sliceFrom (data c) (null + 1) else [] in
      Ok [mkField key val (str "PNG tEXt") true]
    else Ok []
  else if beq (typ c) (str "iTXt") then
    let null := IndexByte (data c) 0 in
    if 0 <? null then
      let key := sliceTo (data c) null in
      if len (data c) <? null + 3 then Crash "slice bounds out of range" else
      let val := default [] (skipNulls 2 (sliceFrom (data c) (null + 3))) in
      Ok [mkField key val (str "PNG iTXt") true]
    else Ok []
  else if beq (typ c) (str "eXIf") then
    Ok (exifFields X (λ _, false) (data c))
  else if beq (typ c) (str "tIME") then
    if bool_decide (len (data c) = 7) then
      let d := data c in
      let year := beUint16 (slice d 0 2) in
      Ok [mkField (str "LastModified")
            (fmtD 4 year ++ str "-" ++ fmtD 2 (at_ d 2) ++ str "-" ++ fmtD 2 (at_ d 3)
             ++ str " " ++ fmtD 2 (at_ d 4) ++ str ":" ++ fmtD 2 (at_ d 5)
             ++ str ":" ++ fmtD 2 (at_ d 6))
            (str "PNG tIME") false]
    else Ok []
  else Ok [].

Fixpoint viewChunks (X : Ext) (chunks : list pngChunk) (acc : list MetaField)
  : result (list MetaField) :=
  match chunks with
  | [] => Ok acc
  | c :: rest =>
      match viewChunk X c with
      | Ok fs => viewChunks X rest (acc ++ fs)
      | Err m => Err m
      | Crash m => Crash m
      end
  end.

(** [viewPNG]: the fields of the file at [path]. *)
Definition viewPNG (X : Ext) (w : World) (path : string) : result (list MetaField) :=
  match ReadFile w path with
  | Ok file =>
      match readPNGChunks file with
      | Ok chunks => viewChunks X chunks []
      | Err m => Err m
      | Crash m => Crash m
      end
  | Err m => Err m
  | Crash m => Crash m
  end.

(** The first loop of [editPNG]: existing [tEXt] chunks are dropped when
    their keyword is in [delSet], rewritten when it is a key of [Set], and
    copied otherwise; [setDone] collects the keywords rewritten. *)
Fixpoint updateChunks (opts : EditOptions) (delSet : gset (list Z))
    (chunks : list pngChunk) (setDone : gset (list Z))
  : list pngChunk * gset (list Z) :=
  match chunks with
  | [] => ([], setDone)
  | c :: rest =>
      let null := IndexByte (data c) 0 in
      if beq (typ c) (str "tEXt") && (0 <? null) then
        let key := sliceTo (data c) null in
        if bool_decide (key ∈ delSet) then updateChunks opts delSet rest setDone
        else match Set_ opts !! key with
             | Some v =>
                 let r := updateChunks opts delSet rest ({[key]} ∪ setDone) in
                 (mkChunk (typ c) (key ++ [0] ++ v) :: r.1, r.2)
             | None =>
                 let r := updateChunks opts delSet rest setDone in
                 (c :: r.1, r.2)
             end
      else
        let r := updateChunks opts delSet rest setDone in
        (c :: r.1, r.2)
  end.

(** The second loop: a fresh [tEXt] chunk for every key not yet done. *)
Definition addChunks (entries : list (list Z * list Z)) (setDone : gset (list Z))
  : list pngChunk :=
  omap (λ kv, if bool_decide (kv.1 ∈ setDone) then None
              else Some (mkChunk (str "tEXt") (kv.1 ++ [0] ++ kv.2))) entries.

(** The third loop: the new chunks go in front of the first [IDAT]. *)
Fixpoint insertBeforeIDAT (newChunks add : list pngChunk) (inserted : bool)
  : list pngChunk * bool :=
  match newChunks with
  | [] => ([], inserted)
  | c :: rest =>
      if negb inserted && beq (typ c) (str "IDAT") then
        let r := insertBeforeIDAT rest add true in (add ++ c :: r.1, r.2)
      else
        let r := insertBeforeIDAT rest add inserted in (c :: r.1, r.2)
  end.

(** The chunk list [editPNG] hands to the writer. *)
Definition editPNGChunks (ord : Sched) (opts : EditOptions) (chunks : list pngChunk)
  : list pngChunk :=
  let delSet : gset (list Z) := list_to_set (Delete opts) in
  let '(newChunks, setDone) := updateChunks opts delSet chunks ∅ in
  let add := addChunks (rangeMap ord 0 (Set_ opts)) setDone in
  let '(final, inserted) := insertBeforeIDAT newChunks add false in
  if inserted then final else final ++ add.

(** The lines a dry run prints for the requested fields. *)
Definition previewLines (prefix sep suffix : bytes) (entries : list (list Z * list Z)) : bytes :=
  concat (map (λ kv, prefix ++ kv.1 ++ sep ++ kv.2 ++ suffix) entries).

Definition editPNG (ord : Sched) (w : World) (path outPath : string) (opts : EditOptions)
  : World * status :=
  match ReadFile w path with
  | Ok file =>
      match readPNGChunks file with
      | Ok chunks =>
          let final := editPNGChunks ord opts chunks in
          if DryRun opts then
            (Printf (Printf w (str "Dry-run: PNG tEXt chunks would be updated:" ++ [10]))
               (previewLines (str "  ") (str " = ") [10] (rangeMap ord 1 (Set_ opts))),
             Success)
          else (writePNGChunks w outPath final, Success)
      | Err m => (w, Error m)
      | Crash m => (w, Panic m)
      end
  | Err m => (w, Error m)
  | Crash m => (w, Panic m)
  end.

(** [pngMetaChunks] *)
Definition pngMetaChunks (t : bytes) : bool :=
  bool_decide (t ∈ [str "tEXt"; str "iTXt"; str "zTXt"; str "eXIf"; str "tIME";
                    str "iCCP"; str "sRGB"; str "gAMA"; str "cHRM"; str "bKGD";
                    str "hIST"; str "pHYs"; str "sBIT"; str "sPLT"]).

(** The chunk list [stripPNG] hands to the writer. *)
Definition stripPNGChunks (X : Ext) (opts : StripOptions) (chunks : list pngChunk)
  : list pngChunk :=
  let keepSet : gset (list Z) := list_to_set (map (ToLower X) (KeepFields opts)) in
  filter (λ c, pngMetaChunks (typ c) = false
               ∨ ToLower X (typ c) ∈ keepSet ∨ str "all" ∈ keepSet) chunks.

Definition stripPNG (X : Ext) (w : World) (path outPath : string) (opts : StripOptions)
  : World * status :=
  match ReadFile w path with
  | Ok file =>
      match readPNGChunks file with
      | Ok chunks => (writePNGChunks w outPath (stripPNGChunks X opts chunks), Success)
      | Err m => (w, Error m)
      | Crash m => (w, Panic m)
      end
  | Err m => (w, Error m)
  | Crash m => (w, Panic m)
  end.

(** * JPEG (core/image/image.go) *)

Record jpegSegment := mkSeg {
  marker : Z;
  segData : bytes
}.

(** The loop of [parseJPEGSegments], on the bytes from index [i] on. *)
Fixpoint parseSegLoop (fuel : nat) (r : bytes) : list jpegSegment :=
  match fuel with
  | O => []
  | S fuel' =>
      match r with
      | [] => []
      | b :: r1 =>
          if negb (bool_decide (b = 255)) then [mkSeg 0 r] else
          match r1 with
          | [] => []
          | m :: r2 =>
              if bool_decide (m = 216) then mkSeg m [] :: parseSegLoop fuel' r2
              else if bool_decide (m = 217) then [mkSeg m []]
              else if len r2 <? 2 then []
              else
                let segLen := beUint16 (take 2 r2) - 2 in
                let r3 := drop 2 r2 in
                if (segLen <? 0) || (len r3 <? segLen) then []
                else mkSeg m (sliceTo r3 segLen)
                       :: parseSegLoop fuel' (sliceFrom r3 segLen)
          end
      end
  end.

Definition parseJPEGSegments (d : bytes) : result (list jpegSegment) :=
  if (len d <? 2) || negb (bool_decide (at_ d 0 = 255)) || negb (bool_decide (at_ d 1 = 216))
  then Err "not a JPEG"
  else Ok (mkSeg 216 [] :: parseSegLoop (length d) (drop 2 d)).

(** The buffer [writeJPEGSegments] builds. *)
Definition jpegSegmentBytes (seg : jpegSegment) : bytes :=
  if bool_decide (marker seg = 216) then [255; 216]
  else if bool_decide (marker seg = 217) then [255; 217]
  else if bool_decide (marker seg = 0) then segData seg
  else
    let length := (len (segData seg) + 2) mod 65536 in
    [255; marker seg; (length / 256) mod 256; length mod 256] ++ segData seg.

Definition jpegFile (segs : list jpegSegment) : bytes :=
  concat (map jpegSegmentBytes segs).

Definition writeJPEGSegments (w : World) (path : string) (segs : list jpegSegment) : World :=
  WriteFile w path (jpegFile segs).

(** [exifTagIDs] *)
Definition exifTagIDs : list (list Z * Z) :=
  [ (str "ImageDescription", 270); (str "Make", 271); (str "Model", 272);
    (str "Software", 305); (str "DateTime", 306); (str "Artist", 315);
    (str "Copyright", 33432); (str "UserComment", 37510);
    (str "DateTimeOriginal", 36867); (str "DateTimeDigitized", 36868) ].

Definition lookupAssoc {V} (tbl : list (list Z * V)) (k : bytes) : option V :=
  (λ r, r.2.2) <$> list_find (λ kv, kv.1 = k) tbl.

(** One round of the entry loop of [buildMinimalEXIF]: the state is the
    IFD buffer and the value buffer. *)
Definition exifEntry (valOffset : Z) (st : bytes * bytes) (e : Z * list Z) : bytes * bytes :=
  let '(ifdBuf, valueBuf) := st in
  let val := e.2 ++ [0] in
  let ifdBuf := ifdBuf ++ lePutUint16 e.1 ++ lePutUint16 2 ++ lePutUint32 (len val) in
  if len val <=? 4 then (ifdBuf ++ take 4 (val ++ [0; 0; 0; 0]), valueBuf)
  else (ifdBuf ++ lePutUint32 (valOffset + len valueBuf), valueBuf ++ val).

(** [buildMinimalEXIF], over the fields in the order the map is ranged. *)
Definition buildMinimalEXIF (entries : list (list Z * list Z)) : result bytes :=
  let header := str "Exif" ++ [0; 0] ++ str "II" ++ [42; 0] ++ [8; 0; 0; 0] in
  let entries := omap (λ kv, (λ tid, (tid, kv.2)) <$> lookupAssoc exifTagIDs kv.1) entries in
  if bool_decide (length entries = 0%nat)
  then Err "no recognised EXIF fields to write"
  else
    let numEntries := len entries mod 65536 in
    let ifdSize := 2 + numEntries * 12 + 4 in
    let valOffset := 8 + ifdSize in
    let '(ifdBuf, valueBuf) :=
      fold_left (exifEntry valOffset) entries (lePutUint16 numEntries, []) in
    Ok (header ++ ifdBuf ++ lePutUint32 0 ++ valueBuf).

(** The map [exifStringWalker] fills: ASCII and undefined tags, unquoted. *)
Definition exifStrings (X : Ext) (d : bytes) : option (gmap (list Z) (list Z)) :=
  (λ tags, fold_left (λ (m : gmap (list Z) (list Z)) t,
                        if (t.2 : bool) then <[t.1.1 := unquote t.1.2]> m else m)
                     tags ∅) <$> exifWalk X d.

(** [patchEXIFSegment] *)
Definition patchEXIFSegment (X : Ext) (ord : Sched) (d : bytes)
    (set : gmap (list Z) (list Z)) (del : list (list Z)) : result bytes :=
  if len d <? 8 then Ok d
  else
    let existing := default ∅ (exifStrings X (sliceFrom d 6)) in
    let existing := set ∪ existing in
    let existing := fold_left (λ m k, delete k m) del existing in
    buildMinimalEXIF (rangeMap ord 0 existing).

(** Index of the first APP1 segment that starts with the EXIF header. *)
Definition findExifSeg (segs : list jpegSegment) : option nat :=
  fst <$> list_find (λ seg, marker seg = 225
                             ∧ HasPrefix (segData seg) (str "Exif" ++ [0; 0]) = true) segs.

Definition editJPEG (X : Ext) (ord : Sched) (w : World) (path outPath : string)
    (opts : EditOptions) : World * status :=
  match ReadFile w path with
  | Ok d =>
      match parseJPEGSegments d with
      | Ok segments =>
          let patched : result (list jpegSegment) :=
            match findExifSeg segments with
            | None =>
                if 0 <? Z.of_nat (size (Set_ opts)) then
                  match buildMinimalEXIF (rangeMap ord 0 (Set_ opts)) with
                  | Ok newExifData =>
                      Ok (take 1 segments ++ [mkSeg 225 newExifData] ++ drop 1 segments)
                  | Err m => Err m
                  | Crash m => Crash m
                  end
                else Ok segments
            | Some i =>
                match patchEXIFSegment X ord (default [] (segData <$> segments !! i))
                        (Set_ opts) (Delete opts) with
                | Ok updated => Ok (alter (λ seg, mkSeg (marker seg) updated) i segments)
                | Err m => Err m
                | Crash m => Crash m
                end
            end in
          match patched with
          | Ok segments =>
              if DryRun opts then
                (Printf (Printf w (str "Dry-run: JPEG EXIF would be updated with:" ++ [10]))
                   (previewLines (str "  ") (str " = ") [10] (rangeMap ord 1 (Set_ opts))),
                 Success)
              else (writeJPEGSegments w outPath segments, Success)
          | Err m => (w, Error m)
          | Crash m => (w, Panic m)
          end
      | Err m => (w, Error m)
      | Crash m => (w, Panic m)
      end
  | Err m => (w, Error m)
  | Crash m => (w, Panic m)
  end.

(** The loop of [extractJPEGSegment] after the SOI check; [None] is the
    source's [nil]. *)
Fixpoint extractLoop (fuel : nat) (r : bytes) (mk : Z) (prefix : bytes) : option bytes :=
  match fuel with
  | O => None
  | S fuel' =>
      if len r <? 2 then None else
      if negb (bool_decide (at_ r 0 = 255)) then None else
      let segMarker := at_ r 1 in
      let r := drop 2 r in
      if len r <? 2 then None else
      let segLen := beUint16 (take 2 r) - 2 in
      let r := drop 2 r in
      if segLen <? 0 then None else
      if len r <? segLen then None else
      let d := sliceTo r segLen in
      let r := sliceFrom r segLen in
      if bool_decide (segMarker = mk)
         && (bool_decide (length prefix = 0%nat) || HasPrefix d prefix)
         && (len prefix <=? len d)
      then Some (drop (length prefix) d)
      else if bool_decide (segMarker = 218) then None
      else extractLoop fuel' r mk prefix
  end.

Definition extractJPEGSegment (file : bytes) (mk : Z) (prefix : bytes) : option bytes :=
  if len file <? 2 then None
  else if negb (bool_decide (at_ file 0 = 255)) || negb (bool_decide (at_ file 1 = 216))
  then None
  else extractLoop (length file) (drop 2 file) mk prefix.

(** [iptcFieldNames] *)
Definition iptcFieldNames : list (Z * string) :=
  [ (5, "ObjectName"); (15, "Category"); (20, "SupplementalCategory");
    (25, "Keywords"); (30, "DateCreated"); (31, "TimeCreated");
    (40, "SpecialInstructions"); (55, "DigitalCreationDate"); (60, "Byline");
    (62, "BylineTitle"); (70, "City"); (78, "Province"); (85, "Country");
    (103, "OriginalTransmissionReference"); (105, "Headline"); (110, "Credit");
    (115, "Source"); (116, "CopyrightNotice"); (118, "Contact"); (120, "Caption");
    (122, "CaptionWriter") ]%string.

Definition iptcName (dataset : Z) : option bytes :=
  (λ r, str r.2.2) <$> list_find (λ kv, kv.1 = dataset) iptcFieldNames.

(** [parseIPTCBlock] *)
Fixpoint iptcBlockLoop (fuel : nat) (d : bytes) (i : Z) (acc : list MetaField)
  : list MetaField :=
  match fuel with
  | O => acc
  | S fuel' =>
      if negb (i + 5 <? len d) then acc else
      if negb (bool_decide (at_ d i = 28)) then iptcBlockLoop fuel' d (i + 1) acc else
      let dataset := at_ d (i + 2) in
      let length := beUint16 (slice d (i + 3) (i + 5)) in
      let i := i + 5 in
      if len d <? i + length then acc else
      let val := slice d i (i + length) in
      let acc := match iptcName dataset with
                 | Some name => acc ++ [mkField name val (str "IPTC") false]
                 | None => acc
                 end in
      iptcBlockLoop fuel' d (i + length) acc
  end.
Definition parseIPTCBlock (d : bytes) : list MetaField := iptcBlockLoop (length d) d 0 [].

(** [parseIPTCInto] *)
Fixpoint iptcLoop (fuel : nat) (d : bytes) (i : Z) (acc : list MetaField) : list MetaField :=
  match fuel with
  | O => acc
  | S fuel' =>
      if negb (i + 8 <? len d) then acc else
      if negb (beq (slice d i (i + 4)) (str "8BIM")) then iptcLoop fuel' d (i + 1) acc else
      let resType := beUint16 (slice d (i + 4) (i + 6)) in
      let nameLen := at_ d (i + 6) in
      let nameLen := if bool_decide (nameLen mod 2 = 0) then nameLen + 1 else nameLen in
      let i := i + 7 + nameLen in
      if len d <? i + 4 then acc else
      let blockLen := beUint32 (slice d i (i + 4)) in
      let i := i + 4 in
      let acc := if bool_decide (resType = 1028) && (i + blockLen <=? len d)
                 then acc ++ parseIPTCBlock (slice d i (i + blockLen)) else acc in
      let i := i + blockLen in
      let i := if bool_decide (blockLen mod 2 ≠ 0) then i + 1 else i in
      iptcLoop fuel' d i acc
  end.
Definition parseIPTCInto (d : bytes) : list MetaField := iptcLoop (length d) d 0 [].

(** The [editableSet] of [viewJPEG] *)
Definition jpegEditable (name : bytes) : bool :=
  bool_decide (name ∈ [str "Make"; str "Model"; str "Software"; str "Artist";
                        str "Copyright"; str "ImageDescription"; str "UserComment";
                        str "DateTime"; str "DateTimeOriginal"; str "DateTimeDigitized"]).

(** [viewJPEG]: the fields and the error it returns. *)
Definition viewJPEG (X : Ext) (w : World) (path : string) : list MetaField * status :=
  match ReadFile w path with
  | Ok file =>
      let exif := exifFields X jpegEditable file in
      let xmp := match extractJPEGSegment file 225 (str "http://ns.adobe.com/xap/1.0/" ++ [0]) with
                 | Some d => if 0 <? len d then xmpFields X d else []
                 | None => []
                 end in
      let iptc := match extractJPEGSegment file 237 (str "Photoshop 3.0" ++ [0]) with
                  | Some d => if 0 <? len d then parseIPTCInto d else []
                  | None => []
                  end in
      (exif ++ xmp ++ iptc, Success)
  | Err m => ([], Error m)
  | Crash m => ([], Panic m)
  end.

(** [jpegMetaMarkers] *)
Definition jpegMetaMarkers (m : Z) : bool :=
  bool_decide (m ∈ [225; 226; 236; 237; 238; 254]).

(** [stripGPSFromEXIF] *)
Definition stripGPSFromEXIF (X : Ext) (ord : Sched) (d : bytes) : result bytes :=
  if len d <? 6 then Ok d
  else match exifStrings X (sliceFrom d 6) with
       | None => Err "exif: decode failed"
       | Some existing => buildMinimalEXIF (rangeMap ord 0 existing)
       end.

(** One round of the loop of [stripJPEG]: the segments it appends. *)
Definition stripSegment (X : Ext) (ord : Sched) (opts : StripOptions)
    (keepSet : gset (list Z)) (seg : jpegSegment) : list jpegSegment :=
  if StripGPS opts && bool_decide (marker seg = 225) then
    match stripGPSFromEXIF X ord (segData seg) with
    | Ok stripped => [mkSeg (marker seg) stripped]
    | _ => [seg]
    end
  else if jpegMetaMarkers (marker seg) then
    if StripAll opts then []
    else if 0 <? Z.of_nat (size keepSet) then
      if bool_decide (str "exif" ∈ keepSet) && bool_decide (marker seg = 225)
         && HasPrefix (segData seg) (str "Exif") then [seg]
      else if bool_decide (str "xmp" ∈ keepSet) && bool_decide (marker seg = 225)
         && Contains (segData seg) (str "ns.adobe.com") then [seg]
      else if bool_decide (str "iptc" ∈ keepSet) && bool_decide (marker seg = 237) then [seg]
      else []
    else []
  else [seg].

Definition stripJPEG (X : Ext) (ord : Sched) (w : World) (path outPath : string)
    (opts : StripOptions) : World * status :=
  match ReadFile w path with
  | Ok d =>
      match parseJPEGSegments d with
      | Ok segments =>
          let keepSet : gset (list Z) := list_to_set (map (ToLower X) (KeepFields opts)) in
          (writeJPEGSegments w outPath
             (concat (map (stripSegment X ord opts keepSet) segments)), Success)
      | Err m => (w, Error m)
      | Crash m => (w, Panic m)
      end
  | Err m => (w, Error m)
  | Crash m => (w, Panic m)
  end.

(** * FLAC (audio package) *)

Record flacBlock := mkBlock {
  blockType : Z;
  blockData : bytes
}.

(** The loop of [parseFLACBlocks], from index [i]. *)
Fixpoint parseBlocksLoop (fuel : nat) (d : bytes) (i : Z) (blocks : list flacBlock)
  : result (list flacBlock * Z) :=
  match fuel with
  | O => Ok (blocks, i)
  | S fuel' =>
      if len d <? i + 4 then Ok (blocks, i) else
      let header := beUint32 (slice d i (i + 4)) in
      let isLast := bool_decide (Z.shiftr header 31 = 1) in
      let blockType := Z.land (Z.shiftr header 24) 127 in
      let length := Z.land header 16777215 in
      let i := i + 4 in
      if len d <? i + length then Err "FLAC block truncated" else
      let blocks := blocks ++ [mkBlock blockType (slice d i (i + length))] in
      let i := i + length in
      if isLast then Ok (blocks, i) else parseBlocksLoop fuel' d i blocks
  end.

Definition parseFLACBlocks (d : bytes) : result (list flacBlock * Z) :=
  parseBlocksLoop (length d) d 4 [].

(** The comment loop of [parseVorbisComments]; [n] counts the rounds. *)
Fixpoint vorbisLoop (X : Ext) (fuel : nat) (d : bytes) (count n pos : Z)
    (out : gmap (list Z) (list Z)) : gmap (list Z) (list Z) :=
  match fuel with
  | O => out
  | S fuel' =>
      if negb ((n <? count) && (pos + 4 <=? len d)) then out else
      let cLen := leUint32 (slice d pos (pos + 4)) in
      let pos := pos + 4 in
      if len d <? pos + cLen then out else
      let comment := slice d pos (pos + cLen) in
      let pos := pos + cLen in
      let eq := Index comment (str "=") in
      let out := if 0 <? eq
                 then <[ToUpper X (sliceTo comment eq) := sliceFrom comment (eq + 1)]> out
                 else out in
      vorbisLoop X fuel' d count (n + 1) pos out
  end.

Definition parseVorbisComments (X : Ext) (d : bytes) (out : gmap (list Z) (list Z))
  : gmap (list Z) (list Z) :=
  if len d <? 4 then out else
  let vendorLen := leUint32 (slice d 0 4) in
  let pos := 4 + vendorLen in
  if len d <? pos + 4 then out else
  let count := leUint32 (slice d pos (pos + 4)) in
  vorbisLoop X (length d) d count 0 (pos + 4) out.

Definition vendor : bytes := str "Media Metadata Surgery v0.1.2".

(** [buildVorbisComment], over the fields in the order the map is ranged. *)
Definition buildVorbisComment (entries : list (list Z * list Z)) : bytes :=
  lePutUint32 (len vendor) ++ vendor ++ lePutUint32 (len entries)
  ++ concat (map (λ kv, let comment := kv.1 ++ str "=" ++ kv.2 in
                        lePutUint32 (len comment) ++ comment) entries).

(** The header word [writeFLAC] computes for a block. *)
Definition flacHeader (isLast : bool) (b : flacBlock) : Z :=
  let header := Z.lor (Z.shiftl (blockType b) 24 mod 4294967296)
                      (len (blockData b) mod 4294967296) in
  if isLast then Z.lor header (Z.shiftl 1 31) else header.

Fixpoint flacBlocksBytes (blocks : list flacBlock) : bytes :=
  match blocks with
  | [] => []
  | b :: rest =>
      bePutUint32 (flacHeader (bool_decide (rest = [])) b) ++ blockData b
      ++ flacBlocksBytes rest
  end.

(** The buffer [writeFLAC] builds. *)
Definition flacFile (blocks : list flacBlock) (audioData : bytes) : bytes :=
  str "fLaC" ++ flacBlocksBytes blocks ++ audioData.

Definition writeFLAC (w : World) (path : string) (blocks : list flacBlock)
    (audioData : bytes) : World :=
  WriteFile w path (flacFile blocks audioData).

(** Index of the first block of type 4. *)
Definition findVC (blocks : list flacBlock) : option nat :=
  fst <$> list_find (λ b, blockType b = 4) blocks.

(** The map [editFLAC] rebuilds the comment block from. *)
Definition editedComments (X : Ext) (ord : Sched) (opts : EditOptions) (old : option bytes)
  : gmap (list Z) (list Z) :=
  let existing := match old with
                  | Some d => parseVorbisComments X d ∅
                  | None => ∅
                  end in
  let existing := fold_left (λ (m : gmap (list Z) (list Z)) kv, <[ToUpper X kv.1 := kv.2]> m)
                            (rangeMap ord 0 (Set_ opts)) existing in
  fold_left (λ m k, delete (ToUpper X k) m) (Delete opts) existing.

(** The block list [editFLAC] hands to the writer; the access to
    [blocks[0]] panics on an empty list. *)
Definition editFLACBlocks (X : Ext) (ord : Sched) (opts : EditOptions)
    (blocks : list flacBlock) : result (list flacBlock) :=
  match findVC blocks with
  | Some i =>
      let newVC := buildVorbisComment
        (rangeMap ord 1 (editedComments X ord opts (blockData <$> blocks !! i))) in
      Ok (alter (λ b, mkBlock (blockType b) newVC) i blocks)
  | None =>
      let newVC := buildVorbisComment (rangeMap ord 1 (editedComments X ord opts None)) in
      match blocks with
      | [] => Crash "index out of range [0] with length 0"
      | b0 :: rest => Ok (b0 :: mkBlock 4 newVC :: rest)
      end
  end.

Definition editFLAC (X : Ext) (ord : Sched) (w : World) (path outPath : string)
    (opts : EditOptions) : World * status :=
  match ReadFile w path with
  | Ok d =>
      if (len d <? 4) || negb (beq (slice d 0 4) (str "fLaC"))
      then (w, Error "not a valid FLAC file")
      else if DryRun opts then
        (Printf (Printf w (str "Dry-run: FLAC Vorbis comments would be updated:" ++ [10]))
           (previewLines (str "  ") (str " = ") [10] (rangeMap ord 2 (Set_ opts))),
         Success)
      else
        match parseFLACBlocks d with
        | Ok (blocks, audioStart) =>
            match editFLACBlocks X ord opts blocks with
            | Ok blocks' => (writeFLAC w outPath blocks' (sliceFrom d audioStart), Success)
            | Err m => (w, Error m)
            | Crash m => (w, Panic m)
            end
        | Err m => (w, Error m)
        | Crash m => (w, Panic m)
        end
  | Err m => (w, Error m)
  | Crash m => (w, Panic m)
  end.

(** * WAV (audio package) *)

(** The loop of [stripWAV]: the body it collects. *)
Fixpoint stripWAVLoop (fuel : nat) (d : bytes) (offset : Z) (body : bytes) : bytes :=
  match fuel with
  | O => body
  | S fuel' =>
      if len d <? offset + 8 then body else
      let chunkID := slice d offset (offset + 4) in
      let chunkSize := leUint32 (slice d (offset + 4) (offset + 8)) in
      let offset := offset + 8 in
      if len d <? offset + chunkSize then body else
      let skip := beq chunkID (str "LIST") || beq chunkID (str "id3 ")
                  || beq chunkID (str "ID3 ") in
      let body := if skip then body else body ++ slice d (offset - 8) (offset + chunkSize) in
      let offset := offset + chunkSize in
      let offset := if bool_decide (chunkSize mod 2 ≠ 0) then offset + 1 else offset in
      stripWAVLoop fuel' d offset body
  end.

Definition stripWAVBytes (d : bytes) : bytes :=
  let body := stripWAVLoop (length d) d 12 [] in
  str "RIFF" ++ lePutUint32 (len body + 4) ++ str "WAVE" ++ body.

Definition stripWAV (w : World) (path outPath : string) (opts : StripOptions)
  : World * status :=
  match ReadFile w path with
  | Ok d =>
      if len d <? 12 then (w, Error "WAV too short")
      else (WriteFile w outPath (stripWAVBytes d), Success)
  | Err m => (w, Error m)
  | Crash m => (w, Panic m)
  end.

(** * MP3 (audio package) *)

Definition editMP3 (X : Ext) (ord : Sched) (w : World) (path outPath : string)
    (opts : EditOptions) : World * status :=
  if DryRun opts then
    (Printf (Printf w (str "Dry-run: MP3 ID3 tags would be updated:" ++ [10]))
       (previewLines (str "  ") (str " = ") [10] (rangeMap ord 0 (Set_ opts))),
     Success)
  else
    let copied : result World :=
      if bool_decide (path ≠ outPath) then
        match ReadFile w path with
        | Ok d => Ok (WriteFile w outPath d)
        | Err m => Err m
        | Crash m => Crash m
        end
      else Ok w in
    match copied with
    | Ok w1 =>
        match ReadFile w1 outPath with
        | Ok d =>
            match id3Rewrite X (Set_ opts) (Delete opts) d with
            | Ok d' => (WriteFile w1 outPath d', Success)
            | Err m => (w1, Error m)
            | Crash m => (w1, Panic m)
            end
        | Err m => (w1, Error "could not open MP3")
        | Crash m => (w1, Panic m)
        end
    | Err m => (w, Error m)
    | Crash m => (w, Panic m)
    end.

(** * MP4 (core/video/video.go) *)

(** [itunesAtomNames] *)
Definition itunesAtomNames : list (list Z * list Z) :=
  [ (169 :: str "nam", str "Title"); (169 :: str "ART", str "Artist");
    (169 :: str "alb", str "Album"); (169 :: str "day", str "Year");
    (169 :: str "gen", str "Genre"); (169 :: str "cmt", str "Comment");
    (169 :: str "lyr", str "Lyrics"); (169 :: str "too", str "EncodingTool");
    (169 :: str "wrt", str "Composer"); (str "aART", str "AlbumArtist");
    (str "cprt", str "Copyright"); (str "desc", str "Description");
    (str "ldes", str "LongDescription"); (str "tvsh", str "TVShowName");
    (str "tvsn", str "TVSeason"); (str "tves", str "TVEpisode");
    (str "tven", str "TVEpisodeName"); (str "purl", str "PodcastURL");
    (str "catg", str "Category"); (str "keyw", str "Keywords");
    (str "cpil", str "Compilation"); (str "tmpo", str "BPM");
    (str "hdvd", str "HDVideo"); (str "stik", str "MediaKind");
    (str "rtng", str "ContentRating") ].

(** [buildiTunesDataAtom]: the size, the name "data", then the store to
    index 7, which lands on the last byte of the name. *)
Definition buildiTunesDataAtom (val : bytes) : bytes :=
  let dataAtom := bePutUint32 (16 + len val) ++ str "data" ++ replicate 8 0 ++ val in
  <[7%nat := 1]> dataAtom.

(** [packAtom] *)
Definition packAtom (name content : bytes) : bytes :=
  bePutUint32 (8 + len content) ++ take 4 (name ++ replicate 4 0) ++ content.

(** [fixMP4Sizes] *)
Definition fixMP4Sizes (d : bytes) : bytes := d.

(** The content [patchMP4Ilst] builds for the new [ilst]. *)
Definition ilstContent (entries : list (list Z * list Z)) : bytes :=
  concat (map (λ e, let atomData := buildiTunesDataAtom e.2 in
                    bePutUint32 (8 + len atomData) ++ e.1 ++ atomData) entries).

Definition patchMP4Ilst (d : bytes) (entries : list (list Z * list Z))
    (delKeys : list (list Z)) : result bytes :=
  let content := ilstContent entries in
  let ilstSize := 8 + len content in
  let ilstIdx := Index d (str "ilst") in
  if 4 <? ilstIdx then
    let existingSize := beUint32 (slice d (ilstIdx - 4) ilstIdx) in
    let newAtom := bePutUint32 ilstSize ++ str "ilst" ++ content in
    if len d <? ilstIdx - 4 + existingSize then Crash "slice bounds out of range"
    else Ok (fixMP4Sizes (sliceTo d (ilstIdx - 4) ++ newAtom
                          ++ sliceFrom d (ilstIdx - 4 + existingSize)))
  else
    let moovIdx := Index d (str "moov") in
    if moovIdx <? 4 then Err "could not find moov atom"
    else
      let metaContent := [0; 0; 0; 0] ++ packAtom (str "ilst") content in
      let udtaContent := packAtom (str "meta") metaContent in
      let udta := packAtom (str "udta") udtaContent in
      let moovSize := beUint32 (slice d (moovIdx - 4) moovIdx) in
      let insertAt := moovIdx - 4 + moovSize in
      if len d <? insertAt then Crash "slice bounds out of range"
      else Ok (fixMP4Sizes (sliceTo d insertAt ++ udta ++ sliceFrom d insertAt)).

(** The atom key [editMP4] maps a requested field name to. *)
Definition atomKeyFor (X : Ext) (k : bytes) : bytes :=
  match list_find (λ e, EqualFold X e.2 k = true ∨ EqualFold X e.1 k = true)
                  itunesAtomNames with
  | Some r => r.2.1
  | None => k
  end.

Definition editMP4 (X : Ext) (ord : Sched) (w : World) (path outPath : string)
    (opts : EditOptions) : World * status :=
  if DryRun opts then
    (Printf (Printf w (str "Dry-run: MP4 metadata atoms would be updated:" ++ [10]))
       (previewLines (str "  ") (str " = ") [10] (rangeMap ord 0 (Set_ opts))),
     Success)
  else
    match ReadFile w path with
    | Ok d =>
        let entries := map (λ kv, (atomKeyFor X kv.1, kv.2)) (rangeMap ord 1 (Set_ opts)) in
        if bool_decide (length entries = 0%nat) && bool_decide (length (Delete opts) = 0%nat)
        then (w, Error "no recognised fields to set")
        else
          match patchMP4Ilst d entries (Delete opts) with
          | Ok newData => (WriteFile w outPath newData, Success)
          | Err m => (w, Error m)
          | Crash m => (w, Panic m)
          end
    | Err m => (w, Error m)
    | Crash m => (w, Panic m)
    end.

(** [removeMP4Atom] *)
Definition removeMP4Atom (d : bytes) (atomType : bytes) : bytes :=
  let idx := Index d atomType in
  if idx <? 4 then d
  else
    let size := beUint32 (slice d (idx - 4) idx) in
    if len d <? idx - 4 + size then d
    else sliceTo d (idx - 4) ++ sliceFrom d (idx - 4 + size).

Definition stripMP4 (w : World) (path outPath : string) (opts : StripOptions)
  : World * status :=
  match ReadFile w path with
  | Ok d =>
      if StripDryRun opts then
        (Printf w (str "Dry-run: MP4 udta/ilst metadata atoms would be removed" ++ [10]),
         Success)
      else (WriteFile w outPath (removeMP4Atom d (str "udta")), Success)
  | Err m => (w, Error m)
  | Crash m => (w, Panic m)
  end.

(** * Documents (core/document/document.go), at their boundary *)

Definition editPDF (X : Ext) (ord : Sched) (w : World) (path outPath : string)
    (opts : EditOptions) : World * status :=
  match ReadFile w path with
  | Ok d =>
      if DryRun opts then
        (Printf (Printf w (str "Dry-run: PDF Info dict would be updated:" ++ [10]))
           (previewLines (str "  /") (str " (") (str ")" ++ [10])
              (rangeMap ord 0 (Set_ opts))),
         Success)
      else (WriteFile w outPath (pdfRewrite X (Set_ opts) (Delete opts) d), Success)
  | Err m => (w, Error m)
  | Crash m => (w, Panic m)
  end.

Definition editOPC (X : Ext) (ord : Sched) (w : World) (path outPath : string)
    (opts : EditOptions) : World * status :=
  if DryRun opts then
    (Printf (Printf w (str "Dry-run: OPC core.xml properties would be updated:" ++ [10]))
       (previewLines (str "  ") (str " = ") [10] (rangeMap ord 0 (Set_ opts))),
     Success)
  else
    match ReadFile w path with
    | Ok d =>
        match opcRewrite X (Set_ opts) (Delete opts) d with
        | Some (written, st) => (WriteFile w outPath written, st)
        | None => (w, Error "cannot open as ZIP")
        end
    | Err m => (w, Error "cannot open as ZIP")
    | Crash m => (w, Panic m)
    end.

(** * The handlers' [Edit] methods *)

Inductive FormatID :=
  | FmtJPEG | FmtPNG | FmtGIF | FmtWebP | FmtTIFF | FmtBMP | FmtHEIC | FmtSVG
  | FmtMP3 | FmtFLAC | FmtOGG | FmtM4A | FmtWAV | FmtAIFF | FmtOpus
  | FmtMP4 | FmtMOV | FmtMKV | FmtWebM | FmtAVI | FmtWMV | FmtFLV
  | FmtPDF | FmtDOCX | FmtXLSX | FmtPPTX | FmtODT | FmtEPUB
  | FmtUnknown.

(** The [Name] entries of the [formatInfo] tables. *)
Definition formatName (f : FormatID) : string :=
  match f with
  | FmtJPEG => "JPEG" | FmtPNG => "PNG" | FmtGIF => "GIF" | FmtWebP => "WebP"
  | FmtTIFF => "TIFF" | FmtBMP => "BMP" | FmtHEIC => "HEIC/HEIF" | FmtSVG => "SVG"
  | FmtMP3 => "MP3" | FmtFLAC => "FLAC" | FmtOGG => "OGG" | FmtM4A => "M4A/AAC"
  | FmtWAV => "WAV" | FmtAIFF => "AIFF" | FmtOpus => "Opus"
  | FmtMP4 => "MP4" | FmtMOV => "QuickTime MOV" | FmtMKV => "Matroska MKV"
  | FmtWebM => "WebM" | FmtAVI => "AVI" | FmtWMV => "WMV" | FmtFLV => "FLV"
  | FmtPDF => "PDF" | FmtDOCX => "DOCX" | FmtXLSX => "XLSX" | FmtPPTX => "PPTX"
  | FmtODT => "ODT/ODS/ODP" | FmtEPUB => "EPUB"
  | FmtUnknown => ""
  end%string.

(** [Handler.Edit] of the image, audio, video and document packages, the
    handler being the one [getHandler] picks for the format.  No format of
    a [default] branch has [CanEdit] set. *)
Definition Edit (X : Ext) (ord : Sched) (f : FormatID) (w : World)
    (path outPath : string) (opts : EditOptions) : World * status :=
  let out := ResolveOutPath path outPath in
  match f with
  | FmtJPEG => editJPEG X ord w path out opts
  | FmtPNG => editPNG ord w path out opts
  | FmtMP3 => editMP3 X ord w path out opts
  | FmtFLAC => editFLAC X ord w path out opts
  | FmtMP4 => editMP4 X ord w path out opts
  | FmtPDF => editPDF X ord w path out opts
  | FmtDOCX | FmtXLSX | FmtPPTX => editOPC X ord w path out opts
  | _ => (w, Error (formatName f +:+ " does not support metadata editing in v0.1.2"))
  end.

(** * The vocabulary of the properties *)

(** A chunk as it lies in a file: length, type, payload and the four
    stored CRC bytes. *)
Definition frame (c : pngChunk) (crc : bytes) : bytes :=
  bePutUint32 (len (data c)) ++ typ c ++ data c ++ crc.

(** A file is the signature, framed chunks, and whatever follows them. *)
Definition pngStream (items : list (pngChunk * list Z)) (rest : bytes) : bytes :=
  pngSignature ++ concat (map (λ it, frame it.1 it.2) items) ++ rest.

(** The CRC bytes the writer emits. *)
Definition freshCRC (c : pngChunk) : bytes := bePutUint32 (crc32PNG (typ c) (data c)).

(** A chunk the reader gets back as written: a four-byte type and a
    payload whose length fits the 32-bit length field. *)
Definition wfChunk (c : pngChunk) : Prop :=
  length (typ c) = 4%nat ∧ len (data c) < 4294967296.

(** [IEND], when present, is the last chunk. *)
Fixpoint iendLast (l : list pngChunk) : Prop :=
  match l with
  | [] => True
  | c :: rest => (typ c = str "IEND" → rest = []) ∧ iendLast rest
  end.

(** The keyword of a [tEXt] chunk, as the first loop of [editPNG] finds it. *)
Definition keywordOf (c : pngChunk) : option bytes :=
  if beq (typ c) (str "tEXt") && (0 <? IndexByte (data c) 0)
  then Some (sliceTo (data c) (IndexByte (data c) 0)) else None.

(** What the first loop appends for one chunk. *)
Definition updateChunk (opts : EditOptions) (delSet : gset (list Z)) (c : pngChunk)
  : list pngChunk :=
  match keywordOf c with
  | Some key =>
      if bool_decide (key ∈ delSet) then []
      else match Set_ opts !! key with
           | Some v => [mkChunk (typ c) (key ++ [0] ++ v)]
           | None => [c]
           end
  | None => [c]
  end.

(** The key the first loop marks as done for one chunk, if any. *)
Definition doneKey (opts : EditOptions) (delSet : gset (list Z)) (c : pngChunk)
  : option bytes :=
  match keywordOf c with
  | Some key =>
      if bool_decide (key ∈ delSet) then None
      else match Set_ opts !! key with Some _ => Some key | None => None end
  | None => None
  end.

(** The chunk of the scenario before and after the edit. *)
Definition authorAlice : pngChunk := mkChunk (str "tEXt") (str "Author" ++ [0] ++ str "Alice").


(** A well-formed iTunes [data] atom holding UTF-8 text. *)
Definition utf8DataAtom (val : bytes) : bytes :=
  packAtom (str "data") ([0; 0; 0; 1] ++ [0; 0; 0; 0] ++ val).

(** A small MP4 file: [ftyp], a [moov] holding [mvhd] and
    [udta/meta/ilst] with the given text atoms, and [mdat]. *)
Definition sampleMP4 (fields : list (list Z * list Z)) : bytes :=
  packAtom (str "ftyp") (str "isom" ++ [0; 0; 2; 0] ++ str "isomiso2")
  ++ packAtom (str "moov")
       (packAtom (str "mvhd") (replicate 100 0)
        ++ packAtom (str "udta")
             (packAtom (str "meta")
                ([0; 0; 0; 0]
                 ++ packAtom (str "ilst")
                      (concat (map (λ kv, packAtom kv.1 (utf8DataAtom kv.2)) fields)))))
  ++ packAtom (str "mdat") [1; 2; 3; 4].

(** The declared size of the first atom named [name]. *)
Definition atomSize (d name : bytes) : Z :=
  beUint32 (slice d (Index d name - 4) (Index d name)).

(** The type of the atom that starts where the first atom named [name]
    is declared to end. *)
Definition atomAfter (d name : bytes) : bytes :=
  let next := Index d name - 4 + atomSize d name in
  slice d (next + 4) (next + 8).

(** A RIFF chunk as it lies in a file, padded to even length. *)
Definition riffChunk (id payload : bytes) : bytes :=
  id ++ lePutUint32 (len payload) ++ payload
  ++ (if bool_decide (len payload mod 2 ≠ 0) then [0] else []).

(** A small WAV file whose [data] chunk has an odd number of bytes. *)
Definition sampleWAV : bytes :=
  let body := str "WAVE"
              ++ riffChunk (str "fmt ") [1; 0; 1; 0; 68; 172; 0; 0; 68; 172; 0; 0; 1; 0; 8; 0]
              ++ riffChunk (str "data") [128; 129; 130]
              ++ riffChunk (str "LIST") (str "INFO" ++ riffChunk (str "INAM") (str "Song"))
              ++ riffChunk (str "cue ") [0; 0; 0; 0] in
  str "RIFF" ++ lePutUint32 (len body) ++ body.

(** What a dry run may do to the world [w]: the files stay as they are;
    on success the standard output grows by a heading that starts with
    "Dry-run:" and one line per requested field; on failure nothing at all
    has changed. *)
Definition dryRunOutcome (ord : Sched) (set : gmap (list Z) (list Z)) (w : World)
    (r : World * status) : Prop :=
  files r.1 = files w
  ∧ (r.2 = Success →
     ∃ (heading pre sep suf : bytes) (site : nat),
       stdout r.1 = stdout w ++ heading ++ previewLines pre sep suf (rangeMap ord site set)
       ∧ HasPrefix heading (str "Dry-run:") = true)
  ∧ (r.2 ≠ Success → r.1 = w).

(** A block the parser gets back as written: a 7-bit type and a payload
    whose length fits the 24-bit length field. *)
Definition wfBlock (b : flacBlock) : Prop :=
  0 ≤ blockType b < 128 ∧ len (blockData b) < 16777216.



(** The [tEXt] chunk for keyword [K] and text [V]. *)
Definition textChunk (K V : bytes) : pngChunk := mkChunk (str "tEXt") (K ++ [0] ++ V).

(** What the first loop makes of a chunk under set {K: V}. *)
Definition setText (K V : bytes) (c : pngChunk) : pngChunk :=
  if bool_decide (keywordOf c = Some K) then textChunk K V else c.

(** A comment key the decoder gives back as it is: not empty, without
    ['='], and already in upper case. *)
Definition wfKey (X : Ext) (k : bytes) : Prop :=
  k ≠ [] ∧ (61 ∉ k) ∧ ToUpper X k = k.

(** What the proofs need of [strings.ToUpper]. *)
Definition upperOK (X : Ext) : Prop :=
  (∀ s, ToUpper X (ToUpper X s) = ToUpper X s)
  ∧ (∀ s, 61 ∉ s → 61 ∉ ToUpper X s)
  ∧ (∀ s, s ≠ [] → ToUpper X s ≠ []).

(** One comment as [buildVorbisComment] lays it out. *)
Definition commentBytes (kv : list Z * list Z) : bytes :=
  lePutUint32 (len (kv.1 ++ str "=" ++ kv.2)) ++ kv.1 ++ str "=" ++ kv.2.

(** The assignments [out[k] = v] of the decoder, entry after entry. *)
Definition insertAll (entries : list (list Z * list Z)) (m : gmap (list Z) (list Z))
  : gmap (list Z) (list Z) :=
  fold_left (λ (m : gmap (list Z) (list Z)) kv, <[kv.1 := kv.2]> m) entries m.

(** The payload of the first block of type 4. *)
Definition vcData (blocks : list flacBlock) : option bytes :=
  match findVC blocks with
  | Some i => blockData <$> blocks !! i
  | None => None
  end.

(** The comment fields of a file as the editor itself decodes them. *)
Definition flacComments (X : Ext) (file : bytes) : gmap (list Z) (list Z) :=
  match parseFLACBlocks file with
  | Ok (blocks, _) => parseVorbisComments X (default [] (vcData blocks)) ∅
  | _ => ∅
  end.

(** * Further functions of the source *)

(** ** PNG: the fields of a view *)

(** A byte of a file: a value in [0, 256). *)
Definition isByte (b : Z) : Prop := 0 ≤ b < 256.

(** The fields the loop of [viewPNG] appends for one chunk. *)
Definition chunkFields (X : Ext) (c : pngChunk) : list MetaField :=
  match viewChunk X c with Ok fs => fs | _ => [] end.

(** A field read from a [tEXt] chunk with keyword [K]. *)
Definition isText (K : bytes) (f : MetaField) : Prop :=
  Key f = K ∧ Category f = str "PNG tEXt".

#[global] Instance isText_dec (K : bytes) (f : MetaField) : Decision (isText K f) :=
  (_ : Decision (Key f = K ∧ Category f = str "PNG tEXt")).

(** The field the view shows for the text chunk with keyword [K]. *)
Definition textField (K V : bytes) : MetaField := mkField K V (str "PNG tEXt") true.

(** ** FLAC: the strip *)

(** The fields [stripFLAC] keeps of the comment block [d], block number
    [i] of the file: the decoded fields, minus every key that is not the
    upper-cased form of a name in [keepFields].  The keys are deleted
    while the map is ranged over. *)
Definition keptComments (X : Ext) (ord : Sched) (i : nat) (keepFields : list (list Z))
    (d : bytes) : gmap (list Z) (list Z) :=
  let existing := parseVorbisComments X d ∅ in
  let keep : gset (list Z) := list_to_set (map (ToUpper X) keepFields) in
  fold_left (λ (m : gmap (list Z) (list Z)) kv,
               if bool_decide (kv.1 ∈ keep) then m else delete kv.1 m)
            (rangeMap ord (2 * i) existing) existing.

(** The block list [stripFLAC] hands to the writer. *)
Definition stripFLACBlocks (X : Ext) (ord : Sched) (opts : StripOptions)
    (blocks : list flacBlock) : list flacBlock :=
  if 0 <? len (KeepFields opts) then
    imap (λ i b, if bool_decide (blockType b = 4)
                 then mkBlock (blockType b)
                        (buildVorbisComment
                           (rangeMap ord (2 * i + 1)
                              (keptComments X ord i (KeepFields opts) (blockData b))))
                 else b) blocks
  else
    filter (λ b, blockType b ≠ 6)
      (map (λ b, if bool_decide (blockType b = 4)
                 then mkBlock (blockType b) (buildVorbisComment [])
                 else b) blocks).

(** [stripFLAC]; the slice [data[audioStart:]] panics when the file is
    shorter than the four bytes of the magic. *)
Definition stripFLAC (X : Ext) (ord : Sched) (w : World) (path outPath : string)
    (opts : StripOptions) : World * status :=
  match ReadFile w path with
  | Ok d =>
      if StripDryRun opts then
        (Printf w (str "Dry-run: FLAC Vorbis comment block would be cleared" ++ [10]),
         Success)
      else
        match parseFLACBlocks d with
        | Ok (blocks, audioStart) =>
            if len d <? audioStart then (w, Panic "slice bounds out of range")
            else (writeFLAC w outPath (stripFLACBlocks X ord opts blocks)
                    (sliceFrom d audioStart), Success)
        | Err m => (w, Error m)
        | Crash m => (w, Panic m)
        end
  | Err m => (w, Error m)
  | Crash m => (w, Panic m)
  end.

(** ** WebP: the strip, and RIFF files chunk by chunk *)

(** The loop of [stripWebP]: the body it collects. *)
Fixpoint stripWebPLoop (fuel : nat) (opts : StripOptions) (d : bytes) (offset : Z)
    (body : bytes) : bytes :=
  match fuel with
  | O => body
  | S fuel' =>
      if len d <? offset + 8 then body else
      let chunkID := slice d offset (offset + 4) in
      let chunkSize := leUint32 (slice d (offset + 4) (offset + 8)) in
      let offset := offset + 8 in
      if len d <? offset + chunkSize then body else
      let chunkData := slice d offset (offset + chunkSize) in
      let skip := (StripAll opts || bool_decide (len (KeepFields opts) = 0))
                  && (beq chunkID (str "EXIF") || beq chunkID (str "XMP ")) in
      let body := if skip then body
                  else body ++ chunkID ++ lePutUint32 chunkSize ++ chunkData
                       ++ (if bool_decide (chunkSize mod 2 ≠ 0) then [0] else []) in
      let offset := offset + chunkSize in
      let offset := if bool_decide (chunkSize mod 2 ≠ 0) then offset + 1 else offset in
      stripWebPLoop fuel' opts d offset body
  end.

Definition stripWebPBytes (opts : StripOptions) (d : bytes) : bytes :=
  let body := stripWebPLoop (length d) opts d 12 [] in
  str "RIFF" ++ lePutUint32 (len body + 4) ++ str "WEBP" ++ body.

(** [stripWebP] *)
Definition stripWebP (w : World) (path outPath : string) (opts : StripOptions)
  : World * status :=
  match ReadFile w path with
  | Ok d =>
      if len d <? 12 then (w, Error "WebP too short")
      else (WriteFile w outPath (stripWebPBytes opts d), Success)
  | Err m => (w, Error m)
  | Crash m => (w, Panic m)
  end.


(** The chunks of a RIFF file, one after the other, each padded to even
    length. *)
Definition riffBody (chunks : list (list Z * list Z)) : bytes :=
  concat (map (λ c, riffChunk c.1 c.2) chunks).

(** A chunk without its padding byte. *)
Definition bareChunk (c : list Z * list Z) : bytes :=
  c.1 ++ lePutUint32 (len c.2) ++ c.2.

(** A chunk identifier of four bytes and a payload that fits the 32-bit
    size field. *)
Definition wfRiff (c : list Z * list Z) : Prop :=
  length c.1 = 4%nat ∧ len c.2 < 4294967296.

(** The chunks [stripWAV] leaves out. *)
Definition wavMeta (id : bytes) : Prop :=
  id = str "LIST" ∨ id = str "id3 " ∨ id = str "ID3 ".

(** The chunks [stripWebP] leaves out under the options [opts]. *)
Definition webpMeta (opts : StripOptions) (id : bytes) : Prop :=
  (StripAll opts = true ∨ KeepFields opts = []) ∧ (id = str "EXIF" ∨ id = str "XMP ").

#[global] Instance wavMeta_dec (id : bytes) : Decision (wavMeta id) :=
  (_ : Decision (id = str "LIST" ∨ id = str "id3 " ∨ id = str "ID3 ")).
#[global] Instance webpMeta_dec (opts : StripOptions) (id : bytes) : Decision (webpMeta opts id) :=
  (_ : Decision ((StripAll opts = true ∨ KeepFields opts = [])
                 ∧ (id = str "EXIF" ∨ id = str "XMP "))).

(** ** JPEG: the segments of a written file *)

(** A segment with a length field: its marker is none of SOI, EOI and
    the 0 that stands for raw data, and its payload fits the 16-bit
    length. *)
Definition plainSeg (s : jpegSegment) : Prop :=
  (marker s ≠ 0 ∧ marker s ≠ 216 ∧ marker s ≠ 217) ∧ len (segData s) ≤ 65533.

(** How a segment list ends: with nothing, with EOI, or with raw data
    that does not start with 0xFF. *)
Definition jpegTail (tail : list jpegSegment) : Prop :=
  tail = [] ∨ tail = [mkSeg 217 []]
  ∨ ∃ r, tail = [mkSeg 0 r] ∧ r ≠ [] ∧ head r ≠ Some 255.

(** ** Format detection *)

(** [extMap] *)
Definition extMap : list (list Z * FormatID) :=
  [ (str ".jpg", FmtJPEG); (str ".jpeg", FmtJPEG); (str ".png", FmtPNG);
    (str ".gif", FmtGIF); (str ".webp", FmtWebP); (str ".tiff", FmtTIFF);
    (str ".tif", FmtTIFF); (str ".bmp", FmtBMP); (str ".heic", FmtHEIC);
    (str ".heif", FmtHEIC); (str ".svg", FmtSVG);
    (str ".mp3", FmtMP3); (str ".flac", FmtFLAC); (str ".ogg", FmtOGG);
    (str ".oga", FmtOGG); (str ".m4a", FmtM4A); (str ".aac", FmtM4A);
    (str ".wav", FmtWAV); (str ".wave", FmtWAV); (str ".aif", FmtAIFF);
    (str ".aiff", FmtAIFF); (str ".opus", FmtOpus);
    (str ".mp4", FmtMP4); (str ".m4v", FmtMP4); (str ".mov", FmtMOV);
    (str ".qt", FmtMOV); (str ".mkv", FmtMKV); (str ".webm", FmtWebM);
    (str ".avi", FmtAVI); (str ".wmv", FmtWMV); (str ".flv", FmtFLV);
    (str ".pdf", FmtPDF); (str ".docx", FmtDOCX); (str ".docm", FmtDOCX);
    (str ".xlsx", FmtXLSX); (str ".xlsm", FmtXLSX); (str ".pptx", FmtPPTX);
    (str ".pptm", FmtPPTX); (str ".odt", FmtODT); (str ".ods", FmtODT);
    (str ".odp", FmtODT); (str ".epub", FmtEPUB) ].

(** [detectMP4Subtype] *)
Definition detectMP4Subtype (b : bytes) : FormatID :=
  if len b <? 12 then FmtMP4
  else
    let brand := slice b 8 12 in
    if beq brand (str "M4A ") || beq brand (str "M4B ") then FmtM4A
    else if beq brand (str "qt  ") then FmtMOV
    else FmtMP4.

(** [detectMKVSubtype] *)
Definition detectMKVSubtype (b : bytes) : FormatID := FmtMKV.

(** [detectMagic]: the cases of the [switch], in their order. *)
Definition detectMagic (b : bytes) : FormatID :=
  if len b <? 4 then FmtUnknown
  else if bool_decide (at_ b 0 = 255) && bool_decide (at_ b 1 = 216)
          && bool_decide (at_ b 2 = 255) then FmtJPEG
  else if HasPrefix b pngSignature then FmtPNG
  else if HasPrefix b (str "GIF87a") || HasPrefix b (str "GIF89a") then FmtGIF
  else if (12 <=? len b) && beq (slice b 0 4) (str "RIFF")
          && beq (slice b 8 12) (str "WEBP") then FmtWebP
  else if HasPrefix b [73; 73; 42; 0] || HasPrefix b [77; 77; 0; 42] then FmtTIFF
  else if bool_decide (at_ b 0 = 66) && bool_decide (at_ b 1 = 77) then FmtBMP
  else if HasPrefix b (str "ID3") then FmtMP3
  else if bool_decide (at_ b 0 = 255) && bool_decide (Z.land (at_ b 1) 224 = 224)
       then FmtMP3
  else if HasPrefix b (str "fLaC") then FmtFLAC
  else if HasPrefix b (str "OggS") then FmtOGG
  else if (12 <=? len b) && beq (slice b 0 4) (str "RIFF")
          && beq (slice b 8 12) (str "WAVE") then FmtWAV
  else if (12 <=? len b) && beq (slice b 0 4) (str "FORM")
          && (beq (slice b 8 12) (str "AIFF") || beq (slice b 8 12) (str "AIFC"))
       then FmtAIFF
  else if (8 <=? len b) && beq (slice b 4 8) (str "ftyp") then detectMP4Subtype b
  else if (4 <=? len b) && bool_decide (beUint32 (slice b 0 4) = 440786851)
       then detectMKVSubtype b
  else if (12 <=? len b) && beq (slice b 0 4) (str "RIFF")
          && beq (slice b 8 12) (str "AVI ") then FmtAVI
  else if HasPrefix b (str "FLV") then FmtFLV
  else if HasPrefix b (str "%PDF") then FmtPDF
  else if HasPrefix b (str "PK" ++ [3; 4]) then FmtDOCX
  else FmtUnknown.

(** [strings.LastIndex] with a separator of one byte. *)
Fixpoint LastIndexByte (s : bytes) (c : Z) : Z :=
  match s with
  | [] => -1
  | x :: s' =>
      let r := LastIndexByte s' c in
      if 0 <=? r then r + 1 else if bool_decide (x = c) then 0 else -1
  end.

(** The fallback of [DetectFormat]: the format of the file name's
    extension. *)
Definition formatByExt (X : Ext) (path : string) : FormatID :=
  let dot := LastIndexByte (str path) 46 in
  if 0 <=? dot then
    default FmtUnknown (lookupAssoc extMap (ToLower X (sliceFrom (str path) dot)))
  else FmtUnknown.

(** [DetectFormat].  [Err] is the result [FmtUnknown] with an error;
    [io.ReadFull] into the 16-byte buffer fails with [EOF] on an empty
    file and is content with fewer than 16 bytes otherwise. *)
Definition DetectFormat (X : Ext) (w : World) (path : string) : result FormatID :=
  match files w !! path with
  | None => Err "open: no such file or directory"
  | Some d =>
      let buf := take 16 d in
      if bool_decide (len buf = 0) then Err "EOF"
      else match detectMagic buf with
           | FmtUnknown => Ok (formatByExt X path)
           | id => Ok id
           end
  end.

(** [MediaTypeFor] *)
Definition MediaTypeFor (id : FormatID) : string :=
  match id with
  | FmtJPEG | FmtPNG | FmtGIF | FmtWebP | FmtTIFF | FmtBMP | FmtHEIC | FmtSVG => "image"
  | FmtMP3 | FmtFLAC | FmtOGG | FmtM4A | FmtWAV | FmtAIFF | FmtOpus => "audio"
  | FmtMP4 | FmtMOV | FmtMKV | FmtWebM | FmtAVI | FmtWMV | FmtFLV => "video"
  | FmtPDF | FmtDOCX | FmtXLSX | FmtPPTX | FmtODT | FmtEPUB => "document"
  | FmtUnknown => "unknown"
  end%string.

(** ** MP4: the value of a data atom *)

(** [strings.TrimRight(s, "\x00")]: the string without its trailing NUL
    bytes. *)
Fixpoint trimRightNul (s : bytes) : bytes :=
  match s with
  | [] => []
  | x :: s' =>
      match trimRightNul s' with
      | [] => if bool_decide (x = 0) then [] else [x]
      | t => x :: t
      end
  end.

(** [extractiTunesData] *)
Definition extractiTunesData (d : bytes) : bytes :=
  if len d <? 16 then []
  else if negb (beq (slice d 4 8) (str "data")) then []
  else trimRightNul (sliceFrom d 16).

(** ** WAV: the view *)

Definition leUint16 (b : bytes) : Z := at_ b 0 + at_ b 1 * 256.

(** [infoChunkNames] *)
Definition infoChunkNames : list (list Z * list Z) :=
  [ (str "IARL", str "ArchivalLocation"); (str "IART", str "Artist");
    (str "ICMS", str "Commissioned"); (str "ICMT", str "Comment");
    (str "ICOP", str "Copyright"); (str "ICRD", str "DateCreated");
    (str "ICRP", str "Cropped"); (str "IDIM", str "Dimensions");
    (str "IDPI", str "DotsPerInch"); (str "IENG", str "Engineer");
    (str "IGNR", str "Genre"); (str "IKEY", str "Keywords");
    (str "ILGT", str "Lightness"); (str "IMED", str "Medium");
    (str "INAM", str "Title"); (str "IPLT", str "NumberOfColors");
    (str "IPRD", str "Product"); (str "ISBJ", str "Subject");
    (str "ISFT", str "Software"); (str "ISHP", str "Sharpness");
    (str "ISRC", str "Source"); (str "ISRF", str "SourceForm");
    (str "ITCH", str "Technician") ].

(** The inner loop of [viewWAV], over the entries of a LIST chunk of
    type INFO, from [pos] up to [end_]. *)
Fixpoint wavInfoLoop (fuel : nat) (d : bytes) (pos end_ : Z) (acc : list MetaField)
  : list MetaField :=
  match fuel with
  | O => acc
  | S fuel' =>
      if end_ <? pos + 8 then acc else
      let infoID := slice d pos (pos + 4) in
      let infoSize := leUint32 (slice d (pos + 4) (pos + 8)) in
      let pos := pos + 8 in
      if end_ <? pos + infoSize then acc else
      let val := trimRightNul (slice d pos (pos + infoSize)) in
      let acc := if bool_decide (val ≠ []) then
                   let name := default infoID (lookupAssoc infoChunkNames infoID) in
                   acc ++ [mkField name val (str "WAV INFO") false]
                 else acc in
      let pos := pos + infoSize in
      let pos := if bool_decide (infoSize mod 2 ≠ 0) then pos + 1 else pos in
      wavInfoLoop fuel' d pos end_ acc
  end.

(** The chunk loop of [viewWAV].  [tagTitle] is the dhowden/tag library:
    the title of the tag [tag.ReadFrom] finds in the file, [None] when it
    returns an error. *)
Fixpoint viewWAVLoop (tagTitle : bytes → option bytes) (fuel : nat) (d : bytes)
    (offset : Z) (acc : list MetaField) : list MetaField :=
  match fuel with
  | O => acc
  | S fuel' =>
      if len d <? offset + 8 then acc else
      let chunkID := slice d offset (offset + 4) in
      let chunkSize := leUint32 (slice d (offset + 4) (offset + 8)) in
      let offset := offset + 8 in
      if len d <? offset + chunkSize then acc else
      let acc :=
        if beq chunkID (str "LIST") && (offset + 4 <=? len d)
           && beq (slice d offset (offset + 4)) (str "INFO")
        then wavInfoLoop (length d) d (offset + 4) (offset + chunkSize) acc
        else acc in
      let acc :=
        if beq chunkID (str "id3 ") || beq chunkID (str "ID3 ") then
          match tagTitle d with
          | Some t => if bool_decide (t ≠ [])
                      then acc ++ [mkField (str "Title") t (str "WAV ID3") false]
                      else acc
          | None => acc
          end
        else acc in
      let offset := offset + chunkSize in
      let offset := if bool_decide (chunkSize mod 2 ≠ 0) then offset + 1 else offset in
      viewWAVLoop tagTitle fuel' d offset acc
  end.

(** [viewWAV]: the fields and the error it returns. *)
Definition viewWAV (tagTitle : bytes → option bytes) (w : World) (path : string)
  : list MetaField * status :=
  match ReadFile w path with
  | Ok d =>
      if len d <? 12 then ([], Error "WAV too short")
      else
        let sampleRate := leUint32 (slice d 24 28) in
        let channels := leUint16 (slice d 22 24) in
        let bitsPerSample := leUint16 (slice d 34 36) in
        let header :=
          [ mkField (str "SampleRate") (fmtD 0 sampleRate ++ str " Hz") (str "WAV Header") false;
            mkField (str "Channels") (fmtD 0 channels) (str "WAV Header") false;
            mkField (str "BitsPerSample") (fmtD 0 bitsPerSample) (str "WAV Header") false ] in
        (viewWAVLoop tagTitle (length d) d 12 header, Success)
  | Err m => ([], Error m)
  | Crash m => ([], Panic m)
  end.


(** The three fields [viewWAV] reads at fixed offsets of the file [d]. *)
Definition wavHeaderFields (d : bytes) : list MetaField :=
  [ mkField (str "SampleRate") (fmtD 0 (leUint32 (slice d 24 28)) ++ str " Hz")
      (str "WAV Header") false;
    mkField (str "Channels") (fmtD 0 (leUint16 (slice d 22 24))) (str "WAV Header") false;
    mkField (str "BitsPerSample") (fmtD 0 (leUint16 (slice d 34 36)))
      (str "WAV Header") false ].

(** ** Command-line pairs and EBML numbers *)

(** [ParseKV]; [TrimSpace] is [strings.TrimSpace], and [None] is the
    result with [ok] false. *)
Definition ParseKV (TrimSpace : bytes → bytes) (s : bytes) : option (list Z * list Z) :=
  let idx := Index s (str "=") in
  if idx <? 1 then None
  else Some (TrimSpace (sliceTo s idx), TrimSpace (sliceFrom s (idx + 1))).

(** [readEBMLID]: the identifier and the number of bytes it takes. *)
Definition readEBMLID (d : bytes) (pos : Z) : Z * Z :=
  if len d <=? pos then (0, 0) else
  let b := at_ d pos in
  if bool_decide (b = 0) then (0, 1)
  else if bool_decide (Z.land b 128 ≠ 0) then (b, 1)
  else if bool_decide (Z.land b 64 ≠ 0) && (pos + 1 <? len d) then
    (Z.lor (Z.shiftl b 8) (at_ d (pos + 1)), 2)
  else if bool_decide (Z.land b 32 ≠ 0) && (pos + 2 <? len d) then
    (Z.lor (Z.lor (Z.shiftl b 16) (Z.shiftl (at_ d (pos + 1)) 8)) (at_ d (pos + 2)), 3)
  else if bool_decide (Z.land b 16 ≠ 0) && (pos + 3 <? len d) then
    (Z.lor (Z.lor (Z.lor (Z.shiftl b 24) (Z.shiftl (at_ d (pos + 1)) 16))
                   (Z.shiftl (at_ d (pos + 2)) 8)) (at_ d (pos + 3)), 4)
  else (0, 1).

(** [readEBMLSize]: the data size and the number of bytes it takes. *)
Definition readEBMLSize (d : bytes) (pos : Z) : Z * Z :=
  if len d <=? pos then (0, 0) else
  let b := at_ d pos in
  if bool_decide (Z.land b 128 ≠ 0) then (Z.land b 127, 1)
  else if bool_decide (Z.land b 64 ≠ 0) && (pos + 1 <? len d) then
    (Z.lor (Z.shiftl (Z.land b 63) 8) (at_ d (pos + 1)), 2)
  else if bool_decide (Z.land b 32 ≠ 0) && (pos + 2 <? len d) then
    (Z.lor (Z.lor (Z.shiftl (Z.land b 31) 16) (Z.shiftl (at_ d (pos + 1)) 8))
           (at_ d (pos + 2)), 3)
  else if bool_decide (Z.land b 16 ≠ 0) && (pos + 3 <? len d) then
    (Z.lor (Z.lor (Z.lor (Z.shiftl (Z.land b 15) 24) (Z.shiftl (at_ d (pos + 1)) 16))
                   (Z.shiftl (at_ d (pos + 2)) 8)) (at_ d (pos + 3)), 4)
  else if bool_decide (Z.land b 8 ≠ 0) && (pos + 4 <? len d) then
    (Z.lor (Z.lor (Z.lor (Z.lor (Z.shiftl (Z.land b 7) 32) (Z.shiftl (at_ d (pos + 1)) 24))
                          (Z.shiftl (at_ d (pos + 2)) 16))
                   (Z.shiftl (at_ d (pos + 3)) 8)) (at_ d (pos + 4)), 5)
  else (-1, 1).

(** ** GIF: the strip *)

(** The inner loop of [stripGIF]: the index after the sub-blocks of a
    comment extension. *)
Fixpoint skipSubBlocks (fuel : nat) (d : bytes) (i : Z) : Z :=
  match fuel with
  | O => i
  | S fuel' =>
      if i <? len d then
        let blockSize := at_ d i in
        let i := i + 1 in
        if blockSize =? 0 then i else skipSubBlocks fuel' d (i + blockSize)
      else i
  end.

(** The main loop of [stripGIF]: the bytes it has written when it ends. *)
Fixpoint stripGIFLoop (fuel : nat) (d : bytes) (i : Z) (out : bytes) : bytes :=
  match fuel with
  | O => out
  | S fuel' =>
      if i <? len d then
        if at_ d i =? 59 then out ++ [59]
        else if (at_ d i =? 33) && (i + 1 <? len d) && (at_ d (i + 1) =? 254) then
          stripGIFLoop fuel' d (skipSubBlocks (length d) d (i + 2)) out
        else stripGIFLoop fuel' d (i + 1) (out ++ [at_ d i])
      else out
  end.

Definition stripGIFBytes (d : bytes) : result bytes :=
  if len d <? 13 then Err "GIF too short" else
  let out := sliceTo d 13 in
  if bool_decide (Z.land (at_ d 10) 128 ≠ 0) then
    let ctSize := 3 * Z.shiftl 1 (Z.land (at_ d 10) 7 + 1) in
    if len d <? 13 + ctSize then Err "GIF truncated"
    else Ok (stripGIFLoop (length d) d (13 + ctSize) (out ++ slice d 13 (13 + ctSize)))
  else Ok (stripGIFLoop (length d) d 13 out).

(** [stripGIF] *)
Definition stripGIF (w : World) (path outPath : string) (opts : StripOptions)
  : World * status :=
  match ReadFile w path with
  | Ok d =>
      match stripGIFBytes d with
      | Ok o => (WriteFile w outPath o, Success)
      | Err m => (w, Error m)
      | Crash m => (w, Panic m)
      end
  | Err m => (w, Error m)
  | Crash m => (w, Panic m)
  end.


(** A GIF comment extension holding the data sub-blocks [bs]. *)
Definition commentExt (bs : list bytes) : bytes :=
  [33; 254] ++ concat (map (λ b, len b :: b) bs) ++ [0].

(** A data sub-block: between 1 and 255 bytes. *)
Definition wfSubBlock (b : bytes) : Prop := 0 < len b < 256.

(** A run of bytes with no trailer byte and no comment introducer. *)
Fixpoint plainRun (b : bytes) : bool :=
  match b with
  | [] => true
  | x :: r =>
      negb (x =? 59) && negb ((x =? 33) && (default 0 (head r) =? 254)) && plainRun r
  end.

(** The blocks of a GIF after its colour table: a plain run, then comment
    extensions each followed by a plain run. *)
Definition gifBlocks (parts : list (list bytes * bytes)) : bytes :=
  concat (map (λ p, commentExt p.1 ++ p.2) parts).

(** The size of the global colour table that the screen descriptor in
    [hdr] announces. *)
Definition colorTableSize (hdr : bytes) : Z :=
  if bool_decide (Z.land (at_ hdr 10) 128 ≠ 0)
  then 3 * Z.shiftl 1 (Z.land (at_ hdr 10) 7 + 1) else 0.

(** * Properties *)

(** ** Lengths, slices and integer encodings *)

Lemma len_app {A} (a b : list A) : len (a ++ b) = len a + len b.
Proof. unfold len. rewrite length_app. lia. Qed.

Lemma len_nonneg {A} (a : list A) : 0 ≤ len a.
Proof. unfold len. lia. Qed.

Lemma len_cons {A} (x : A) (a : list A) : len (x :: a) = 1 + len a.
Proof. unfold len. cbn [length]. lia. Qed.

Lemma len_nil {A} : len (@nil A) = 0.
Proof. reflexivity. Qed.

Lemma bePutUint32_length v : length (bePutUint32 v) = 4%nat.
Proof. reflexivity. Qed.

Lemma lePutUint32_length v : length (lePutUint32 v) = 4%nat.
Proof. reflexivity. Qed.

Lemma len_bePutUint32 v : len (bePutUint32 v) = 4.
Proof. reflexivity. Qed.

Lemma len_lePutUint32 v : len (lePutUint32 v) = 4.
Proof. reflexivity. Qed.

Lemma beUint32_4 a b c d :
  beUint32 [a; b; c; d] = a * 16777216 + b * 65536 + c * 256 + d.
Proof. reflexivity. Qed.

Lemma leUint32_4 a b c d :
  leUint32 [a; b; c; d] = a + b * 256 + c * 65536 + d * 16777216.
Proof. reflexivity. Qed.

Lemma split_uint32 v :
  0 ≤ v < 4294967296 →
  (v / 16777216) mod 256 * 16777216 + (v / 65536) mod 256 * 65536
  + (v / 256) mod 256 * 256 + v mod 256 = v.
Proof.
  intros Hv.
  replace (v / 16777216) with (v / 256 / 256 / 256)
    by (rewrite !Z.div_div by lia; reflexivity).
  replace (v / 65536) with (v / 256 / 256) by (rewrite Z.div_div by lia; reflexivity).
  pose proof (Z.div_mod v 256 ltac:(lia)).
  pose proof (Z.div_mod (v / 256) 256 ltac:(lia)).
  pose proof (Z.div_mod (v / 256 / 256) 256 ltac:(lia)).
  assert (0 ≤ v / 256 / 256 / 256 < 256).
  { rewrite !Z.div_div by lia. split; [apply Z.div_pos; lia|].
    apply Z.div_lt_upper_bound; lia. }
  rewrite (Z.mod_small (v / 256 / 256 / 256)) by lia.
  lia.
Qed.

Lemma beUint32_bePutUint32 v : 0 ≤ v < 4294967296 → beUint32 (bePutUint32 v) = v.
Proof. intros Hv. unfold bePutUint32. rewrite beUint32_4. by apply split_uint32. Qed.

Lemma leUint32_lePutUint32 v : 0 ≤ v < 4294967296 → leUint32 (lePutUint32 v) = v.
Proof.
  intros Hv. unfold lePutUint32. rewrite leUint32_4.
  rewrite <- (split_uint32 v Hv) at 5. lia.
Qed.

Lemma take_len_app {A} (a b : list A) : take (Z.to_nat (len a)) (a ++ b) = a.
Proof. unfold len. rewrite Nat2Z.id. by rewrite take_app_length. Qed.

Lemma drop_len_app {A} (a b : list A) : drop (Z.to_nat (len a)) (a ++ b) = b.
Proof. unfold len. rewrite Nat2Z.id. by rewrite drop_app_length. Qed.

(** ** The PNG chunk reader *)

Lemma readChunkLoop_frame fuel c crc rest :
  wfChunk c → length crc = 4%nat →
  readChunkLoop (S fuel) (frame c crc ++ rest)
  = if beq (typ c) (str "IEND") then [c] else c :: readChunkLoop fuel rest.
Proof.
  intros [Ht Hd] Hc. destruct c as [t d]; cbn [typ data] in *.
  unfold frame; cbn [typ data]. cbn [readChunkLoop].
  rewrite <- !app_assoc.
  assert (Hlen4 : ∀ (a b : bytes), length a = 4%nat → (len (a ++ b) <? 4) = false).
  { intros a b Ha. rewrite len_app. unfold len at 1. rewrite Ha.
    pose proof (len_nonneg b). apply Z.ltb_ge. lia. }
  rewrite Hlen4 by reflexivity.
  rewrite (take_app_length' (bePutUint32 (len d))) by reflexivity.
  rewrite (drop_app_length' (bePutUint32 (len d))) by reflexivity.
  rewrite beUint32_bePutUint32 by (pose proof (len_nonneg d); lia).
  rewrite Hlen4 by done.
  rewrite (take_app_length' t) by done.
  rewrite (drop_app_length' t) by done.
  replace (len (d ++ crc ++ rest) <? len d) with false
    by (symmetry; apply Z.ltb_ge; rewrite len_app; pose proof (len_nonneg (crc ++ rest)); lia).
  rewrite take_len_app, drop_len_app.
  rewrite (drop_app_length' crc) by done.
  reflexivity.
Qed.

Lemma readChunkLoop_crc fuel chunks crcs1 crcs2 rest :
  Forall wfChunk chunks →
  length crcs1 = length chunks → length crcs2 = length chunks →
  Forall (λ crc, length crc = 4%nat) crcs1 →
  Forall (λ crc, length crc = 4%nat) crcs2 →
  readChunkLoop fuel (concat (map (λ it, frame it.1 it.2) (zip chunks crcs1)) ++ rest)
  = readChunkLoop fuel (concat (map (λ it, frame it.1 it.2) (zip chunks crcs2)) ++ rest).
Proof.
  intros Hwf. revert fuel crcs1 crcs2.
  induction Hwf as [|c chunks Hc Hwf IH]; intros fuel crcs1 crcs2 H1 H2 F1 F2.
  - reflexivity.
  - destruct crcs1 as [|c1 crcs1]; [done|]. destruct crcs2 as [|c2 crcs2]; [done|].
    destruct fuel as [|fuel]; [done|].
    inversion F1; inversion F2; subst. cbn [zip zip_with map concat fst snd].
    rewrite <- !app_assoc, !readChunkLoop_frame by done.
    destruct (beq _ _); [done|]. f_equal.
    apply IH; auto; cbn in H1, H2; lia.
Qed.

Lemma frames_length_crc chunks crcs1 crcs2 :
  length crcs1 = length chunks → length crcs2 = length chunks →
  Forall (λ crc, length crc = 4%nat) crcs1 →
  Forall (λ crc, length crc = 4%nat) crcs2 →
  length (concat (map (λ it, frame it.1 it.2) (zip chunks crcs1)))
  = length (concat (map (λ it, frame it.1 it.2) (zip chunks crcs2))).
Proof.
  revert crcs1 crcs2.
  induction chunks as [|c chunks IH]; intros [|c1 crcs1] [|c2 crcs2] H1 H2 F1 F2;
    try done.
  inversion F1; inversion F2; subst. cbn [zip zip_with map concat fst snd].
  rewrite !length_app, (IH crcs1 crcs2) by (auto; cbn in *; lia).
  unfold frame. rewrite !length_app. lia.
Qed.

Lemma pngStream_length_crc chunks crcs1 crcs2 rest :
  length crcs1 = length chunks → length crcs2 = length chunks →
  Forall (λ crc, length crc = 4%nat) crcs1 →
  Forall (λ crc, length crc = 4%nat) crcs2 →
  length (pngStream (zip chunks crcs1) rest) = length (pngStream (zip chunks crcs2) rest).
Proof.
  intros H1 H2 F1 F2. unfold pngStream. rewrite !length_app.
  by rewrite (frames_length_crc chunks crcs1 crcs2).
Qed.

Lemma readPNGChunks_stream items rest :
  readPNGChunks (pngStream items rest)
  = Ok (readChunkLoop (length (pngStream items rest))
          (concat (map (λ it, frame it.1 it.2) items) ++ rest)).
Proof.
  unfold readPNGChunks, pngStream.
  set (body := concat _ ++ rest).
  assert (Hl : len (pngSignature ++ body) = 8 + len body) by (rewrite len_app; reflexivity).
  pose proof (len_nonneg body).
  rewrite bool_decide_eq_false_2 by lia.
  replace (len (pngSignature ++ body) <? 8) with false by (symmetry; apply Z.ltb_ge; lia).
  rewrite (take_app_length' pngSignature) by reflexivity.
  unfold beq. rewrite bool_decide_eq_true_2 by done. cbn [negb].
  by rewrite (drop_app_length' pngSignature) by reflexivity.
Qed.

Lemma readPNGChunks_crc chunks crcs1 crcs2 rest :
  Forall wfChunk chunks →
  length crcs1 = length chunks → length crcs2 = length chunks →
  Forall (λ crc, length crc = 4%nat) crcs1 →
  Forall (λ crc, length crc = 4%nat) crcs2 →
  readPNGChunks (pngStream (zip chunks crcs1) rest)
  = readPNGChunks (pngStream (zip chunks crcs2) rest).
Proof.
  intros. rewrite !readPNGChunks_stream.
  rewrite (pngStream_length_crc chunks crcs1 crcs2) by assumption.
  rewrite (readChunkLoop_crc _ chunks crcs1 crcs2 rest) by assumption.
  reflexivity.
Qed.

Lemma pngFile_stream chunks :
  pngFile chunks = pngStream (zip chunks (freshCRC <$> chunks)) [].
Proof.
  unfold pngFile, pngStream. rewrite app_nil_r. f_equal. f_equal.
  induction chunks as [|c chunks IH]; [done|].
  cbn [fmap list_fmap zip zip_with map fst snd]. by rewrite <- IH.
Qed.

Lemma Printf_Printf w a b : Printf (Printf w a) b = Printf w (a ++ b).
Proof. unfold Printf. cbn. by rewrite app_assoc. Qed.

Lemma ReadFile_WriteFile w path d : ReadFile (WriteFile w path d) path = Ok d.
Proof. unfold ReadFile, WriteFile. cbn. by rewrite lookup_insert_eq. Qed.

(** C10.  The stored CRC bytes of a PNG file have no influence: two files
    that frame the same chunks and differ only in the four CRC bytes of
    their chunks decode to the same chunk list, so that view, edit and
    strip give the same fields, the same status, the same printed text and
    the same written bytes on both; and every chunk of a written file
    carries the CRC computed afresh from its type and payload. *)
Theorem crc_bytes_have_no_influence
    (X : Ext) (ord : Sched) (w : World) (path out : string)
    (eopts : EditOptions) (sopts : StripOptions)
    (chunks : list pngChunk) (crcs1 crcs2 : list (list Z)) (rest : bytes) :
  Forall wfChunk chunks →
  length crcs1 = length chunks → length crcs2 = length chunks →
  Forall (λ crc, length crc = 4%nat) crcs1 →
  Forall (λ crc, length crc = 4%nat) crcs2 →
  let w1 := WriteFile w path (pngStream (zip chunks crcs1) rest) in
  let w2 := WriteFile w path (pngStream (zip chunks crcs2) rest) in
  readPNGChunks (pngStream (zip chunks crcs1) rest)
    = readPNGChunks (pngStream (zip chunks crcs2) rest)
  ∧ viewPNG X w1 path = viewPNG X w2 path
  ∧ (∃ (final : list pngChunk) (text : bytes),
       let effect (v : World) :=
         if DryRun eopts then Printf v text
         else WriteFile v out (pngStream (zip final (freshCRC <$> final)) []) in
       editPNG ord w1 path out eopts = (effect w1, Success)
       ∧ editPNG ord w2 path out eopts = (effect w2, Success))
  ∧ (∃ final : list pngChunk,
       let effect (v : World) :=
         WriteFile v out (pngStream (zip final (freshCRC <$> final)) []) in
       stripPNG X w1 path out sopts = (effect w1, Success)
       ∧ stripPNG X w2 path out sopts = (effect w2, Success)).
Proof.
  intros Hwf H1 H2 F1 F2 w1 w2.
  pose proof (readPNGChunks_crc chunks crcs1 crcs2 rest Hwf H1 H2 F1 F2) as Hread.
  pose proof (readPNGChunks_stream (zip chunks crcs2) rest) as Hok.
  set (decoded := readChunkLoop _ _) in Hok. clearbody decoded.
  split; [exact Hread|].
  unfold viewPNG, editPNG, stripPNG, w1, w2.
  rewrite !ReadFile_WriteFile, Hread, Hok.
  split; [reflexivity|]. split.
  - exists (editPNGChunks ord eopts decoded).
    exists ((str "Dry-run: PNG tEXt chunks would be updated:" ++ [10])
            ++ previewLines (str "  ") (str " = ") [10] (rangeMap ord 1 (Set_ eopts))).
    cbn zeta. unfold writePNGChunks. rewrite <- pngFile_stream.
    destruct (DryRun eopts); rewrite ?Printf_Printf; split; reflexivity.
  - exists (stripPNGChunks X sopts decoded). cbn zeta.
    unfold writePNGChunks. rewrite <- pngFile_stream. split; reflexivity.
Qed.

Lemma crc_bytes_have_no_influence_witness :
  let chunks := [mkChunk (str "IDAT") [1; 2]; mkChunk (str "IEND") []] in
  let w := mkWorld ∅ [] in
  let eopts := mkEdit {[ str "Title" := str "T" ]} [] false in
  let sopts := mkStrip [] false true false in
  readPNGChunks (pngStream (zip chunks [[0; 0; 0; 0]; [1; 1; 1; 1]]) [])
    = readPNGChunks (pngStream (zip chunks [[9; 9; 9; 9]; [7; 7; 7; 7]]) [])
  ∧ editPNG inOrder (WriteFile w "a.png" (pngStream (zip chunks [[0; 0; 0; 0]; [1; 1; 1; 1]]) []))
      "a.png" "b.png" eopts
    = (WriteFile (WriteFile w "a.png" (pngStream (zip chunks [[0; 0; 0; 0]; [1; 1; 1; 1]]) []))
         "b.png"
         (pngFile [mkChunk (str "tEXt") (str "Title" ++ [0] ++ str "T");
                   mkChunk (str "IDAT") [1; 2]; mkChunk (str "IEND") []]),
       Success).
Proof.
  intros chunks w eopts sopts.
  assert (Hwf : Forall wfChunk chunks) by (repeat constructor).
  destruct (crc_bytes_have_no_influence asciiExt inOrder w "a.png" "b.png" eopts sopts
              chunks [[0; 0; 0; 0]; [1; 1; 1; 1]] [[9; 9; 9; 9]; [7; 7; 7; 7]] []
              Hwf eq_refl eq_refl
              ltac:(repeat constructor) ltac:(repeat constructor))
    as (Hread & _ & _ & _).
  split; [exact Hread|]. vm_compute. reflexivity.
Defined.

(** *** Reading back what the writer wrote *)

Lemma readChunkLoop_nil fuel : readChunkLoop fuel [] = [].
Proof. by destruct fuel. Qed.

Lemma readChunkLoop_written fuel chunks :
  Forall wfChunk chunks → iendLast chunks → (length chunks ≤ fuel)%nat →
  readChunkLoop fuel (concat (map (λ c, writePNGChunk (typ c) (data c)) chunks)) = chunks.
Proof.
  intros Hwf. revert fuel.
  induction Hwf as [|c chunks Hc Hwf IH]; intros fuel Hend Hfuel.
  - apply readChunkLoop_nil.
  - destruct fuel as [|fuel]; [cbn in Hfuel; lia|].
    destruct Hend as [Hlast Hend]. cbn [map concat].
    change (writePNGChunk (typ c) (data c)) with (frame c (freshCRC c)).
    rewrite readChunkLoop_frame by done.
    unfold beq. case_bool_decide as Ht.
    + by rewrite (Hlast Ht).
    + f_equal. apply IH; [done|]. cbn in Hfuel. lia.
Qed.

Lemma written_length chunks :
  (length chunks ≤ length (concat (map (λ c, writePNGChunk (typ c) (data c)) chunks)))%nat.
Proof.
  induction chunks as [|c chunks IH]; [done|].
  cbn [map concat]. unfold writePNGChunk at 1. rewrite !length_app.
  rewrite bePutUint32_length. cbn [length]. lia.
Qed.

Lemma readPNGChunks_pngFile chunks :
  Forall wfChunk chunks → iendLast chunks → readPNGChunks (pngFile chunks) = Ok chunks.
Proof.
  intros Hwf Hend. rewrite pngFile_stream, readPNGChunks_stream.
  rewrite <- pngFile_stream. unfold pngFile at 1. rewrite app_nil_r.
  replace (map (λ it, frame it.1 it.2) (zip chunks (freshCRC <$> chunks)))
    with (map (λ c, writePNGChunk (typ c) (data c)) chunks).
  2:{ clear. induction chunks as [|c chunks IH]; [done|].
      cbn [fmap list_fmap zip zip_with map fst snd]. by rewrite IH. }
  rewrite readChunkLoop_written; [done..|].
  rewrite length_app. pose proof (written_length chunks). lia.
Qed.

Lemma iendLast_types l1 l2 : typ <$> l1 = typ <$> l2 → iendLast l1 → iendLast l2.
Proof.
  revert l2. induction l1 as [|c l1 IH]; intros [|c2 l2] Heq; try done.
  cbn in Heq. injection Heq as Ht Hrest. intros [Hlast Hend]. split.
  - intros Hc2. rewrite <- Ht in Hc2. rewrite (Hlast Hc2) in Hrest.
    by destruct l2.
  - by apply IH.
Qed.

(** *** The edit of a chunk list, loop by loop *)

Lemma updateChunks_spec opts delSet chunks setDone :
  updateChunks opts delSet chunks setDone
  = (chunks ≫= updateChunk opts delSet,
     list_to_set (omap (doneKey opts delSet) chunks) ∪ setDone).
Proof.
  revert setDone. induction chunks as [|c chunks IH]; intros setDone.
  - cbn. f_equal. set_solver.
  - rewrite bind_cons. cbn [updateChunks omap list_omap].
    unfold updateChunk, doneKey, keywordOf.
    destruct (beq (typ c) (str "tEXt") && (0 <? IndexByte (data c) 0)).
    + destruct (bool_decide (_ ∈ delSet)).
      * by rewrite IH.
      * destruct (Set_ opts !! _); rewrite IH; cbn; f_equal; set_solver.
    + rewrite IH. by cbn.
Qed.

Lemma rangeMap_singleton ord site k v : rangeMap ord site {[k := v]} = [(k, v)].
Proof.
  unfold rangeMap. rewrite map_to_list_singleton.
  apply Permutation_singleton_r, pick_perm.
Qed.

Lemma rangeMap_empty ord site : rangeMap ord site ∅ = [].
Proof.
  unfold rangeMap. rewrite map_to_list_empty.
  apply Permutation_nil_r, pick_perm.
Qed.

Lemma insertBeforeIDAT_nil l b : (insertBeforeIDAT l [] b).1 = l.
Proof.
  revert b. induction l as [|c l IH]; intros b; [done|].
  cbn [insertBeforeIDAT]. destruct (negb b && beq (typ c) (str "IDAT")); cbn;
    by rewrite IH.
Qed.

Lemma editPNGChunks_no_add ord opts chunks :
  addChunks (rangeMap ord 0 (Set_ opts))
    (list_to_set (omap (doneKey opts (list_to_set (Delete opts))) chunks) ∪ ∅) = [] →
  editPNGChunks ord opts chunks = chunks ≫= updateChunk opts (list_to_set (Delete opts)).
Proof.
  intros Hadd. unfold editPNGChunks. rewrite updateChunks_spec, Hadd.
  pose proof (insertBeforeIDAT_nil (chunks ≫= updateChunk opts (list_to_set (Delete opts))) false) as Hins.
  destruct (insertBeforeIDAT _ [] false) as [final inserted]. cbn in Hins. subst final.
  destruct inserted; [done|]. by rewrite app_nil_r.
Qed.















(** ** MP4: what the ilst patch leaves as it was *)

Lemma HasPrefix_length s sep : HasPrefix s sep = true → (length sep ≤ length s)%nat.
Proof.
  unfold HasPrefix, beq. intros H%bool_decide_eq_true.
  rewrite <- H at 1. rewrite length_take. lia.
Qed.

Lemma Index_bound s sep : 0 ≤ Index s sep → Index s sep + len sep ≤ len s.
Proof.
  induction s as [|x s IH].
  - cbn [Index]. destruct (HasPrefix [] sep) eqn:Hp; [|lia].
    apply HasPrefix_length in Hp. unfold len. lia.
  - cbn [Index]. destruct (HasPrefix (x :: s) sep) eqn:Hp.
    + apply HasPrefix_length in Hp. unfold len. lia.
    + destruct (Index s sep <? 0) eqn:Hneg; [lia|].
      apply Z.ltb_ge in Hneg. specialize (IH Hneg).
      rewrite len_cons. lia.
Qed.

(** Whatever the edit, the bytes in front of the [ilst] header, where the
    length fields of all its ancestors lie, are copied as they are. *)
Lemma patchMP4Ilst_keeps_prefix d entries delKeys out :
  4 < Index d (str "ilst") →
  patchMP4Ilst d entries delKeys = Ok out →
  sliceTo out (Index d (str "ilst") - 4) = sliceTo d (Index d (str "ilst") - 4).
Proof.
  intros Hidx. unfold patchMP4Ilst, fixMP4Sizes.
  pose proof (Index_bound d (str "ilst") ltac:(lia)) as Hb.
  change (len (str "ilst")) with 4 in Hb. unfold len in Hb.
  set (idx := Index d (str "ilst")) in *. clearbody idx.
  rewrite (proj2 (Z.ltb_lt _ _) Hidx).
  destruct (len d <? _) eqn:Hcrash; [done|]. intros [= <-].
  unfold sliceTo. rewrite take_app_le by (rewrite length_take; lia).
  rewrite take_take. f_equal. lia.
Qed.

(** The new [ilst] holds the requested entries and nothing else: its
    content does not depend on the content it replaces. *)
Lemma patchMP4Ilst_replaces d entries delKeys out :
  4 < Index d (str "ilst") →
  patchMP4Ilst d entries delKeys = Ok out →
  out = sliceTo d (Index d (str "ilst") - 4)
        ++ packAtom (str "ilst") (ilstContent entries)
        ++ sliceFrom d (Index d (str "ilst") - 4 + atomSize d (str "ilst")).
Proof.
  intros Hidx. unfold patchMP4Ilst, fixMP4Sizes.
  rewrite (proj2 (Z.ltb_lt _ _) Hidx).
  destruct (len d <? _) eqn:Hcrash; [done|]. by intros [= <-].
Qed.

(** C1.  The title of a file whose [ilst] holds ©nam=Old is set to Newer.
    The file grows by two bytes and the [ilst] length field grows by two,
    but the length fields of [meta], [udta] and [moov] keep their old
    values, so that the atom the decoder finds where [moov] is declared to
    end is no longer [mdat]. *)
Theorem edit_title_leaves_ancestor_sizes :
  let d := sampleMP4 [(169 :: str "nam", str "Old")] in
  let w := mkWorld {[ "in.mp4"%string := d ]} [] in
  let opts := mkEdit {[ str "title" := str "Newer" ]} [] false in
  ∃ out,
    editMP4 asciiExt inOrder w "in.mp4" "out.mp4" opts = (WriteFile w "out.mp4" out, Success)
    ∧ len out = len d + 2
    ∧ atomSize out (str "ilst") = atomSize d (str "ilst") + 2
    ∧ atomSize out (str "meta") = atomSize d (str "meta")
    ∧ atomSize out (str "udta") = atomSize d (str "udta")
    ∧ atomSize out (str "moov") = atomSize d (str "moov")
    ∧ atomAfter d (str "moov") = str "mdat"
    ∧ atomAfter out (str "moov") ≠ str "mdat".
Proof.
  intros d w opts.
  exists (sliceTo d 160
          ++ packAtom (str "ilst") (ilstContent [(169 :: str "nam", str "Newer")])
          ++ sliceFrom d 195).
  split; [vm_compute; reflexivity|].
  repeat (split; [vm_compute; reflexivity|]).
  vm_compute. discriminate.
Qed.

(** C2.  A file whose [ilst] holds ©nam=Old and ©ART=Me is edited with
    set {album: X}, which names neither field.  The [ilst] written holds
    the ©alb atom only: both fields of the input are gone. *)
Theorem edit_album_drops_other_fields :
  let d := sampleMP4 [(169 :: str "nam", str "Old"); (169 :: str "ART", str "Me")] in
  let w := mkWorld {[ "in.mp4"%string := d ]} [] in
  let opts := mkEdit {[ str "album" := str "X" ]} [] false in
  ∃ out,
    editMP4 asciiExt inOrder w "in.mp4" "out.mp4" opts = (WriteFile w "out.mp4" out, Success)
    ∧ out = sliceTo d 160
            ++ packAtom (str "ilst") (ilstContent [(169 :: str "alb", str "X")])
            ++ sliceFrom d (160 + atomSize d (str "ilst"))
    ∧ 0 ≤ Index d (169 :: str "nam") ∧ Index out (169 :: str "nam") = -1
    ∧ 0 ≤ Index d (169 :: str "ART") ∧ Index out (169 :: str "ART") = -1.
Proof.
  intros d w opts. eexists. split; [vm_compute; reflexivity|].
  split; [vm_compute; reflexivity|].
  split; [vm_compute; discriminate|].
  split; [vm_compute; reflexivity|].
  split; [vm_compute; discriminate|].
  vm_compute; reflexivity.
Qed.

(** ** FLAC: a file without metadata blocks *)

Lemma editFLACBlocks_nil X ord opts :
  editFLACBlocks X ord opts [] = Crash "index out of range [0] with length 0".
Proof. reflexivity. Qed.

(** C9.  The file is the four magic bytes and nothing else, the request
    sets TITLE=X.  No block is parsed, none has type 4, and the insertion
    path reads [blocks[0]] of the empty list: the edit panics. *)
Theorem edit_flac_magic_only_panics :
  let w := mkWorld {[ "in.flac"%string := str "fLaC" ]} [] in
  let opts := mkEdit {[ str "TITLE" := str "X" ]} [] false in
  parseFLACBlocks (str "fLaC") = Ok ([], 4)
  ∧ editFLAC asciiExt inOrder w "in.flac" "out.flac" opts
    = (w, Panic "index out of range [0] with length 0").
Proof. split; vm_compute; reflexivity. Qed.

(** ** WAV: the padding byte of an odd-sized chunk *)

(** C7.  The [data] chunk of the file has three payload bytes and one
    padding byte.  The strip removes the [LIST] chunk and copies the
    others, but the [data] chunk without its padding byte: the chunk as
    the input has it does not occur in the output, the [cue ] chunk starts
    at an odd offset, and stripping the output once more loses it. *)
Theorem strip_wav_drops_padding :
  let out := stripWAVBytes sampleWAV in
  let w := mkWorld {[ "in.wav"%string := sampleWAV ]} [] in
  stripWAV w "in.wav" "out.wav" (mkStrip [] false true false)
    = (WriteFile w "out.wav" out, Success)
  ∧ out = str "RIFF" ++ lePutUint32 51 ++ str "WAVE"
          ++ riffChunk (str "fmt ") [1; 0; 1; 0; 68; 172; 0; 0; 68; 172; 0; 0; 1; 0; 8; 0]
          ++ (str "data" ++ [3; 0; 0; 0] ++ [128; 129; 130])
          ++ riffChunk (str "cue ") [0; 0; 0; 0]
  ∧ 0 ≤ Index sampleWAV (riffChunk (str "data") [128; 129; 130])
  ∧ Index out (riffChunk (str "data") [128; 129; 130]) = -1
  ∧ Index (stripWAVBytes out) (str "cue ") = -1.
Proof.
  intros out w.
  split; [vm_compute; reflexivity|].
  split; [vm_compute; reflexivity|].
  split; [vm_compute; discriminate|].
  split; vm_compute; reflexivity.
Qed.

(** The other two strip paths of the claim copy what they keep: the PNG
    strip keeps every chunk outside [pngMetaChunks], in order, and the MP4
    strip returns the input with one byte range cut out. *)
Lemma stripPNGChunks_keeps_data X opts chunks :
  filter (λ c, pngMetaChunks (typ c) = false) (stripPNGChunks X opts chunks)
  = filter (λ c, pngMetaChunks (typ c) = false) chunks.
Proof.
  unfold stripPNGChunks. induction chunks as [|c chunks IH]; [done|].
  destruct (decide (pngMetaChunks (typ c) = false)) as [Hc|Hc].
  - rewrite (filter_cons_True _ c) by (by left).
    by rewrite !(filter_cons_True _ c), IH by done.
  - rewrite (filter_cons_False (λ c, pngMetaChunks (typ c) = false) c) by done.
    match goal with |- context [filter ?P (c :: chunks)] =>
      destruct (decide (P c)) as [Hk|Hk];
        [rewrite (filter_cons_True P c _ Hk), filter_cons_False by done
        |rewrite (filter_cons_False P c _ Hk)]
    end; exact IH.
Qed.

Lemma removeMP4Atom_cut d atomType :
  removeMP4Atom d atomType = d
  ∨ removeMP4Atom d atomType
    = sliceTo d (Index d atomType - 4)
      ++ sliceFrom d (Index d atomType - 4 + atomSize d atomType).
Proof.
  unfold removeMP4Atom, atomSize. destruct (_ <? 4); [by left|].
  destruct (len d <? _); [by left|by right].
Qed.

(** ** JPEG view on a buffer that is not a JPEG *)

(** The view never reports an error for a file it could open. *)
Lemma viewJPEG_no_error X w path d :
  files w !! path = Some d → (viewJPEG X w path).2 = Success.
Proof. intros Hd. unfold viewJPEG, ReadFile. by rewrite Hd. Qed.


(** ** Dry runs *)

Lemma dryRunOutcome_failed ord set w st :
  st ≠ Success → dryRunOutcome ord set w (w, st).
Proof. intros Hst. by repeat split. Qed.

Lemma dryRunOutcome_printed ord set w heading pre sep suf site :
  HasPrefix heading (str "Dry-run:") = true →
  dryRunOutcome ord set w
    (Printf (Printf w heading) (previewLines pre sep suf (rangeMap ord site set)), Success).
Proof.
  intros Hh. repeat split; [|done].
  intros _. exists heading, pre, sep, suf, site. split; [|done].
  cbn. by rewrite app_assoc.
Qed.

Ltac dry_run :=
  repeat case_match; simplify_eq/=;
  first [ by apply dryRunOutcome_failed
        | by apply dryRunOutcome_printed ].

Lemma editPNG_dry ord w path out set del :
  dryRunOutcome ord set w (editPNG ord w path out (mkEdit set del true)).
Proof. unfold editPNG. cbn [DryRun Set_]. dry_run. Qed.

Lemma editJPEG_dry X ord w path out set del :
  dryRunOutcome ord set w (editJPEG X ord w path out (mkEdit set del true)).
Proof. unfold editJPEG. cbn [DryRun Set_ Delete]. dry_run. Qed.

Lemma editFLAC_dry X ord w path out set del :
  dryRunOutcome ord set w (editFLAC X ord w path out (mkEdit set del true)).
Proof. unfold editFLAC. cbn [DryRun Set_]. dry_run. Qed.

Lemma editMP3_dry X ord w path out set del :
  dryRunOutcome ord set w (editMP3 X ord w path out (mkEdit set del true)).
Proof. unfold editMP3. cbn [DryRun Set_]. dry_run. Qed.

Lemma editMP4_dry X ord w path out set del :
  dryRunOutcome ord set w (editMP4 X ord w path out (mkEdit set del true)).
Proof. unfold editMP4. cbn [DryRun Set_]. dry_run. Qed.

Lemma editPDF_dry X ord w path out set del :
  dryRunOutcome ord set w (editPDF X ord w path out (mkEdit set del true)).
Proof. unfold editPDF. cbn [DryRun Set_]. dry_run. Qed.

Lemma editOPC_dry X ord w path out set del :
  dryRunOutcome ord set w (editOPC X ord w path out (mkEdit set del true)).
Proof. unfold editOPC. cbn [DryRun Set_]. dry_run. Qed.

(** C8.  Every edit with [DryRun] set, whatever the format, the files and
    the request: no file is written or changed (the input included); when
    the edit succeeds it has printed the would-be change, a "Dry-run:"
    heading and a line per field to set; when it fails nothing changed. *)
Theorem dry_run_writes_nothing
    (X : Ext) (ord : Sched) (f : FormatID) (w : World) (path outPath : string)
    (set : gmap (list Z) (list Z)) (del : list (list Z)) :
  dryRunOutcome ord set w (Edit X ord f w path outPath (mkEdit set del true)).
Proof.
  unfold Edit.
  destruct f;
    first [ apply editPNG_dry | apply editJPEG_dry | apply editFLAC_dry
          | apply editMP3_dry | apply editMP4_dry | apply editPDF_dry
          | apply editOPC_dry | by apply dryRunOutcome_failed ].
Qed.

(** ** Files of another format *)







(** ** The FLAC block header *)

Lemma land_shiftl_small a b k :
  0 ≤ k → 0 ≤ b < 2 ^ k → Z.land (Z.shiftl a k) b = 0.
Proof.
  intros Hk Hb. apply Z.bits_inj'. intros n Hn.
  rewrite Z.land_spec, Z.bits_0.
  destruct (Z.lt_ge_cases n k) as [Hlt|Hge].
  - by rewrite Z.shiftl_spec_low.
  - rewrite <- (Z.mod_small b (2 ^ k)) by done.
    rewrite Z.mod_pow2_bits_high by lia. apply andb_false_r.
Qed.

Lemma lor_shiftl_small a b k :
  0 ≤ k → 0 ≤ b < 2 ^ k → Z.lor (Z.shiftl a k) b = Z.shiftl a k + b.
Proof.
  intros Hk Hb. pose proof (land_shiftl_small a b k Hk Hb) as Hland.
  rewrite <- Z.lxor_lor by done. symmetry. by apply Z.add_nocarry_lxor.
Qed.

Lemma flacHeader_value isLast b :
  wfBlock b →
  flacHeader isLast b
  = (if isLast then 2147483648 else 0) + blockType b * 16777216 + len (blockData b).
Proof.
  intros [Ht Hd]. pose proof (len_nonneg (blockData b)) as Hn. unfold flacHeader.
  rewrite (Z.mod_small (len _)) by lia.
  rewrite Z.shiftl_mul_pow2 by lia. change (2 ^ 24) with 16777216.
  rewrite (Z.mod_small (_ * _)) by lia.
  assert (Hlow : Z.lor (blockType b * 16777216) (len (blockData b))
                 = blockType b * 16777216 + len (blockData b)).
  { change 16777216 with (2 ^ 24) at 1 2. rewrite <- Z.shiftl_mul_pow2 by lia.
    apply lor_shiftl_small; lia. }
  rewrite Hlow. destruct isLast; [|lia].
  rewrite Z.lor_comm. change (Z.shiftl 1 31) with (Z.shiftl 1 31).
  rewrite lor_shiftl_small by (change (2 ^ 31) with 2147483648; lia).
  change (Z.shiftl 1 31) with 2147483648. lia.
Qed.

Lemma flacHeader_decode isLast b :
  wfBlock b →
  0 ≤ flacHeader isLast b < 4294967296
  ∧ bool_decide (Z.shiftr (flacHeader isLast b) 31 = 1) = isLast
  ∧ Z.land (Z.shiftr (flacHeader isLast b) 24) 127 = blockType b
  ∧ Z.land (flacHeader isLast b) 16777215 = len (blockData b).
Proof.
  intros Hwf. rewrite (flacHeader_value isLast b Hwf). destruct Hwf as [Ht Hd].
  pose proof (len_nonneg (blockData b)) as Hn.
  set (t := blockType b) in *. set (n := len (blockData b)) in *.
  rewrite !Z.shiftr_div_pow2 by lia.
  change 127 with (Z.ones 7). change 16777215 with (Z.ones 24).
  rewrite !Z.land_ones by lia.
  change (2 ^ 31) with 2147483648. change (2 ^ 24) with 16777216. change (2 ^ 7) with 128.
  split; [destruct isLast; lia|]. split; [|split].
  - destruct isLast.
    + apply bool_decide_eq_true_2. Z.div_mod_to_equations. lia.
    + apply bool_decide_eq_false_2. Z.div_mod_to_equations. lia.
  - destruct isLast; Z.div_mod_to_equations; lia.
  - destruct isLast; Z.div_mod_to_equations; lia.
Qed.

(** ** Reading back the blocks the writer wrote *)

Lemma slice_middle {A} (pre x post : list A) :
  slice (pre ++ x ++ post) (len pre) (len pre + len x) = x.
Proof.
  unfold slice. rewrite drop_len_app.
  replace (len pre + len x - len pre) with (len x) by lia.
  apply take_len_app.
Qed.

Lemma parseBlocksLoop_written blocks :
  ∀ fuel pre acc audio,
    blocks ≠ [] → Forall wfBlock blocks → (length blocks ≤ fuel)%nat →
    parseBlocksLoop fuel (pre ++ flacBlocksBytes blocks ++ audio) (len pre) acc
    = Ok (acc ++ blocks, len pre + len (flacBlocksBytes blocks)).
Proof.
  induction blocks as [|b rest IH]; intros fuel pre acc audio Hne Hwf Hfuel; [done|].
  destruct fuel as [|fuel]; [cbn in Hfuel; lia|].
  apply Forall_cons in Hwf as [Hb Hrest].
  destruct (flacHeader_decode (bool_decide (rest = [])) b Hb) as (Hrange & Hlast & Htype & Hlen).
  cbn [flacBlocksBytes parseBlocksLoop]. cbv zeta. rewrite <- !app_assoc.
  set (hdr := bePutUint32 (flacHeader (bool_decide (rest = [])) b)).
  set (tail := flacBlocksBytes rest ++ audio).
  assert (Hh : len hdr = 4) by reflexivity.
  pose proof (len_nonneg (blockData b)) as Hn1. pose proof (len_nonneg tail) as Hn2.
  replace (len (pre ++ hdr ++ blockData b ++ tail) <? len pre + 4) with false
    by (symmetry; apply Z.ltb_ge; rewrite !len_app; lia).
  replace (len pre + 4) with (len pre + len hdr) by lia.
  rewrite slice_middle.
  assert (Hbe : beUint32 hdr = flacHeader (bool_decide (rest = [])) b)
    by (by apply beUint32_bePutUint32).
  rewrite !Hbe, Hlast, Htype, !Hlen.
  replace (len (pre ++ hdr ++ blockData b ++ tail) <? len pre + len hdr + len (blockData b))
    with false by (symmetry; apply Z.ltb_ge; rewrite !len_app; lia).
  replace (slice (pre ++ hdr ++ blockData b ++ tail) (len pre + len hdr)
             (len pre + len hdr + len (blockData b))) with (blockData b).
  2:{ rewrite <- len_app. rewrite (app_assoc pre hdr). by rewrite slice_middle. }
  replace (mkBlock (blockType b) (blockData b)) with b by (by destruct b).
  case_bool_decide as Hr.
  - subst rest. cbn [flacBlocksBytes]. rewrite ?app_nil_r, !len_app. f_equal. f_equal. lia.
  - specialize (IH fuel (pre ++ hdr ++ blockData b) (acc ++ [b]) audio Hr Hrest
                  ltac:(cbn in Hfuel; lia)).
    rewrite <- ?app_assoc in IH. fold tail in IH.
    replace (len pre + len hdr + len (blockData b)) with (len (pre ++ hdr ++ blockData b))
      by (rewrite !len_app; lia).
    rewrite IH. rewrite <- ?app_assoc. cbn [app]. f_equal. f_equal. rewrite !len_app. lia.
Qed.

Lemma flacBlocksBytes_length blocks :
  (length blocks ≤ length (flacBlocksBytes blocks))%nat.
Proof.
  induction blocks as [|b rest IH]; [done|].
  cbn [flacBlocksBytes]. rewrite !length_app, bePutUint32_length. cbn [length]. lia.
Qed.

Lemma parseFLACBlocks_flacFile blocks audio :
  blocks ≠ [] → Forall wfBlock blocks →
  parseFLACBlocks (flacFile blocks audio) = Ok (blocks, 4 + len (flacBlocksBytes blocks)).
Proof.
  intros Hne Hwf. unfold parseFLACBlocks, flacFile.
  change 4 with (len (str "fLaC")).
  rewrite parseBlocksLoop_written; [done..|].
  rewrite !length_app. pose proof (flacBlocksBytes_length blocks). lia.
Qed.

Lemma flacFile_audio blocks audio :
  sliceFrom (flacFile blocks audio) (4 + len (flacBlocksBytes blocks)) = audio.
Proof.
  unfold sliceFrom, flacFile. rewrite app_assoc.
  replace (4 + len (flacBlocksBytes blocks)) with (len (str "fLaC" ++ flacBlocksBytes blocks))
    by (rewrite len_app; reflexivity).
  apply drop_len_app.
Qed.




Lemma flacFile_magic blocks audio :
  (len (flacFile blocks audio) <? 4) || negb (beq (slice (flacFile blocks audio) 0 4) (str "fLaC"))
  = false.
Proof.
  unfold flacFile. change (slice ?d 0 4) with (take 4 d).
  rewrite (take_app_length' (str "fLaC")) by reflexivity.
  rewrite len_app. pose proof (len_nonneg (flacBlocksBytes blocks ++ audio)).
  change (len (str "fLaC")) with 4.
  replace (4 + _ <? 4) with false by (symmetry; apply Z.ltb_ge; lia).
  reflexivity.
Qed.

Lemma flacFile_len blocks audio :
  len (flacFile blocks audio) - len audio = 4 + len (flacBlocksBytes blocks).
Proof. unfold flacFile. rewrite !len_app. change (len (str "fLaC")) with 4. lia. Qed.



(** ** Setting a PNG text field twice, deleting an absent one *)

Lemma IndexByte_app k c v :
  c ∉ k → IndexByte (k ++ c :: v) c = len k.
Proof.
  induction k as [|x k IH]; intros Hc.
  - cbn. by rewrite bool_decide_eq_true_2.
  - cbn [app IndexByte]. rewrite bool_decide_eq_false_2 by set_solver.
    rewrite IH by set_solver. pose proof (len_nonneg k).
    replace (len k <? 0) with false by (symmetry; apply Z.ltb_ge; lia).
    rewrite len_cons. lia.
Qed.

Lemma keywordOf_textChunk K V : K ≠ [] → 0 ∉ K → keywordOf (textChunk K V) = Some K.
Proof.
  intros Hne H0. unfold keywordOf, textChunk. cbn [typ data app].
  rewrite IndexByte_app by done.
  assert (0 < len K) by (destruct K; [done|rewrite len_cons; pose proof (len_nonneg K); lia]).
  unfold beq. rewrite bool_decide_eq_true_2 by done.
  rewrite (proj2 (Z.ltb_lt _ _)) by done. cbn [andb].
  unfold sliceTo. by rewrite take_len_app.
Qed.

Lemma keywordOf_tEXt c key : keywordOf c = Some key → typ c = str "tEXt".
Proof.
  unfold keywordOf, beq. case_bool_decide; [done|]. by cbn.
Qed.

Lemma updateChunk_setText (K V : bytes) (dry : bool) (c : pngChunk) :
  updateChunk (mkEdit {[ K := V ]} [] dry)
    (list_to_set (Delete (mkEdit {[ K := V ]} [] dry))) c = [setText K V c].
Proof.
  unfold updateChunk, setText. cbn [Delete Set_ list_to_set foldr].
  destruct (keywordOf c) as [key|] eqn:Hkey.
  - rewrite bool_decide_eq_false_2 by set_solver.
    rewrite lookup_singleton. case_decide as Hk.
    + subst key. rewrite bool_decide_eq_true_2 by done.
      by rewrite (keywordOf_tEXt c K Hkey).
    + rewrite bool_decide_eq_false_2; [done|]. congruence.
  - by rewrite bool_decide_eq_false_2.
Qed.

Lemma doneKey_setText (K V : bytes) (dry : bool) (c : pngChunk) :
  doneKey (mkEdit {[ K := V ]} [] dry)
    (list_to_set (Delete (mkEdit {[ K := V ]} [] dry))) c
  = if bool_decide (keywordOf c = Some K) then Some K else None.
Proof.
  unfold doneKey. cbn [Delete Set_ list_to_set foldr].
  destruct (keywordOf c) as [key|] eqn:Hkey.
  - rewrite bool_decide_eq_false_2 by set_solver.
    rewrite lookup_singleton. case_decide as Hk.
    + subst key. by rewrite bool_decide_eq_true_2.
    + rewrite bool_decide_eq_false_2; [done|]. congruence.
  - by rewrite bool_decide_eq_false_2.
Qed.

Lemma bind_updateChunk_setText (K V : bytes) (dry : bool) (chunks : list pngChunk) :
  chunks ≫= updateChunk (mkEdit {[ K := V ]} [] dry)
               (list_to_set (Delete (mkEdit {[ K := V ]} [] dry)))
  = setText K V <$> chunks.
Proof.
  induction chunks as [|c chunks IH]; [done|].
  rewrite bind_cons, updateChunk_setText, IH. done.
Qed.

Lemma setDone_setText (K V : bytes) (dry : bool) (chunks : list pngChunk) :
  K ∈ (list_to_set (omap (doneKey (mkEdit {[ K := V ]} [] dry)
                            (list_to_set (Delete (mkEdit {[ K := V ]} [] dry)))) chunks) ∪ ∅
       : gset (list Z))
  ↔ Exists (λ c, keywordOf c = Some K) chunks.
Proof.
  induction chunks as [|c chunks IH].
  - cbn. rewrite Exists_nil. set_solver.
  - cbn [omap list_omap]. rewrite doneKey_setText, Exists_cons.
    case_bool_decide as Hc.
    + cbn [list_to_set]. set_solver.
    + rewrite IH. tauto.
Qed.

(** The chunks the second loop adds. *)
Lemma addChunks_setText (ord : Sched) (K V : bytes) (dry : bool) (chunks : list pngChunk) :
  addChunks (rangeMap ord 0 (Set_ (mkEdit {[ K := V ]} [] dry)))
    (list_to_set (omap (doneKey (mkEdit {[ K := V ]} [] dry)
                          (list_to_set (Delete (mkEdit {[ K := V ]} [] dry)))) chunks) ∪ ∅)
  = if bool_decide (Exists (λ c, keywordOf c = Some K) chunks) then []
    else [textChunk K V].
Proof.
  cbn [Set_]. rewrite rangeMap_singleton.
  unfold addChunks. cbn [omap list_omap fst snd].
  pose proof (setDone_setText K V dry chunks) as Hiff.
  do 2 case_bool_decide; try done; tauto.
Qed.

Lemma insertBeforeIDAT_done l add : insertBeforeIDAT l add true = (l, true).
Proof.
  induction l as [|c l IH]; [done|]. cbn [insertBeforeIDAT negb andb]. by rewrite IH.
Qed.

Lemma insertBeforeIDAT_split l add :
  Exists (λ c, typ c = str "IDAT") l →
  ∃ l1 c l2, l = l1 ++ c :: l2 ∧ typ c = str "IDAT"
             ∧ insertBeforeIDAT l add false = (l1 ++ add ++ c :: l2, true).
Proof.
  induction l as [|c l IH]; intros Hex; [by apply Exists_nil in Hex|].
  cbn [insertBeforeIDAT negb andb]. unfold beq. case_bool_decide as Hc.
  - exists [], c, l. rewrite insertBeforeIDAT_done. by rewrite app_nil_l.
  - apply Exists_cons in Hex as [Hex|Hex]; [done|].
    destruct (IH Hex) as (l1 & c' & l2 & -> & Hc' & Heq).
    exists (c :: l1), c', l2. by rewrite Heq.
Qed.

Lemma iendLast_app_inv l1 l2 : iendLast (l1 ++ l2) → iendLast l1 ∧ iendLast l2.
Proof.
  induction l1 as [|c l1 IH]; [done|]. cbn. intros [Hlast Hrest].
  destruct (IH Hrest) as [H1 H2]. repeat split; try done.
  intros Hc. specialize (Hlast Hc). by destruct l1.
Qed.

Lemma iendLast_insert l1 add c l2 :
  iendLast (l1 ++ c :: l2) → Forall (λ a, typ a ≠ str "IEND") add →
  iendLast (l1 ++ add ++ c :: l2).
Proof.
  intros Hend Hadd. induction l1 as [|x l1 IH].
  - cbn. induction Hadd as [|a add Ha Hadd IHadd]; [done|]. by split.
  - cbn in *. destruct Hend as [Hlast Hrest]. split; [|by apply IH].
    intros Hx. specialize (Hlast Hx). by destruct l1.
Qed.

Lemma filter_none {A} (P : A → Prop) `{!∀ x, Decision (P x)} (l : list A) :
  Forall (λ x, ¬ P x) l → filter P l = [].
Proof.
  induction 1 as [|x l Hx Hl IH]; [done|]. by rewrite filter_cons_False.
Qed.

Lemma typ_setText K V c : typ (setText K V c) = typ c.
Proof.
  unfold setText. case_bool_decide as Hc; [|done].
  by rewrite (keywordOf_tEXt c K Hc).
Qed.

Lemma keywordOf_setText K V c :
  K ≠ [] → 0 ∉ K →
  keywordOf (setText K V c) = Some K ↔ keywordOf c = Some K.
Proof.
  intros Hne H0. unfold setText. case_bool_decide as Hc; [|done].
  by rewrite keywordOf_textChunk.
Qed.

Lemma setText_fixed K V c :
  (keywordOf c = Some K → c = textChunk K V) → setText K V c = c.
Proof. intros Hc. unfold setText. case_bool_decide; [symmetry; auto|done]. Qed.

Lemma filter_setText K V chunks :
  K ≠ [] → 0 ∉ K →
  filter (λ c, keywordOf c = Some K) (setText K V <$> chunks)
  = replicate (length (filter (λ c, keywordOf c = Some K) chunks)) (textChunk K V).
Proof.
  intros Hne H0. induction chunks as [|c chunks IH]; [done|].
  rewrite fmap_cons. destruct (decide (keywordOf c = Some K)) as [Hc|Hc].
  - rewrite (filter_cons_True _ c) by done.
    rewrite filter_cons_True by (by apply keywordOf_setText).
    cbn [length replicate]. rewrite IH. f_equal.
    unfold setText. by rewrite bool_decide_eq_true_2.
  - rewrite (filter_cons_False _ c) by done.
    rewrite filter_cons_False; [done|]. by rewrite keywordOf_setText.
Qed.

(** The outcome of one edit with set {K: V} on a chunk list that has an
    [IDAT] chunk: the list written is well formed, holds exactly one text
    chunk with keyword [K] when the input had at most one, and is a fixed
    point of the edit. *)
Lemma editPNGChunks_set_one ord ord' dry K V chunks :
  Forall wfChunk chunks → iendLast chunks →
  Exists (λ c, typ c = str "IDAT") chunks →
  K ≠ [] → 0 ∉ K → len K + 1 + len V < 4294967296 →
  (length (filter (λ c, keywordOf c = Some K) chunks) ≤ 1)%nat →
  let opts := mkEdit {[ K := V ]} [] dry in
  let final := editPNGChunks ord opts chunks in
  Forall wfChunk final ∧ iendLast final
  ∧ filter (λ c, keywordOf c = Some K) final = [textChunk K V]
  ∧ editPNGChunks ord' opts final = final.
Proof.
  intros Hwf Hend Hidat Hne H0 Hfit Hone opts final.
  assert (HwfKV : wfChunk (textChunk K V)).
  { split; [done|]. unfold textChunk, len in *. cbn [data].
    rewrite !length_app. cbn [length]. lia. }
  assert (HwfS : Forall wfChunk (setText K V <$> chunks)).
  { apply Forall_fmap. eapply Forall_impl; [exact Hwf|]. intros c Hc. cbn.
    unfold setText. by case_bool_decide. }
  assert (HendS : iendLast (setText K V <$> chunks)).
  { revert Hend. apply iendLast_types. rewrite <- list_fmap_compose.
    apply list_fmap_ext. intros i c _. cbn. by rewrite typ_setText. }
  assert (HidatS : Exists (λ c, typ c = str "IDAT") (setText K V <$> chunks)).
  { apply Exists_fmap. eapply Exists_impl; [exact Hidat|]. intros c Hc. cbn.
    by rewrite typ_setText. }
  set (add := if bool_decide (Exists (λ c, keywordOf c = Some K) chunks)
              then [] else [textChunk K V]).
  destruct (insertBeforeIDAT_split _ add HidatS) as (l1 & c & l2 & Hsplit & Hc & Hins).
  assert (Hfinal : final = l1 ++ add ++ c :: l2).
  { unfold final, opts, editPNGChunks. rewrite updateChunks_spec.
    rewrite bind_updateChunk_setText, addChunks_setText. fold add. by rewrite Hins. }
  assert (HwfAdd : Forall wfChunk add).
  { unfold add. case_bool_decide; [apply Forall_nil_2|by apply Forall_singleton]. }
  assert (Hfilter : filter (λ c, keywordOf c = Some K) final = [textChunk K V]).
  { pose proof (filter_setText K V chunks Hne H0) as Hf.
    rewrite Hsplit, filter_app in Hf.
    rewrite Hfinal, !filter_app. unfold add. case_bool_decide as Hex.
    - rewrite filter_nil, app_nil_l, Hf.
      apply Exists_exists in Hex as (x & Hx & HxK).
      assert (x ∈ filter (λ c, keywordOf c = Some K) chunks) as Hin
        by (by apply list_elem_of_filter).
      destruct (filter _ chunks) as [|y [|z l]]; [by apply elem_of_nil in Hin|done|].
      cbn in Hone. lia.
    - assert (filter (λ c, keywordOf c = Some K) chunks = []) as Hnone.
      { apply filter_none, Forall_forall. intros x Hx HxK.
        apply Hex, Exists_exists. eauto. }
      rewrite Hnone in Hf. cbn [length replicate] in Hf.
      apply app_eq_nil in Hf as [-> ->].
      rewrite filter_cons_True by (by apply keywordOf_textChunk). done. }
  assert (HwfF : Forall wfChunk final).
  { rewrite Hfinal. rewrite Hsplit in HwfS. apply Forall_app in HwfS as [H1 H2].
    by rewrite !Forall_app. }
  assert (HendF : iendLast final).
  { rewrite Hfinal. rewrite Hsplit in HendS. apply iendLast_insert; [done|].
    unfold add. case_bool_decide; [apply Forall_nil_2|by apply Forall_singleton]. }
  split; [done|]. split; [done|]. split; [done|].
  assert (Hfix : ∀ x, x ∈ final → keywordOf x = Some K → x = textChunk K V).
  { intros x Hx HxK.
    assert (x ∈ filter (λ c, keywordOf c = Some K) final) as Hin
      by (by apply list_elem_of_filter).
    rewrite Hfilter in Hin. by apply list_elem_of_singleton in Hin. }
  unfold opts. rewrite editPNGChunks_no_add.
  - rewrite bind_updateChunk_setText. rewrite <- (list_fmap_id final) at 2.
    apply list_fmap_ext. intros i x Hx. cbn. apply setText_fixed.
    apply Hfix. by eapply list_elem_of_lookup_2.
  - rewrite addChunks_setText. rewrite bool_decide_eq_true_2; [done|].
    apply Exists_exists. exists (textChunk K V). split; [|by apply keywordOf_textChunk].
    assert (textChunk K V ∈ filter (λ c, keywordOf c = Some K) final) as Hin
      by (rewrite Hfilter; apply list_elem_of_here).
    by apply list_elem_of_filter in Hin as [_ ?].
Qed.

(** The outcome of an edit that deletes a keyword no text chunk has. *)
Lemma editPNGChunks_delete_absent ord dry K chunks :
  Forall (λ c, keywordOf c ≠ Some K) chunks →
  editPNGChunks ord (mkEdit ∅ [K] dry) chunks = chunks.
Proof.
  intros Habs. rewrite editPNGChunks_no_add.
  - induction Habs as [|c chunks Hc Habs IH]; [done|].
    rewrite bind_cons, IH. unfold updateChunk. cbn [Delete Set_ list_to_set foldr].
    destruct (keywordOf c) as [key|]; [|done].
    rewrite bool_decide_eq_false_2 by (set_unfold; naive_solver).
    by rewrite lookup_empty.
  - cbn [Set_]. by rewrite rangeMap_empty.
Qed.

(** ** Vorbis comments: reading back what was built *)

Lemma upperOK_ascii : upperOK asciiExt.
Proof.
  split; [|split]; cbn [ToUpper asciiExt].
  - intros s. rewrite <- list_fmap_compose. apply list_fmap_ext. intros _ b _. cbn.
    unfold upperByte. repeat case_match; lia.
  - intros s Hs Hin. apply list_elem_of_fmap in Hin as (b & Hb & Hin).
    unfold upperByte in Hb. case_match; [|by subst]. lia.
  - intros s Hs. by destruct s.
Qed.

Lemma Index_single k c v : c ∉ k → Index (k ++ c :: v) [c] = len k.
Proof.
  induction k as [|x k IH]; intros Hc.
  - cbn [app Index]. unfold HasPrefix, beq. cbn [length take].
    by rewrite bool_decide_eq_true_2.
  - cbn [app Index]. unfold HasPrefix at 1, beq. cbn [length take].
    rewrite bool_decide_eq_false_2 by (intros [= ->]; set_solver).
    rewrite IH by set_solver. pose proof (len_nonneg k).
    replace (len k <? 0) with false by (symmetry; apply Z.ltb_ge; lia).
    rewrite len_cons. lia.
Qed.

Lemma Index_cons x s sep :
  Index (x :: s) sep
  = if HasPrefix (x :: s) sep then 0
    else if Index s sep <? 0 then -1 else Index s sep + 1.
Proof. reflexivity. Qed.

Lemma Index_single_first s c :
  0 ≤ Index s [c] → c ∉ sliceTo s (Index s [c]).
Proof.
  unfold sliceTo. induction s as [|x s IH].
  - intros _. rewrite take_nil. apply not_elem_of_nil.
  - rewrite Index_cons. destruct (HasPrefix (x :: s) [c]) eqn:Hp.
    + intros _. cbn. apply not_elem_of_nil.
    + destruct (Index s [c] <? 0) eqn:Hneg; [lia|]. intros _.
      apply Z.ltb_ge in Hneg. specialize (IH Hneg).
      replace (Z.to_nat (Index s [c] + 1)) with (S (Z.to_nat (Index s [c]))) by lia.
      cbn [take]. intros Hin. apply elem_of_cons in Hin as [Hin|Hin]; [|done].
      subst x. unfold HasPrefix, beq in Hp. cbn [length take] in Hp.
      by rewrite bool_decide_eq_true_2 in Hp.
Qed.

Lemma vorbisLoop_built X entries :
  ∀ fuel pre n count out,
    Forall (λ kv, wfKey X kv.1 ∧ len (kv.1 ++ str "=" ++ kv.2) < 4294967296) entries →
    count = n + len entries → (length entries ≤ fuel)%nat →
    vorbisLoop X fuel (pre ++ concat (map commentBytes entries)) count n (len pre) out
    = insertAll entries out.
Proof.
  induction entries as [|[k v] entries IH]; intros fuel pre n count out Hwf Hcount Hfuel.
  - cbn [map concat insertAll fold_left]. destruct fuel; [done|].
    cbn [vorbisLoop]. rewrite len_nil in Hcount.
    replace (n <? count) with false by (symmetry; apply Z.ltb_ge; lia). done.
  - destruct fuel as [|fuel]; [cbn in Hfuel; lia|].
    apply Forall_cons in Hwf as [[(Hne & Heq & Hup) Hsize] Hwf].
    cbn [fst snd] in Hne, Heq, Hup, Hsize.
    rewrite len_cons in Hcount. pose proof (len_nonneg entries) as Hn0.
    set (comment := k ++ str "=" ++ v) in *.
    set (rest := concat (map commentBytes entries)).
    set (cl := lePutUint32 (len comment)).
    cbn [map concat]. change (commentBytes (k, v)) with (cl ++ comment).
    fold rest. rewrite <- !app_assoc.
    set (d := pre ++ cl ++ comment ++ rest).
    assert (Hcl : len cl = 4) by reflexivity.
    pose proof (len_nonneg comment) as Hn1. pose proof (len_nonneg rest) as Hn2.
    assert (Hd : len d = len pre + 4 + len comment + len rest)
      by (unfold d; rewrite !len_app; lia).
    assert (Hs1 : slice d (len pre) (len pre + 4) = cl).
    { unfold d. rewrite <- Hcl. apply slice_middle. }
    assert (Hs2 : slice d (len pre + 4) (len pre + 4 + len comment) = comment).
    { unfold d. rewrite <- Hcl, <- len_app, (app_assoc pre cl). apply slice_middle. }
    assert (Hle : leUint32 cl = len comment) by (apply leUint32_lePutUint32; lia).
    assert (Hidx : Index comment (str "=") = len k) by (by apply Index_single).
    assert (Hk : 0 < len k)
      by (destruct k; [done|rewrite len_cons; pose proof (len_nonneg k); lia]).
    assert (Hkey : sliceTo comment (len k) = k)
      by (unfold sliceTo, comment; by rewrite take_len_app).
    assert (Hval : sliceFrom comment (len k + 1) = v).
    { unfold sliceFrom, comment. rewrite app_assoc.
      replace (len k + 1) with (len (k ++ str "=")) by (rewrite len_app; reflexivity).
      by rewrite drop_len_app. }
    specialize (IH fuel (pre ++ cl ++ comment) (n + 1) count (<[k := v]> out) Hwf
                  ltac:(lia) ltac:(cbn in Hfuel; lia)).
    rewrite <- !app_assoc in IH. fold rest in IH. fold d in IH.
    replace (len (pre ++ cl ++ comment)) with (len pre + 4 + len comment) in IH
      by (rewrite !len_app; lia).
    clearbody d. cbn [vorbisLoop]. cbv zeta.
    rewrite Hs1, Hle, Hs2, Hidx, Hkey, Hval, Hup, Hd.
    replace (n <? count) with true by (symmetry; apply Z.ltb_lt; lia).
    replace (len pre + 4 <=? len pre + 4 + len comment + len rest) with true
      by (symmetry; apply Z.leb_le; lia).
    replace (len pre + 4 + len comment + len rest <? len pre + 4 + len comment)
      with false by (symmetry; apply Z.ltb_ge; lia).
    replace (0 <? len k) with true by (symmetry; apply Z.ltb_lt; lia).
    cbn [andb negb]. exact IH.
Qed.

Lemma buildVorbisComment_layout entries :
  buildVorbisComment entries
  = (lePutUint32 (len vendor) ++ vendor ++ lePutUint32 (len entries))
    ++ concat (map commentBytes entries).
Proof. unfold buildVorbisComment. by rewrite <- !app_assoc. Qed.

Lemma parseVorbisComments_built X entries :
  Forall (λ kv, wfKey X kv.1 ∧ len (kv.1 ++ str "=" ++ kv.2) < 4294967296) entries →
  len entries < 4294967296 →
  parseVorbisComments X (buildVorbisComment entries) ∅ = insertAll entries ∅.
Proof.
  intros Hwf Hcount. pose proof (len_nonneg entries) as Hn0.
  rewrite buildVorbisComment_layout.
  set (body := concat (map commentBytes entries)).
  set (head := lePutUint32 (len vendor) ++ vendor ++ lePutUint32 (len entries)).
  assert (Hhead : len head = 37) by reflexivity.
  pose proof (len_nonneg body) as Hn1.
  unfold parseVorbisComments.
  replace (len (head ++ body) <? 4) with false
    by (symmetry; apply Z.ltb_ge; rewrite len_app; lia).
  replace (leUint32 (slice (head ++ body) 0 4)) with 29 by (vm_compute; reflexivity).
  cbv zeta.
  replace (len (head ++ body) <? 4 + 29 + 4) with false
    by (symmetry; apply Z.ltb_ge; rewrite len_app; lia).
  replace (leUint32 (slice (head ++ body) (4 + 29) (4 + 29 + 4))) with (len entries).
  2:{ unfold head. rewrite <- !app_assoc.
      change (slice ?d (4 + 29) (4 + 29 + 4)) with (take 4 (drop 33 d)).
      rewrite (app_assoc (lePutUint32 _) vendor).
      rewrite (drop_app_length' (lePutUint32 (len vendor) ++ vendor)) by reflexivity.
      rewrite (take_app_length' (lePutUint32 (len entries))) by reflexivity.
      symmetry. apply leUint32_lePutUint32. lia. }
  change (4 + 29 + 4) with 37. rewrite <- Hhead.
  apply vorbisLoop_built; [done|lia|].
  rewrite length_app. replace (length head) with 37%nat by reflexivity. unfold body.
  clear. induction entries as [|kv entries IH]; [cbn; lia|].
  cbn [map concat length]. unfold commentBytes at 1.
  rewrite !length_app, lePutUint32_length. lia.
Qed.

Lemma insertAll_list_to_map (entries : list (list Z * list Z))
    (m : gmap (list Z) (list Z)) :
  NoDup entries.*1 → (∀ k, k ∈ entries.*1 → m !! k = None) →
  insertAll entries m = list_to_map entries ∪ m.
Proof.
  revert m. induction entries as [|[k v] entries IH]; intros m Hnd Hfresh.
  - cbn. by rewrite (left_id_L ∅ (∪)).
  - cbn [fmap list_fmap fst] in Hnd. apply NoDup_cons in Hnd as [Hk Hnd].
    cbn [insertAll fold_left fst snd]. fold (insertAll entries (<[k := v]> m)).
    rewrite IH; [|done|].
    + cbn [list_to_map foldr fst snd]. rewrite <- insert_union_l.
      rewrite insert_union_r; [done|]. by apply not_elem_of_list_to_map_1.
    + intros k' Hk'. rewrite lookup_insert_ne by (intros ->; done).
      apply Hfresh. cbn. by apply elem_of_cons; right.
Qed.

Lemma insertAll_rangeMap (ord : Sched) (site : nat) (m : gmap (list Z) (list Z)) :
  insertAll (rangeMap ord site m) ∅ = m.
Proof.
  assert (Hperm : rangeMap ord site m ≡ₚ map_to_list m) by apply pick_perm.
  assert (Hnd : NoDup (rangeMap ord site m).*1).
  { rewrite Hperm. apply NoDup_fst_map_to_list. }
  rewrite insertAll_list_to_map; [|done|intros; apply lookup_empty].
  rewrite (right_id_L ∅ (∪)).
  rewrite (list_to_map_proper _ _ Hnd Hperm). apply list_to_map_to_list.
Qed.

Lemma comments_len_perm (l1 l2 : list (list Z * list Z)) :
  l1 ≡ₚ l2 → len (concat (map commentBytes l1)) = len (concat (map commentBytes l2)).
Proof.
  induction 1 as [|x l1 l2 Hp IH|x y l|l1 l2 l3 Hp1 IH1 Hp2 IH2].
  - done.
  - cbn [map concat]. rewrite !len_app. lia.
  - cbn [map concat]. rewrite !len_app. lia.
  - lia.
Qed.

Lemma buildVorbisComment_len entries :
  len (buildVorbisComment entries) = 37 + len (concat (map commentBytes entries)).
Proof. rewrite buildVorbisComment_layout, len_app. reflexivity. Qed.

Lemma buildVorbisComment_len_rangeMap (ord : Sched) (site : nat)
    (m : gmap (list Z) (list Z)) :
  len (buildVorbisComment (rangeMap ord site m))
  = len (buildVorbisComment (map_to_list m)).
Proof.
  rewrite !buildVorbisComment_len. f_equal. apply comments_len_perm, pick_perm.
Qed.

Lemma comments_sizes entries :
  Forall (λ kv, len (kv.1 ++ str "=" ++ kv.2) ≤ len (concat (map commentBytes entries)))
         entries
  ∧ len entries ≤ len (concat (map commentBytes entries)).
Proof.
  induction entries as [|kv entries [IH1 IH2]]; [by split|].
  cbn [map concat]. rewrite len_app, len_cons. unfold commentBytes at 1 3.
  rewrite len_app, len_lePutUint32.
  pose proof (len_nonneg (kv.1 ++ str "=" ++ kv.2)).
  pose proof (len_nonneg (concat (map commentBytes entries))).
  split; [|lia]. constructor; [lia|].
  eapply Forall_impl; [exact IH1|]. intros kv' Hkv'. cbn beta in *. lia.
Qed.

(** ** The keys the comment decoder can return *)

Lemma vorbisLoop_keys X fuel d :
  upperOK X →
  ∀ count n pos out,
    map_Forall (λ k _, wfKey X k) out →
    map_Forall (λ k _, wfKey X k) (vorbisLoop X fuel d count n pos out).
Proof.
  intros (Hidem & Heq & Hne).
  induction fuel as [|fuel IH]; intros count n pos out Hout; [done|].
  cbn [vorbisLoop]. cbv zeta.
  destruct (negb _); [done|]. destruct (len d <? _); [done|].
  apply IH. set (comment := slice d (pos + 4) _).
  destruct (0 <? Index comment (str "=")) eqn:Hpos; [|done].
  apply Z.ltb_lt in Hpos. apply map_Forall_insert_2; [|done].
  pose proof (Index_bound comment (str "=") ltac:(lia)) as Hb.
  change (len (str "=")) with 1 in Hb.
  split; [|split].
  - apply Hne. unfold sliceTo. intros Hnil.
    apply (f_equal length) in Hnil. rewrite length_take in Hnil.
    unfold len in Hb. cbn [length] in Hnil. lia.
  - apply Heq. change (str "=") with [61]. apply Index_single_first.
    change [61] with (str "="). lia.
  - apply Hidem.
Qed.

Lemma parseVorbisComments_keys X d :
  upperOK X → map_Forall (λ k _, wfKey X k) (parseVorbisComments X d ∅).
Proof.
  intros HX. unfold parseVorbisComments.
  destruct (len d <? 4); [apply map_Forall_empty|].
  cbv zeta. destruct (len d <? _); [apply map_Forall_empty|].
  apply vorbisLoop_keys; [done|apply map_Forall_empty].
Qed.

(** ** The FLAC edit on a well-formed file *)

Lemma flacComments_flacFile X blocks audio :
  blocks ≠ [] → Forall wfBlock blocks →
  flacComments X (flacFile blocks audio)
  = parseVorbisComments X (default [] (vcData blocks)) ∅.
Proof. intros Hne Hwf. unfold flacComments. by rewrite parseFLACBlocks_flacFile. Qed.

Lemma editedComments_existing X ord opts old :
  editedComments X ord opts old
  = fold_left (λ m k, delete (ToUpper X k) m) (Delete opts)
      (fold_left (λ (m : gmap (list Z) (list Z)) kv, <[ToUpper X kv.1 := kv.2]> m)
         (rangeMap ord 0 (Set_ opts))
         (parseVorbisComments X (default [] old) ∅)).
Proof. unfold editedComments. by destruct old. Qed.

Lemma editFLACBlocks_ok X ord opts blocks :
  blocks ≠ [] → Forall wfBlock blocks →
  let newVC := buildVorbisComment
                 (rangeMap ord 1 (editedComments X ord opts (vcData blocks))) in
  len newVC < 16777216 →
  ∃ blocks', editFLACBlocks X ord opts blocks = Ok blocks'
             ∧ blocks' ≠ [] ∧ Forall wfBlock blocks' ∧ vcData blocks' = Some newVC.
Proof.
  intros Hne Hwf. unfold editFLACBlocks, vcData, findVC. cbv zeta.
  destruct (list_find (λ b, blockType b = 4) blocks) as [[i b]|] eqn:Hfind;
    cbn [fmap option_fmap option_map fst]; intros Hfit;
    set (nv := buildVorbisComment _) in *.
  - apply list_find_Some in Hfind as (Hi & Hb & Hbefore).
    eexists. split; [reflexivity|].
    split; [|split].
    + intros Hnil. apply (f_equal length) in Hnil. rewrite length_alter in Hnil.
      by destruct blocks.
    + apply Forall_alter; [done|]. intros x Hx [Ht _]. split; [done|exact Hfit].
    + assert (Hfind' : list_find (λ b, blockType b = 4)
                         (alter (λ b, mkBlock (blockType b) nv) i blocks)
                       = Some (i, mkBlock (blockType b) nv)).
      { apply list_find_Some. split; [|split].
        - by rewrite list_lookup_alter_eq, Hi.
        - done.
        - intros j y Hj Hlt. rewrite list_lookup_alter_ne in Hj by lia.
          by eapply Hbefore. }
      rewrite Hfind'. cbn [fmap option_fmap option_map fst].
      by rewrite list_lookup_alter_eq, Hi.
  - apply list_find_None in Hfind.
    destruct blocks as [|b0 rest]; [done|].
    apply Forall_cons in Hfind as [Hb0 _]. apply Forall_cons in Hwf as [Hw0 Hwr].
    eexists. split; [reflexivity|]. split; [done|]. split.
    + constructor; [done|]. constructor; [|done]. split; [cbn; lia|exact Hfit].
    + cbn [list_find]. rewrite decide_False by done.
      cbn [list_find fmap option_fmap option_map]. by rewrite decide_True.
Qed.

Lemma editFLAC_ok X ord w path out blocks audio opts :
  blocks ≠ [] → Forall wfBlock blocks →
  files w !! path = Some (flacFile blocks audio) →
  DryRun opts = false →
  let newVC := buildVorbisComment
                 (rangeMap ord 1 (editedComments X ord opts (vcData blocks))) in
  len newVC < 16777216 →
  ∃ blocks', editFLAC X ord w path out opts
               = (WriteFile w out (flacFile blocks' audio), Success)
             ∧ blocks' ≠ [] ∧ Forall wfBlock blocks' ∧ vcData blocks' = Some newVC.
Proof.
  intros Hne Hwf Hfile Hdry newVC Hfit.
  destruct (editFLACBlocks_ok X ord opts blocks Hne Hwf Hfit)
    as (blocks' & Hedit & Hne' & Hwf' & Hvc).
  exists blocks'. split; [|done].
  unfold editFLAC, ReadFile. rewrite Hfile, flacFile_magic, Hdry.
  rewrite parseFLACBlocks_flacFile by done. rewrite Hedit.
  unfold writeFLAC. by rewrite flacFile_audio.
Qed.

Lemma editedComments_keys X ord opts old :
  upperOK X →
  map_Forall (λ k _, k ≠ [] ∧ 61 ∉ k) (Set_ opts) →
  map_Forall (λ k _, wfKey X k) (editedComments X ord opts old).
Proof.
  intros HX Hset. rewrite editedComments_existing.
  assert (Hentries : Forall (λ kv : list Z * list Z, kv.1 ≠ [] ∧ 61 ∉ kv.1)
                       (rangeMap ord 0 (Set_ opts))).
  { apply Forall_forall. intros [k v] Hin.
    assert (Hin' : (k, v) ∈ map_to_list (Set_ opts))
      by (by rewrite <- (pick_perm ord 0 (map_to_list (Set_ opts)))).
    apply elem_of_map_to_list in Hin'. exact (Hset k v Hin'). }
  pose proof (parseVorbisComments_keys X (default [] old) HX) as Hm.
  revert Hm. generalize (parseVorbisComments X (default [] old) ∅).
  induction Hentries as [|[k v] entries [Hne Heq] _ IH]; intros m Hm.
  - cbn [fold_left]. revert m Hm.
    induction (Delete opts) as [|d dels IHd]; intros m Hm; [done|].
    cbn [fold_left]. apply IHd. by apply map_Forall_delete.
  - cbn [fold_left]. apply IH. apply map_Forall_insert_2; [|done].
    destruct HX as (Hidem & Hkeep & Hnonempty). cbn [fst] in *.
    split; [by apply Hnonempty|]. split; [by apply Hkeep|apply Hidem].
Qed.

Lemma editedComments_set_one X ord K V old :
  editedComments X ord (mkEdit {[ K := V ]} [] false) old
  = <[ToUpper X K := V]> (parseVorbisComments X (default [] old) ∅).
Proof.
  rewrite editedComments_existing. cbn [Set_ Delete].
  by rewrite rangeMap_singleton.
Qed.

Lemma editedComments_delete_one X ord K old :
  editedComments X ord (mkEdit ∅ [K] false) old
  = delete (ToUpper X K) (parseVorbisComments X (default [] old) ∅).
Proof.
  rewrite editedComments_existing. cbn [Set_ Delete].
  by rewrite rangeMap_empty.
Qed.

(** The FLAC edit of a well-formed file, in terms of the comment fields:
    the file written decodes to the edited field map. *)
Lemma editFLAC_comments X ord w path out blocks audio opts :
  upperOK X → blocks ≠ [] → Forall wfBlock blocks →
  files w !! path = Some (flacFile blocks audio) →
  DryRun opts = false →
  map_Forall (λ k _, k ≠ [] ∧ 61 ∉ k) (Set_ opts) →
  let m' := editedComments X ord opts (vcData blocks) in
  len (buildVorbisComment (map_to_list m')) < 16777216 →
  ∃ blocks', editFLAC X ord w path out opts
               = (WriteFile w out (flacFile blocks' audio), Success)
             ∧ blocks' ≠ [] ∧ Forall wfBlock blocks'
             ∧ vcData blocks' = Some (buildVorbisComment (rangeMap ord 1 m'))
             ∧ flacComments X (flacFile blocks' audio) = m'.
Proof.
  intros HX Hne Hwf Hfile Hdry Hset m' Hfit.
  rewrite <- (buildVorbisComment_len_rangeMap ord 1) in Hfit.
  destruct (editFLAC_ok X ord w path out blocks audio opts Hne Hwf Hfile Hdry Hfit)
    as (blocks' & Hedit & Hne' & Hwf' & Hvc).
  fold m' in Hvc. exists blocks'. repeat (split; [done|]).
  rewrite flacComments_flacFile, Hvc by done.
  change (default [] (Some ?x)) with x.
  set (entries := rangeMap ord 1 m') in *.
  rewrite buildVorbisComment_len in Hfit.
  destruct (comments_sizes entries) as [Hsizes Hcount].
  rewrite parseVorbisComments_built; [apply insertAll_rangeMap| |lia].
  pose proof (editedComments_keys X ord opts (vcData blocks) HX Hset) as Hkeys.
  fold m' in Hkeys. apply Forall_forall. intros [k v] Hin. split.
  - assert (Hin' : (k, v) ∈ map_to_list m')
      by (by rewrite <- (pick_perm ord 1 (map_to_list m'))).
    apply elem_of_map_to_list in Hin'. exact (Hkeys k v Hin').
  - rewrite Forall_forall in Hsizes. specialize (Hsizes (k, v) Hin). cbn beta in Hsizes. lia.
Qed.

Lemma filter_key_unique (entries : list (list Z * list Z)) k v :
  NoDup entries.*1 → (k, v) ∈ entries →
  filter (λ kv, kv.1 = k) entries = [(k, v)].
Proof.
  induction entries as [|[k' v'] entries IH]; intros Hnd Hin;
    [by apply elem_of_nil in Hin|].
  cbn [fmap list_fmap fst] in Hnd. apply NoDup_cons in Hnd as [Hk Hnd].
  apply elem_of_cons in Hin as [[= <- <-]|Hin].
  - rewrite filter_cons_True by done. f_equal.
    apply filter_none, Forall_forall. intros [k2 v2] Hin2 Heq. cbn in Heq. subst k2.
    apply Hk. apply list_elem_of_fmap. by exists (k, v2).
  - rewrite filter_cons_False; [by apply IH|].
    cbn. intros ->. apply Hk. apply list_elem_of_fmap. by exists (k, v).
Qed.

Lemma rangeMap_key_once (ord : Sched) (site : nat) (m : gmap (list Z) (list Z))
    (k v : list Z) :
  m !! k = Some v → filter (λ kv, kv.1 = k) (rangeMap ord site m) = [(k, v)].
Proof.
  intros Hk.
  assert (Hperm : rangeMap ord site m ≡ₚ map_to_list m) by apply pick_perm.
  apply filter_key_unique.
  - rewrite Hperm. apply NoDup_fst_map_to_list.
  - rewrite Hperm. by apply elem_of_map_to_list.
Qed.

(** ** Setting twice, deleting what is absent *)

(** C6, refuted as stated.  First input: a PNG file with two [tEXt]
    chunks of keyword Title; after set {Title: New} applied twice the
    decoder lists two fields Title=New.  Second input: a PNG file without
    text chunks and the empty key; each application of set {"": x} adds
    one more chunk, so that two applications leave two of them (which the
    decoder does not list as fields at all). *)
Lemma set_twice_can_leave_two :
  let ihdr := mkChunk (str "IHDR") [0; 0; 0; 1; 0; 0; 0; 1; 8; 0; 0; 0; 0] in
  let idat := mkChunk (str "IDAT") [1; 2; 3] in
  let iend := mkChunk (str "IEND") [] in
  let twice (chunks : list pngChunk) (opts : EditOptions) :=
    let w := mkWorld {[ "a.png"%string := pngFile chunks ]} [] in
    let w1 := (editPNG inOrder w "a.png" "a.png" opts).1 in
    (editPNG inOrder w1 "a.png" "a.png" opts).1 in
  let title v := mkField (str "Title") (str v) (str "PNG tEXt") true in
  viewPNG asciiExt
    (twice [ihdr; textChunk (str "Title") (str "One"); textChunk (str "Title") (str "Two");
            idat; iend]
       (mkEdit {[ str "Title" := str "New" ]} [] false)) "a.png"
  = Ok [title "New"; title "New"]
  ∧ readPNGChunks <$> files (twice [ihdr; idat; iend] (mkEdit {[ [] := str "x" ]} [] false))
                        !! "a.png"%string
    = Some (Ok [ihdr; textChunk [] (str "x"); textChunk [] (str "x"); idat; iend])
  ∧ viewPNG asciiExt (twice [ihdr; idat; iend] (mkEdit {[ [] := str "x" ]} [] false)) "a.png"
    = Ok [].
Proof. repeat split; vm_compute; reflexivity. Qed.

(** C6, as the code has it.
    - PNG, set: for a well-formed file with an IDAT chunk and at most one
      text chunk of keyword [K], [K] not empty and without a zero byte:
      the edit with set {K: V} writes a file with exactly one text chunk
      of keyword [K], holding [V]; applied to that file the same edit
      writes the same file again.
    - PNG, delete: when no text chunk has keyword [K], the edit with
      delete {K} succeeds and writes the input file as it is.
    - FLAC, set: for a well-formed file with at least one metadata block,
      [K] not empty and without ['=']: after the edit with set {K: V}, and
      again after the same edit on its result, the decoded fields are the
      input's with the upper-cased [K] set to [V], and the comment block
      holds exactly one entry with that key.
    - FLAC, delete: when the upper-cased [K] is not among the decoded
      fields, the edit with delete {K} succeeds and the decoded fields of
      its result are the input's. *)
Theorem set_twice_delete_absent :
  (∀ (ord1 ord2 : Sched) (w : World) (path out : string)
     (chunks : list pngChunk) (K V : bytes),
      Forall wfChunk chunks → iendLast chunks →
      Exists (λ c, typ c = str "IDAT") chunks →
      K ≠ [] → 0 ∉ K → len K + 1 + len V < 4294967296 →
      (length (filter (λ c, keywordOf c = Some K) chunks) ≤ 1)%nat →
      files w !! path = Some (pngFile chunks) →
      ∃ final : list pngChunk,
        editPNG ord1 w path out (mkEdit {[ K := V ]} [] false)
          = (WriteFile w out (pngFile final), Success)
        ∧ editPNG ord2 (WriteFile w out (pngFile final)) out out (mkEdit {[ K := V ]} [] false)
          = (WriteFile (WriteFile w out (pngFile final)) out (pngFile final), Success)
        ∧ readPNGChunks (pngFile final) = Ok final
        ∧ filter (λ c, keywordOf c = Some K) final = [textChunk K V])
  ∧ (∀ (ord : Sched) (w : World) (path out : string) (chunks : list pngChunk) (K : bytes),
      Forall wfChunk chunks → iendLast chunks →
      Forall (λ c, keywordOf c ≠ Some K) chunks →
      files w !! path = Some (pngFile chunks) →
      editPNG ord w path out (mkEdit ∅ [K] false)
        = (WriteFile w out (pngFile chunks), Success))
  ∧ (∀ (X : Ext) (ord1 ord2 : Sched) (w : World) (path out : string)
       (blocks : list flacBlock) (audio K V : bytes),
      upperOK X → blocks ≠ [] → Forall wfBlock blocks →
      K ≠ [] → 61 ∉ K →
      files w !! path = Some (flacFile blocks audio) →
      let m1 := <[ToUpper X K := V]> (flacComments X (flacFile blocks audio)) in
      len (buildVorbisComment (map_to_list m1)) < 16777216 →
      ∃ (once twice : bytes) (blocks2 : list flacBlock) (entries : list (list Z * list Z)),
        editFLAC X ord1 w path out (mkEdit {[ K := V ]} [] false)
          = (WriteFile w out once, Success)
        ∧ editFLAC X ord2 (WriteFile w out once) out out (mkEdit {[ K := V ]} [] false)
          = (WriteFile (WriteFile w out once) out twice, Success)
        ∧ flacComments X once = m1 ∧ flacComments X twice = m1
        ∧ twice = flacFile blocks2 audio
        ∧ vcData blocks2 = Some (buildVorbisComment entries)
        ∧ filter (λ kv, kv.1 = ToUpper X K) entries = [(ToUpper X K, V)])
  ∧ (∀ (X : Ext) (ord : Sched) (w : World) (path out : string)
       (blocks : list flacBlock) (audio K : bytes),
      upperOK X → blocks ≠ [] → Forall wfBlock blocks →
      files w !! path = Some (flacFile blocks audio) →
      let m0 := flacComments X (flacFile blocks audio) in
      m0 !! ToUpper X K = None →
      len (buildVorbisComment (map_to_list m0)) < 16777216 →
      ∃ output : bytes,
        editFLAC X ord w path out (mkEdit ∅ [K] false) = (WriteFile w out output, Success)
        ∧ flacComments X output = m0).
Proof.
  split; [|split; [|split]].
  - intros ord1 ord2 w path out chunks K V Hwf Hend Hidat Hne H0 Hfit Hone Hfile.
    destruct (editPNGChunks_set_one ord1 ord2 false K V chunks Hwf Hend Hidat Hne H0 Hfit Hone)
      as (HwfF & HendF & Hfilter & Hfix).
    set (final := editPNGChunks ord1 (mkEdit {[ K := V ]} [] false) chunks) in *.
    exists final.
    assert (Hread : readPNGChunks (pngFile final) = Ok final)
      by (by apply readPNGChunks_pngFile).
    split; [|split; [|split]]; [| |done..].
    + unfold editPNG, ReadFile. rewrite Hfile, readPNGChunks_pngFile by done. done.
    + unfold editPNG. rewrite ReadFile_WriteFile, Hread, Hfix. done.
  - intros ord w path out chunks K Hwf Hend Habs Hfile.
    unfold editPNG, ReadFile. rewrite Hfile, readPNGChunks_pngFile by done.
    by rewrite editPNGChunks_delete_absent.
  - intros X ord1 ord2 w path out blocks audio K V HX Hne Hwf HK Heq Hfile m1 Hfit.
    assert (Hset : map_Forall (λ k _, k ≠ [] ∧ 61 ∉ k)
                     (Set_ (mkEdit {[ K := V ]} [] false))).
    { cbn [Set_]. by apply map_Forall_singleton. }
    assert (Hm1 : editedComments X ord1 (mkEdit {[ K := V ]} [] false) (vcData blocks) = m1).
    { rewrite editedComments_set_one. unfold m1. by rewrite flacComments_flacFile. }
    destruct (editFLAC_comments X ord1 w path out blocks audio
                (mkEdit {[ K := V ]} [] false) HX Hne Hwf Hfile
                eq_refl Hset) as (blocks1 & Hedit1 & Hne1 & Hwf1 & Hvc1 & Hc1);
      [by rewrite Hm1|].
    rewrite Hm1 in Hvc1, Hc1.
    assert (Hm2 : editedComments X ord2 (mkEdit {[ K := V ]} [] false) (vcData blocks1) = m1).
    { rewrite editedComments_set_one. rewrite <- (flacComments_flacFile X blocks1 audio) by done.
      rewrite Hc1. unfold m1. by rewrite insert_insert_eq. }
    destruct (editFLAC_comments X ord2 (WriteFile w out (flacFile blocks1 audio)) out out
                blocks1 audio (mkEdit {[ K := V ]} [] false) HX Hne1 Hwf1
                ltac:(cbn; apply lookup_insert_eq) eq_refl Hset)
      as (blocks2 & Hedit2 & Hne2 & Hwf2 & Hvc2 & Hc2); [by rewrite Hm2|].
    rewrite Hm2 in Hvc2, Hc2.
    exists (flacFile blocks1 audio), (flacFile blocks2 audio), blocks2, (rangeMap ord2 1 m1).
    repeat (split; [done|]).
    apply rangeMap_key_once. unfold m1. apply lookup_insert_eq.
  - intros X ord w path out blocks audio K HX Hne Hwf Hfile m0 Habs Hfit.
    assert (Hset : map_Forall (λ k _, k ≠ [] ∧ 61 ∉ k) (Set_ (mkEdit ∅ [K] false)))
      by apply map_Forall_empty.
    assert (Hm : editedComments X ord (mkEdit ∅ [K] false) (vcData blocks) = m0).
    { rewrite editedComments_delete_one. rewrite <- (flacComments_flacFile X blocks audio) by done.
      by apply delete_id. }
    destruct (editFLAC_comments X ord w path out blocks audio (mkEdit ∅ [K] false)
                HX Hne Hwf Hfile eq_refl Hset) as (blocks' & Hedit & _ & _ & _ & Hc);
      [by rewrite Hm|].
    rewrite Hm in Hc. by exists (flacFile blocks' audio).
Qed.

Lemma set_twice_delete_absent_witness :
  let chunks := [mkChunk (str "IHDR") [0; 0; 0; 1; 0; 0; 0; 1; 8; 0; 0; 0; 0];
                 mkChunk (str "IDAT") [1; 2; 3]; mkChunk (str "IEND") []] in
  let w := mkWorld {[ "a.png"%string := pngFile chunks ]} [] in
  let blocks := [mkBlock 0 (replicate 34 0)] in
  let v := mkWorld {[ "a.flac"%string := flacFile blocks [255; 248; 1] ]} [] in
  Forall wfChunk chunks
  ∧ (∃ final,
       editPNG inOrder w "a.png" "b.png" (mkEdit {[ str "Title" := str "T" ]} [] false)
         = (WriteFile w "b.png" (pngFile final), Success)
       ∧ filter (λ c, keywordOf c = Some (str "Title")) final
         = [textChunk (str "Title") (str "T")])
  ∧ upperOK asciiExt
  ∧ (∃ output,
       editFLAC asciiExt inOrder v "a.flac" "b.flac" (mkEdit ∅ [str "title"] false)
         = (WriteFile v "b.flac" output, Success)
       ∧ flacComments asciiExt output = flacComments asciiExt (flacFile blocks [255; 248; 1])).
Proof.
  intros chunks w blocks v.
  assert (Hwf : Forall wfChunk chunks).
  { repeat (first [apply Forall_nil_2 | apply Forall_cons_2]); split; vm_compute; reflexivity. }
  destruct set_twice_delete_absent as (Hpng & _ & _ & Hflac).
  split; [exact Hwf|]. split; [|split; [exact upperOK_ascii|]].
  - destruct (Hpng inOrder reversed w "a.png"%string "b.png"%string chunks
                (str "Title") (str "T") Hwf) as (final & Hedit & _ & _ & Hfilter).
    + vm_compute. repeat split; discriminate.
    + apply Exists_cons_tl, Exists_cons_hd. reflexivity.
    + discriminate.
    + vm_compute. intros Hin. repeat (apply elem_of_cons in Hin as [Hin|Hin]; [discriminate|]).
      by apply elem_of_nil in Hin.
    + vm_compute. reflexivity.
    + vm_compute. lia.
    + vm_compute. reflexivity.
    + exists final. by split.
  - destruct (Hflac asciiExt inOrder v "a.flac"%string "b.flac"%string blocks [255; 248; 1]
                (str "title") upperOK_ascii) as (output & Hedit & Hsame).
    + discriminate.
    + repeat (first [apply Forall_nil_2 | apply Forall_cons_2]); repeat split; vm_compute;
        first [reflexivity | discriminate].
    + vm_compute. reflexivity.
    + vm_compute. reflexivity.
    + vm_compute. reflexivity.
    + exists output. by split.
Defined.

(** * Properties of the further functions *)

(** ** PNG: views after writes *)


Lemma isBytes_check d :
  forallb (λ b, (0 <=? b) && (b <? 256)) d = true → Forall isByte d.
Proof.
  intros Hd. apply Forall_forall. intros b Hb%list_elem_of_In.
  rewrite forallb_forall in Hd. specialize (Hd b Hb). unfold isByte. lia.
Qed.

Lemma at_isByte d i : Forall isByte d → isByte (at_ d i).
Proof.
  intros Hd. unfold at_. destruct (d !! Z.to_nat i) as [b|] eqn:Hb; cbn.
  - by eapply Forall_lookup_1 in Hb.
  - unfold isByte. lia.
Qed.

Lemma beUint32_range d : Forall isByte d → 0 ≤ beUint32 d < 4294967296.
Proof.
  intros Hd. unfold beUint32.
  pose proof (at_isByte d 0 Hd). pose proof (at_isByte d 1 Hd).
  pose proof (at_isByte d 2 Hd). pose proof (at_isByte d 3 Hd).
  unfold isByte in *. lia.
Qed.

Lemma readChunkLoop_wf fuel r :
  Forall isByte r →
  Forall wfChunk (readChunkLoop fuel r) ∧ iendLast (readChunkLoop fuel r).
Proof.
  revert r. induction fuel as [|fuel IH]; intros r Hr; [by split|].
  cbn [readChunkLoop].
  destruct (len r <? 4) eqn:H1; [by split|].
  destruct (len (drop 4 r) <? 4) eqn:H2; [by split|].
  set (n := beUint32 (take 4 r)).
  destruct (len (drop 4 (drop 4 r)) <? n) eqn:H3; [by split|].
  assert (Hn : 0 ≤ n < 4294967296) by (apply beUint32_range; by apply Forall_take).
  assert (Hc : wfChunk (mkChunk (take 4 (drop 4 r))
                          (take (Z.to_nat n) (drop 4 (drop 4 r))))).
  { split; cbn [typ data].
    - apply Z.ltb_ge in H2. unfold len in H2. rewrite length_take. lia.
    - unfold len. rewrite length_take. lia. }
  destruct (IH (drop 4 (drop (Z.to_nat n) (drop 4 (drop 4 r)))))
    as [IHwf IHend]; [by repeat apply Forall_drop|].
  unfold beq. case_bool_decide as Ht.
  - split; [by apply Forall_singleton|]. by cbn.
  - split; [by apply Forall_cons|]. cbn [iendLast typ]. by split.
Qed.

Lemma readPNGChunks_wf d chunks :
  Forall isByte d → readPNGChunks d = Ok chunks →
  Forall wfChunk chunks ∧ iendLast chunks.
Proof.
  intros Hd. unfold readPNGChunks. repeat case_match; try done.
  intros [= <-]. apply readChunkLoop_wf. by apply Forall_drop.
Qed.

Lemma readPNGChunks_signed d :
  take 8 d = pngSignature → ∃ chunks, readPNGChunks d = Ok chunks.
Proof.
  intros Hd. unfold readPNGChunks.
  assert (8 ≤ len d).
  { unfold len. assert (length (take 8 d) = 8%nat) by (by rewrite Hd).
    rewrite length_take in *. lia. }
  rewrite bool_decide_eq_false_2 by lia.
  replace (len d <? 8) with false by (symmetry; apply Z.ltb_ge; lia).
  unfold beq. rewrite bool_decide_eq_true_2 by done. cbn. eauto.
Qed.

Lemma readChunkLoop_written_rest fuel chunks rest :
  Forall wfChunk chunks → iendLast chunks →
  (rest = [] ∨ ∃ c, last chunks = Some c ∧ typ c = str "IEND") →
  (length chunks ≤ fuel)%nat →
  readChunkLoop fuel (concat (map (λ c, writePNGChunk (typ c) (data c)) chunks) ++ rest)
  = chunks.
Proof.
  intros Hwf. revert fuel.
  induction Hwf as [|c chunks Hc Hwf IH]; intros fuel Hend Hrest Hfuel.
  - destruct Hrest as [->|(c & Hc & _)]; [apply readChunkLoop_nil|done].
  - destruct fuel as [|fuel]; [cbn in Hfuel; lia|].
    destruct Hend as [Hlast Hend]. cbn [map concat].
    change (writePNGChunk (typ c) (data c)) with (frame c (freshCRC c)).
    rewrite <- app_assoc, readChunkLoop_frame by done.
    unfold beq. case_bool_decide as Ht.
    + by rewrite (Hlast Ht).
    + f_equal. apply IH; [done| |cbn in Hfuel; lia].
      destruct Hrest as [->|(c' & Hc' & Ht')]; [by left|right].
      exists c'. split; [|done]. destruct chunks as [|x chunks]; [|done].
      cbn in Hc'. congruence.
Qed.

(** X1. Reading back a written PNG.  A file written from
    chunks that each have a four-byte type and a payload within the
    32-bit length field, with no chunk after an [IEND], is read back by
    [readPNGChunks] as exactly those chunks.  Bytes that follow the file
    change nothing when the chunks end with [IEND]: the reader stops
    there. *)
Theorem png_read_back_written (chunks : list pngChunk) (rest : bytes) :
  Forall wfChunk chunks → iendLast chunks →
  (rest = [] ∨ ∃ c, last chunks = Some c ∧ typ c = str "IEND") →
  readPNGChunks (pngFile chunks ++ rest) = Ok chunks.
Proof.
  intros Hwf Hend Hrest.
  assert (Hs : pngFile chunks ++ rest = pngStream (zip chunks (freshCRC <$> chunks)) rest).
  { rewrite pngFile_stream. unfold pngStream. by rewrite app_nil_r, <- app_assoc. }
  rewrite Hs, readPNGChunks_stream. f_equal.
  replace (map (λ it, frame it.1 it.2) (zip chunks (freshCRC <$> chunks)))
    with (map (λ c, writePNGChunk (typ c) (data c)) chunks).
  2:{ clear. induction chunks as [|c chunks IH]; [done|].
      cbn [fmap list_fmap zip zip_with map fst snd]. by rewrite IH. }
  apply readChunkLoop_written_rest; [done..|].
  rewrite <- Hs. rewrite length_app. unfold pngFile. rewrite length_app.
  pose proof (written_length chunks). lia.
Qed.

Lemma png_read_back_written_witness :
  let chunks := [mkChunk (str "IDAT") [1; 2]; mkChunk (str "IEND") []] in
  readPNGChunks (pngFile chunks ++ [9; 9]) = Ok chunks.
Proof.
  intros chunks. apply (png_read_back_written chunks [9; 9]).
  - repeat apply Forall_cons_2; try apply Forall_nil_2; split; vm_compute; done.
  - cbn. repeat split; done.
  - right. exists (mkChunk (str "IEND") []). by split.
Defined.

(** *** What the view makes of a chunk list *)

Lemma viewChunk_cases X c :
  viewChunk X c = Ok (chunkFields X c)
  ∨ viewChunk X c = Crash "slice bounds out of range".
Proof.
  unfold chunkFields. unfold viewChunk. repeat case_match; auto; done.
Qed.

Lemma viewChunks_ok X chunks acc :
  Forall (λ c, viewChunk X c = Ok (chunkFields X c)) chunks →
  viewChunks X chunks acc = Ok (acc ++ (chunks ≫= chunkFields X)).
Proof.
  intros Hall. revert acc. induction Hall as [|c chunks Hc Hall IH]; intros acc.
  - cbn. by rewrite app_nil_r.
  - cbn [viewChunks]. rewrite Hc, IH, bind_cons. by rewrite app_assoc.
Qed.

Lemma viewChunks_ok_inv X chunks acc fs :
  viewChunks X chunks acc = Ok fs →
  Forall (λ c, viewChunk X c = Ok (chunkFields X c)) chunks.
Proof.
  revert acc. induction chunks as [|c chunks IH]; intros acc Hv; [apply Forall_nil_2|].
  cbn [viewChunks] in Hv.
  destruct (viewChunk_cases X c) as [Hc|Hc]; rewrite Hc in Hv; [|done].
  apply Forall_cons_2; [done|]. by eapply IH.
Qed.

Lemma viewChunks_crash X chunks acc :
  Exists (λ c, viewChunk X c = Crash "slice bounds out of range") chunks →
  viewChunks X chunks acc = Crash "slice bounds out of range".
Proof.
  revert acc. induction chunks as [|c chunks IH]; intros acc Hex;
    [by apply Exists_nil in Hex|].
  cbn [viewChunks].
  destruct (viewChunk_cases X c) as [Hc|Hc]; rewrite Hc; [|done].
  apply IH. apply Exists_cons in Hex as [Hex|Hex]; [congruence|done].
Qed.

Lemma viewChunk_plain X c : pngMetaChunks (typ c) = false → viewChunk X c = Ok [].
Proof.
  unfold pngMetaChunks. intros Hc%bool_decide_eq_false.
  unfold viewChunk, beq.
  repeat (rewrite bool_decide_eq_false_2; [|intros Heq; apply Hc; rewrite Heq; set_solver]).
  done.
Qed.

Lemma iendLast_filter (P : pngChunk → Prop) `{!∀ c, Decision (P c)} l :
  iendLast l → iendLast (filter P l).
Proof.
  induction l as [|c l IH]; [done|]. intros [Hlast Hend].
  destruct (decide (P c)) as [Hc|Hc].
  - rewrite filter_cons_True by done. split; [|by apply IH].
    intros Ht. by rewrite (Hlast Ht).
  - rewrite filter_cons_False by done. by apply IH.
Qed.

Lemma Forall_filter_wf (P : pngChunk → Prop) `{!∀ c, Decision (P c)} l :
  Forall wfChunk l → Forall wfChunk (filter P l).
Proof.
  intros Hl. apply Forall_forall. intros c [_ Hc]%list_elem_of_filter.
  by eapply Forall_forall in Hl.
Qed.

Lemma stripPNGChunks_no_keep X opts chunks :
  KeepFields opts = [] →
  stripPNGChunks X opts chunks = filter (λ c, pngMetaChunks (typ c) = false) chunks.
Proof.
  intros Hk. unfold stripPNGChunks. rewrite Hk. cbn [map list_to_set foldr].
  induction chunks as [|c chunks IH]; [done|].
  destruct (decide (pngMetaChunks (typ c) = false)) as [Hc|Hc].
  - rewrite !(filter_cons_True _ c); [by rewrite IH|done|by left].
  - rewrite !(filter_cons_False _ c); [done|done|].
    intros [?|[?|?]]; [done|set_solver..].
Qed.

Lemma viewChunks_plain X l :
  Forall (λ c, pngMetaChunks (typ c) = false) l → viewChunks X l [] = Ok [].
Proof.
  induction 1 as [|c l Hc Hl IH]; [done|].
  cbn [viewChunks]. by rewrite viewChunk_plain.
Qed.

(** X2. Strip, then view.  For a file of bytes that
    starts with the PNG signature, [stripPNG] without fields to keep
    succeeds, and [viewPNG] of the file it wrote shows no field at
    all. *)
Theorem strip_png_then_view_empty
    (X : Ext) (w : World) (path out : string) (opts : StripOptions) (d : bytes) :
  files w !! path = Some d → Forall isByte d → take 8 d = pngSignature →
  KeepFields opts = [] →
  ∃ w', stripPNG X w path out opts = (w', Success) ∧ viewPNG X w' out = Ok [].
Proof.
  intros Hd Hbytes Hsig Hkeep.
  destruct (readPNGChunks_signed d Hsig) as [chunks Hread].
  destruct (readPNGChunks_wf d chunks Hbytes Hread) as [Hwf Hend].
  unfold stripPNG, ReadFile. rewrite Hd, Hread.
  eexists; split; [reflexivity|].
  unfold viewPNG, writePNGChunks. rewrite ReadFile_WriteFile.
  rewrite stripPNGChunks_no_keep by done.
  rewrite readPNGChunks_pngFile
    by (by apply Forall_filter_wf || by apply iendLast_filter).
  apply viewChunks_plain, Forall_forall.
  by intros c [Hc _]%list_elem_of_filter.
Qed.

Lemma strip_png_then_view_empty_witness :
  let d := pngFile [authorAlice; mkChunk (str "IDAT") [1; 2]; mkChunk (str "IEND") []] in
  let w := mkWorld {[ "a.png"%string := d ]} [] in
  viewPNG asciiExt w "a.png"
    = Ok [mkField (str "Author") (str "Alice") (str "PNG tEXt") true]
  ∧ ∃ w', stripPNG asciiExt w "a.png" "b.png" (mkStrip [] false true false) = (w', Success)
          ∧ viewPNG asciiExt w' "b.png" = Ok [].
Proof.
  intros d w. split; [vm_compute; reflexivity|].
  apply (strip_png_then_view_empty asciiExt w "a.png" "b.png"
           (mkStrip [] false true false) d).
  - vm_compute; reflexivity.
  - apply isBytes_check. vm_compute; reflexivity.
  - vm_compute; reflexivity.
  - reflexivity.
Defined.

(** *** The fields of a text chunk *)

Lemma chunkFields_textChunk X K V :
  K ≠ [] → 0 ∉ K → viewChunk X (textChunk K V) = Ok [textField K V].
Proof.
  intros Hne H0. unfold viewChunk, textChunk, textField. cbn [typ data].
  unfold beq. rewrite bool_decide_eq_true_2 by done.
  change (K ++ [0] ++ V) with (K ++ 0 :: V). rewrite IndexByte_app by done.
  assert (0 < len K) by (destruct K; [done|rewrite len_cons; pose proof (len_nonneg K); lia]).
  rewrite (proj2 (Z.ltb_lt _ _)) by done.
  unfold sliceTo. rewrite take_len_app. do 2 f_equal. f_equal.
  rewrite len_app, len_cons. unfold sliceFrom.
  destruct V as [|v V].
  - rewrite len_nil. by rewrite Z.ltb_irrefl.
  - rewrite len_cons. pose proof (len_nonneg V).
    rewrite (proj2 (Z.ltb_lt _ _)) by lia.
    replace (len K + 1) with (len (K ++ [0])) by (rewrite len_app; reflexivity).
    change (K ++ 0 :: v :: V) with (K ++ [0] ++ v :: V).
    rewrite app_assoc. apply drop_len_app.
Qed.

Lemma chunkFields_keyword X c K :
  keywordOf c = Some K → ∃ V, viewChunk X c = Ok [textField K V].
Proof.
  unfold keywordOf, viewChunk, textField.
  destruct (beq (typ c) (str "tEXt")); [|done].
  destruct (0 <? IndexByte (data c) 0); [|done]. cbn [andb].
  intros [= <-]. eauto.
Qed.

Lemma exifFields_not_text X K ed d : filter (isText K) (exifFields X ed d) = [].
Proof.
  unfold exifFields. destruct (exifWalk X d) as [tags|]; [|done].
  induction tags as [|t tags IH]; [done|]. cbn [map].
  rewrite filter_cons_False; [done|]. unfold isText. cbn. intros [_ ?]. done.
Qed.

Lemma chunkFields_other X c K :
  keywordOf c ≠ Some K → filter (isText K) (chunkFields X c) = [].
Proof.
  assert (Hcat : ∀ k v cat e, cat ≠ str "PNG tEXt" →
            filter (isText K) [mkField k v cat e] = []).
  { intros k v cat e Hc. rewrite filter_cons_False; [done|].
    unfold isText. cbn. by intros [_ ?]. }
  unfold keywordOf, chunkFields, viewChunk.
  destruct (beq (typ c) (str "tEXt")).
  - destruct (0 <? IndexByte (data c) 0); [|done]. cbn [andb]. intros Hk.
    rewrite filter_cons_False; [done|]. unfold isText. cbn. intros [? _]. congruence.
  - intros _. cbn [andb].
    destruct (beq (typ c) (str "iTXt")).
    { destruct (0 <? IndexByte (data c) 0); [|done].
      destruct (len (data c) <? _); [done|]. by apply Hcat. }
    destruct (beq (typ c) (str "eXIf")); [apply exifFields_not_text|].
    destruct (beq (typ c) (str "tIME")); [|done].
    destruct (bool_decide _); [|done]. by apply Hcat.
Qed.

Lemma filter_none_rest {A} (P : A → Prop) `{!∀ x, Decision (P x)} (l : list A) :
  filter P l = [] → filter (λ x, ¬ P x) l = l.
Proof.
  induction l as [|x l IH]; [done|]. destruct (decide (P x)) as [Hx|Hx].
  - by rewrite filter_cons_True.
  - rewrite filter_cons_False by done. intros Hl.
    rewrite filter_cons_True by done. by rewrite IH.
Qed.

Lemma viewChunk_ok X c fs :
  viewChunk X c = Ok fs → viewChunk X c = Ok (chunkFields X c) ∧ chunkFields X c = fs.
Proof. intros Hc. unfold chunkFields. by rewrite Hc. Qed.

Lemma filter_bind {A B} (P : B → Prop) `{!∀ x, Decision (P x)} (f : A → list B) (l : list A) :
  filter P (l ≫= f) = l ≫= (λ x, filter P (f x)).
Proof.
  induction l as [|x l IH]; [done|]. by rewrite !bind_cons, filter_app, IH.
Qed.

Lemma isText_textField K V : isText K (textField K V).
Proof. by split. Qed.

Lemma rest_of_keyword X c K :
  keywordOf c = Some K → filter (λ f, ¬ isText K f) (chunkFields X c) = [].
Proof.
  intros [V HV]%(chunkFields_keyword X). apply viewChunk_ok in HV as [_ ->].
  rewrite filter_cons_False; [done|]. intros Hn. apply Hn, isText_textField.
Qed.

Lemma rest_of_setText X K V c :
  K ≠ [] → 0 ∉ K →
  filter (λ f, ¬ isText K f) (chunkFields X (setText K V c))
  = filter (λ f, ¬ isText K f) (chunkFields X c).
Proof.
  intros Hne H0. unfold setText. case_bool_decide as Hc; [|done].
  rewrite !rest_of_keyword; [done..|]. by apply keywordOf_textChunk.
Qed.

Lemma okc_setText X K V c :
  K ≠ [] → 0 ∉ K →
  viewChunk X c = Ok (chunkFields X c) →
  viewChunk X (setText K V c) = Ok (chunkFields X (setText K V c)).
Proof.
  intros Hne H0 Hc. unfold setText. case_bool_decide; [|done].
  by eapply viewChunk_ok, chunkFields_textChunk.
Qed.

(** The list an edit with set {K: V} hands to the writer, when the input
    has an [IDAT] chunk. *)
Lemma editPNGChunks_set_shape ord dry K V chunks :
  Exists (λ c, typ c = str "IDAT") chunks →
  ∃ l1 c l2,
    setText K V <$> chunks = l1 ++ c :: l2 ∧ typ c = str "IDAT"
    ∧ editPNGChunks ord (mkEdit {[ K := V ]} [] dry) chunks
      = l1 ++ (if bool_decide (Exists (λ c, keywordOf c = Some K) chunks)
               then [] else [textChunk K V]) ++ c :: l2.
Proof.
  intros Hidat.
  assert (HidatS : Exists (λ c, typ c = str "IDAT") (setText K V <$> chunks)).
  { apply Exists_fmap. eapply Exists_impl; [exact Hidat|]. intros c Hc. cbn.
    by rewrite typ_setText. }
  set (add := if bool_decide (Exists (λ c, keywordOf c = Some K) chunks)
              then [] else [textChunk K V]).
  destruct (insertBeforeIDAT_split _ add HidatS) as (l1 & c & l2 & Hsplit & Hc & Hins).
  exists l1, c, l2. split; [done|]. split; [done|].
  unfold editPNGChunks. rewrite updateChunks_spec.
  rewrite bind_updateChunk_setText, addChunks_setText. fold add. by rewrite Hins.
Qed.

(** X3. Edit, then view.  On a PNG file that
    holds an [IDAT] chunk, setting the keyword [K] (not empty, without a
    zero byte) to [V] succeeds; the view of the result shows the field
    [K = V] of category PNG tEXt, shows no other text field with that
    keyword, and shows every other field as the view of the input does,
    in the same order. *)
Theorem edit_png_then_view_shows_field
    (X : Ext) (ord : Sched) (w : World) (path out : string)
    (d : bytes) (chunks : list pngChunk) (K V : bytes) :
  files w !! path = Some d → Forall isByte d → readPNGChunks d = Ok chunks →
  Exists (λ c, typ c = str "IDAT") chunks →
  K ≠ [] → 0 ∉ K → len K + 1 + len V < 4294967296 →
  ∃ w', editPNG ord w path out (mkEdit {[ K := V ]} [] false) = (w', Success)
    ∧ ∀ fs, viewPNG X w path = Ok fs →
        ∃ fs', viewPNG X w' out = Ok fs'
          ∧ textField K V ∈ fs'
          ∧ (∀ f, f ∈ fs' → isText K f → f = textField K V)
          ∧ filter (λ f, ¬ isText K f) fs' = filter (λ f, ¬ isText K f) fs.
Proof.
  intros Hd Hbytes Hread Hidat Hne H0 Hfit.
  destruct (readPNGChunks_wf d chunks Hbytes Hread) as [Hwf Hend].
  destruct (editPNGChunks_set_shape ord false K V chunks Hidat)
    as (l1 & c0 & l2 & Hsplit & Hc0 & Hfinal).
  set (add := if bool_decide (Exists (λ c, keywordOf c = Some K) chunks)
              then [] else [textChunk K V]) in Hfinal.
  set (final := editPNGChunks ord (mkEdit {[ K := V ]} [] false) chunks) in *.
  assert (HwfKV : wfChunk (textChunk K V)).
  { split; [done|]. unfold textChunk, len in *. cbn [data].
    rewrite !length_app. cbn [length]. lia. }
  assert (HwfS : Forall wfChunk (setText K V <$> chunks)).
  { apply Forall_fmap. eapply Forall_impl; [exact Hwf|]. intros c Hc. cbn.
    unfold setText. by case_bool_decide. }
  assert (HendS : iendLast (setText K V <$> chunks)).
  { revert Hend. apply iendLast_types. rewrite <- list_fmap_compose.
    apply list_fmap_ext. intros i c _. cbn. by rewrite typ_setText. }
  assert (Hadd : add = [] ∨ add = [textChunk K V])
    by (unfold add; case_bool_decide; auto).
  assert (HwfF : Forall wfChunk final).
  { rewrite Hfinal. rewrite Hsplit in HwfS. apply Forall_app in HwfS as [H1 H2].
    rewrite !Forall_app. repeat split; try done.
    destruct Hadd as [->| ->]; [apply Forall_nil_2|by apply Forall_singleton]. }
  assert (HendF : iendLast final).
  { rewrite Hfinal. rewrite Hsplit in HendS. apply iendLast_insert; [done|].
    destruct Hadd as [->| ->]; [apply Forall_nil_2|by apply Forall_singleton]. }
  assert (Hin : ∀ x, x ∈ final → x ∈ setText K V <$> chunks ∨ x = textChunk K V).
  { intros x. rewrite Hfinal, Hsplit. rewrite !elem_of_app.
    intros [?|[Hx|?]]; auto.
    destruct Hadd as [Ha|Ha]; rewrite Ha in Hx; [by apply elem_of_nil in Hx|].
    apply list_elem_of_singleton in Hx. auto. }
  assert (Hkey : ∀ x, x ∈ final → keywordOf x = Some K → x = textChunk K V).
  { intros x Hx HxK. destruct (Hin x Hx) as [Hs|?]; [|done].
    apply list_elem_of_fmap in Hs as (y & -> & _).
    apply keywordOf_setText in HxK; [|done..].
    unfold setText. by rewrite bool_decide_eq_true_2. }
  assert (Hhas : textChunk K V ∈ final).
  { rewrite Hfinal. unfold add. case_bool_decide as Hex.
    - cbn [app]. rewrite <- Hsplit. apply Exists_exists in Hex as (y & Hy & HyK).
      apply list_elem_of_fmap. exists y. split; [|done].
      unfold setText. by rewrite bool_decide_eq_true_2.
    - rewrite !elem_of_app. right. left. apply list_elem_of_here. }
  unfold editPNG, ReadFile. rewrite Hd, Hread. cbn [DryRun]. fold final.
  eexists; split; [reflexivity|]. intros fs Hview.
  unfold viewPNG, ReadFile in Hview. rewrite Hd, Hread in Hview.
  pose proof (viewChunks_ok_inv X chunks [] fs Hview) as Hok.
  rewrite (viewChunks_ok X chunks [] Hok) in Hview. cbn [app] in Hview.
  injection Hview as <-.
  assert (HokF : Forall (λ c, viewChunk X c = Ok (chunkFields X c)) final).
  { apply Forall_forall. intros x Hx. destruct (Hin x Hx) as [Hs| ->].
    - apply list_elem_of_fmap in Hs as (y & -> & Hy). apply okc_setText; [done..|].
      by eapply Forall_forall in Hok.
    - by eapply viewChunk_ok, chunkFields_textChunk. }
  exists (final ≫= chunkFields X).
  unfold viewPNG, writePNGChunks. rewrite ReadFile_WriteFile.
  rewrite readPNGChunks_pngFile by done.
  rewrite (viewChunks_ok X final [] HokF). cbn [app].
  split; [done|]. split; [|split].
  - apply list_elem_of_bind. exists (textChunk K V). split; [|done].
    pose proof (chunkFields_textChunk X K V Hne H0) as Heq.
    apply viewChunk_ok in Heq as [_ ->]. apply list_elem_of_here.
  - intros f [x [Hf Hx]]%list_elem_of_bind Htext.
    destruct (decide (keywordOf x = Some K)) as [HxK|HxK].
    + rewrite (Hkey x Hx HxK) in Hf.
      pose proof (chunkFields_textChunk X K V Hne H0) as Heq.
      apply viewChunk_ok in Heq as [_ Heq]. rewrite Heq in Hf. by apply list_elem_of_singleton in Hf.
    + pose proof (chunkFields_other X x K HxK) as Hnone.
      assert (f ∈ filter (isText K) (chunkFields X x)) as Hff
        by (by apply list_elem_of_filter).
      rewrite Hnone in Hff. by apply elem_of_nil in Hff.
  - rewrite !filter_bind. rewrite Hfinal, !bind_app.
    assert (Ha : add ≫= (λ x, filter (λ f, ¬ isText K f) (chunkFields X x)) = []).
    { destruct Hadd as [->| ->]; [done|]. rewrite bind_cons. cbn. rewrite app_nil_r.
      apply rest_of_keyword. by apply keywordOf_textChunk. }
    rewrite Ha, app_nil_l, <- bind_app, <- Hsplit.
    clear -Hne H0. induction chunks as [|c chunks IH]; [done|].
    rewrite fmap_cons, !bind_cons, IH. f_equal. by apply rest_of_setText.
Qed.

Lemma edit_png_then_view_shows_field_witness :
  let chunks := [authorAlice; mkChunk (str "IDAT") [1; 2]; mkChunk (str "IEND") []] in
  let w := mkWorld {[ "a.png"%string := pngFile chunks ]} [] in
  viewPNG asciiExt w "a.png" = Ok [textField (str "Author") (str "Alice")]
  ∧ ∃ w', editPNG inOrder w "a.png" "b.png" (mkEdit {[ str "Author" := str "Bob" ]} [] false)
            = (w', Success)
      ∧ ∃ fs', viewPNG asciiExt w' "b.png" = Ok fs'
               ∧ textField (str "Author") (str "Bob") ∈ fs'.
Proof.
  intros chunks w.
  assert (Hview : viewPNG asciiExt w "a.png" = Ok [textField (str "Author") (str "Alice")])
    by (vm_compute; reflexivity).
  split; [exact Hview|].
  destruct (edit_png_then_view_shows_field asciiExt inOrder w "a.png" "b.png"
              (pngFile chunks) chunks (str "Author") (str "Bob"))
    as (w' & Hedit & Hafter).
  - vm_compute; reflexivity.
  - apply isBytes_check. vm_compute; reflexivity.
  - vm_compute; reflexivity.
  - apply Exists_cons_tl, Exists_cons_hd. reflexivity.
  - discriminate.
  - vm_compute. intros Hin. repeat (apply elem_of_cons in Hin as [Hin|Hin]; [discriminate|]).
    by apply elem_of_nil in Hin.
  - vm_compute. reflexivity.
  - exists w'. split; [exact Hedit|].
    destruct (Hafter _ Hview) as (fs' & Hv & Hin & _). exists fs'. by split.
Defined.

Lemma filter_keyword_fields X K chunks :
  filter (λ c, keywordOf c ≠ Some K) chunks ≫= chunkFields X
  = filter (λ f, ¬ isText K f) (chunks ≫= chunkFields X).
Proof.
  rewrite filter_bind. induction chunks as [|c chunks IH]; [done|].
  rewrite bind_cons. destruct (decide (keywordOf c = Some K)) as [Hc|Hc].
  - rewrite filter_cons_False by (intros Hn; by apply Hn).
    by rewrite rest_of_keyword.
  - rewrite filter_cons_True by done. rewrite bind_cons, IH. f_equal.
    symmetry. by apply filter_none_rest, chunkFields_other.
Qed.

Lemma editPNGChunks_delete ord dry K chunks :
  editPNGChunks ord (mkEdit ∅ [K] dry) chunks
  = filter (λ c, keywordOf c ≠ Some K) chunks.
Proof.
  rewrite editPNGChunks_no_add by (cbn [Set_]; by rewrite rangeMap_empty).
  induction chunks as [|c chunks IH]; [done|].
  rewrite bind_cons, IH. unfold updateChunk. cbn [Delete Set_ list_to_set foldr].
  destruct (keywordOf c) as [key|] eqn:Hkey.
  - destruct (decide (key = K)) as [->|Hk].
    + rewrite bool_decide_eq_true_2 by set_solver.
      by rewrite filter_cons_False by (intros Hn; by apply Hn).
    + rewrite bool_decide_eq_false_2 by set_solver.
      rewrite lookup_empty. by rewrite filter_cons_True by congruence.
  - by rewrite filter_cons_True by congruence.
Qed.

(** X4. Delete, then view.  On a file with the PNG
    signature, deleting the keyword [K] succeeds, and the view of the
    result is the view of the input without the text fields of keyword
    [K]. *)
Theorem edit_png_delete_then_view
    (X : Ext) (ord : Sched) (w : World) (path out : string) (d : bytes) (K : bytes) :
  files w !! path = Some d → Forall isByte d → take 8 d = pngSignature →
  ∃ w', editPNG ord w path out (mkEdit ∅ [K] false) = (w', Success)
    ∧ ∀ fs, viewPNG X w path = Ok fs →
        viewPNG X w' out = Ok (filter (λ f, ¬ isText K f) fs).
Proof.
  intros Hd Hbytes Hsig.
  destruct (readPNGChunks_signed d Hsig) as [chunks Hread].
  destruct (readPNGChunks_wf d chunks Hbytes Hread) as [Hwf Hend].
  unfold editPNG, ReadFile. rewrite Hd, Hread. cbn [DryRun].
  eexists; split; [reflexivity|]. intros fs Hview.
  unfold viewPNG, ReadFile in Hview. rewrite Hd, Hread in Hview.
  pose proof (viewChunks_ok_inv X chunks [] fs Hview) as Hok.
  rewrite (viewChunks_ok X chunks [] Hok) in Hview. cbn [app] in Hview.
  injection Hview as <-.
  unfold viewPNG, writePNGChunks. rewrite ReadFile_WriteFile, editPNGChunks_delete.
  rewrite readPNGChunks_pngFile
    by (by apply Forall_filter_wf || by apply iendLast_filter).
  rewrite viewChunks_ok.
  - cbn [app]. by rewrite filter_keyword_fields.
  - apply Forall_forall. intros c [_ Hc]%list_elem_of_filter.
    by eapply Forall_forall in Hok.
Qed.

Lemma edit_png_delete_then_view_witness :
  let chunks := [authorAlice; mkChunk (str "IDAT") [1; 2]; mkChunk (str "IEND") []] in
  let w := mkWorld {[ "a.png"%string := pngFile chunks ]} [] in
  viewPNG asciiExt w "a.png" = Ok [textField (str "Author") (str "Alice")]
  ∧ ∃ w', editPNG inOrder w "a.png" "b.png" (mkEdit ∅ [str "Author"] false) = (w', Success)
          ∧ viewPNG asciiExt w' "b.png" = Ok [].
Proof.
  intros chunks w.
  assert (Hview : viewPNG asciiExt w "a.png" = Ok [textField (str "Author") (str "Alice")])
    by (vm_compute; reflexivity).
  split; [exact Hview|].
  destruct (edit_png_delete_then_view asciiExt inOrder w "a.png" "b.png"
              (pngFile chunks) (str "Author"))
    as (w' & Hedit & Hafter).
  - vm_compute; reflexivity.
  - apply isBytes_check. vm_compute; reflexivity.
  - vm_compute; reflexivity.
  - exists w'. split; [exact Hedit|]. rewrite (Hafter _ Hview).
    rewrite filter_cons_False; [done|]. intros Hn. apply Hn, isText_textField.
Defined.

(** X5. An [iTXt] chunk cut short.  When a file
    holds an [iTXt] chunk whose payload has fewer than two bytes after
    the keyword and its terminator, [viewPNG] does not return: the slice
    that skips the two flag bytes is out of range. *)
Theorem view_png_short_itxt_panics
    (X : Ext) (w : World) (path : string) (chunks : list pngChunk)
    (c : pngChunk) (K tail : bytes) :
  files w !! path = Some (pngFile chunks) → Forall wfChunk chunks → iendLast chunks →
  c ∈ chunks → typ c = str "iTXt" → data c = K ++ 0 :: tail →
  K ≠ [] → 0 ∉ K → len tail < 2 →
  viewPNG X w path = Crash "slice bounds out of range".
Proof.
  intros Hd Hwf Hend Hc Ht Hdata Hne H0 Htail.
  unfold viewPNG, ReadFile. rewrite Hd, readPNGChunks_pngFile by done.
  apply viewChunks_crash, Exists_exists. exists c. split; [done|].
  unfold viewChunk, beq. rewrite Ht.
  rewrite bool_decide_eq_false_2 by done. rewrite bool_decide_eq_true_2 by done.
  rewrite Hdata, IndexByte_app by done.
  assert (0 < len K) by (destruct K; [done|rewrite len_cons; pose proof (len_nonneg K); lia]).
  rewrite (proj2 (Z.ltb_lt _ _)) by done.
  rewrite len_app, len_cons. by rewrite (proj2 (Z.ltb_lt _ _)) by lia.
Qed.

Lemma view_png_short_itxt_panics_witness :
  let chunks := [mkChunk (str "iTXt") (str "Title" ++ [0; 0]);
                 mkChunk (str "IDAT") [1; 2]; mkChunk (str "IEND") []] in
  let w := mkWorld {[ "a.png"%string := pngFile chunks ]} [] in
  viewPNG asciiExt w "a.png" = Crash "slice bounds out of range".
Proof.
  intros chunks w.
  apply (view_png_short_itxt_panics asciiExt w "a.png" chunks
           (mkChunk (str "iTXt") (str "Title" ++ [0; 0])) (str "Title") [0]).
  - vm_compute; reflexivity.
  - repeat (first [apply Forall_nil_2 | apply Forall_cons_2]); split; vm_compute; reflexivity.
  - vm_compute. repeat split; discriminate.
  - apply list_elem_of_here.
  - reflexivity.
  - reflexivity.
  - discriminate.
  - vm_compute. intros Hin. repeat (apply elem_of_cons in Hin as [Hin|Hin]; [discriminate|]).
    by apply elem_of_nil in Hin.
  - vm_compute. reflexivity.
Defined.

(** ** FLAC: round trips and the strip *)


Lemma parseVorbisComments_rangeMap (X : Ext) (ord : Sched) (site : nat)
    (m : gmap (list Z) (list Z)) :
  map_Forall (λ k _, wfKey X k) m →
  len (buildVorbisComment (map_to_list m)) < 4294967296 →
  parseVorbisComments X (buildVorbisComment (rangeMap ord site m)) ∅ = m.
Proof.
  intros Hkeys Hfit.
  rewrite <- (buildVorbisComment_len_rangeMap ord site) in Hfit.
  set (entries := rangeMap ord site m) in *.
  rewrite buildVorbisComment_len in Hfit.
  destruct (comments_sizes entries) as [Hsizes Hcount].
  rewrite parseVorbisComments_built; [apply insertAll_rangeMap| |lia].
  apply Forall_forall. intros [k v] Hin. split.
  - assert (Hin' : (k, v) ∈ map_to_list m)
      by (by rewrite <- (pick_perm ord site (map_to_list m))).
    apply elem_of_map_to_list in Hin'. exact (Hkeys k v Hin').
  - rewrite Forall_forall in Hsizes. specialize (Hsizes (k, v) Hin). cbn beta in Hsizes. lia.
Qed.

(** X6. The comment block, built and decoded.
    [parseVorbisComments] of the block that [buildVorbisComment] builds
    from a map gives the map back, in whatever order the map was
    ranged over, when every key is an upper-case name without '=' and
    the block fits its 32-bit lengths. *)
Theorem vorbis_comments_round_trip
    (X : Ext) (ord : Sched) (site : nat) (m : gmap (list Z) (list Z)) :
  map_Forall (λ k _, wfKey X k) m →
  len (buildVorbisComment (map_to_list m)) < 4294967296 →
  parseVorbisComments X (buildVorbisComment (rangeMap ord site m)) ∅ = m.
Proof. apply parseVorbisComments_rangeMap. Qed.

Lemma vorbis_comments_round_trip_witness :
  let m : gmap (list Z) (list Z) :=
    {[ str "TITLE" := str "a=b"; str "ARTIST" := str "" ]} in
  parseVorbisComments asciiExt (buildVorbisComment (rangeMap reversed 0 m)) ∅ = m.
Proof.
  intros m. apply (vorbis_comments_round_trip asciiExt reversed 0 m).
  - unfold m. apply map_Forall_insert_2; [|apply map_Forall_insert_2; [|apply map_Forall_empty]].
    + split; [discriminate|split; [|vm_compute; reflexivity]].
      vm_compute. intros Hin. repeat (apply elem_of_cons in Hin as [Hin|Hin]; [discriminate|]).
      by apply elem_of_nil in Hin.
    + split; [discriminate|split; [|vm_compute; reflexivity]].
      vm_compute. intros Hin. repeat (apply elem_of_cons in Hin as [Hin|Hin]; [discriminate|]).
      by apply elem_of_nil in Hin.
  - vm_compute. reflexivity.
Defined.

(** X7. The metadata blocks and the audio, written and
    parsed.  [parseFLACBlocks] of a file laid out as [writeFLAC] lays it
    out, from at least one block each with a 7-bit type and a payload
    within the 24-bit length, returns those blocks and the offset at
    which the audio frames start. *)
Theorem flac_blocks_round_trip (blocks : list flacBlock) (audio : bytes) :
  blocks ≠ [] → Forall wfBlock blocks →
  ∃ audioStart,
    parseFLACBlocks (flacFile blocks audio) = Ok (blocks, audioStart)
    ∧ sliceFrom (flacFile blocks audio) audioStart = audio.
Proof.
  intros Hne Hwf. exists (4 + len (flacBlocksBytes blocks)).
  split; [by apply parseFLACBlocks_flacFile|apply flacFile_audio].
Qed.

Lemma flac_blocks_round_trip_witness :
  let blocks := [mkBlock 0 (replicate 34 0); mkBlock 1 [0; 0]] in
  ∃ audioStart,
    parseFLACBlocks (flacFile blocks [255; 248; 1]) = Ok (blocks, audioStart)
    ∧ sliceFrom (flacFile blocks [255; 248; 1]) audioStart = [255; 248; 1].
Proof.
  intros blocks. apply (flac_blocks_round_trip blocks [255; 248; 1]).
  - discriminate.
  - repeat (first [apply Forall_nil_2 | apply Forall_cons_2]); repeat split; vm_compute;
      first [reflexivity | discriminate].
Defined.

(** *** The FLAC strip on a well-formed file *)

Lemma stripFLAC_wellformed X ord w path out opts blocks audio :
  blocks ≠ [] → Forall wfBlock blocks →
  files w !! path = Some (flacFile blocks audio) → StripDryRun opts = false →
  stripFLAC X ord w path out opts
  = (WriteFile w out (flacFile (stripFLACBlocks X ord opts blocks) audio), Success).
Proof.
  intros Hne Hwf Hfile Hdry. unfold stripFLAC, ReadFile. rewrite Hfile, Hdry.
  rewrite parseFLACBlocks_flacFile by done.
  pose proof (flacFile_len blocks audio). pose proof (len_nonneg audio).
  replace (len (flacFile blocks audio) <? 4 + len (flacBlocksBytes blocks)) with false
    by (symmetry; apply Z.ltb_ge; lia).
  unfold writeFLAC. by rewrite flacFile_audio.
Qed.

Lemma vcData_cases blocks :
  vcData blocks = None
  ∨ ∃ b, b ∈ blocks ∧ blockType b = 4 ∧ vcData blocks = Some (blockData b).
Proof.
  unfold vcData, findVC.
  destruct (list_find _ blocks) as [[i b]|] eqn:Hfind; [|by left].
  apply list_find_Some in Hfind as (Hi & Hb & _). right. exists b.
  cbn [fmap option_fmap option_map fst]. rewrite Hi.
  split; [by eapply list_elem_of_lookup_2|done].
Qed.

Lemma parseVorbisComments_cleared X : parseVorbisComments X (buildVorbisComment []) ∅ = ∅.
Proof. by rewrite parseVorbisComments_built. Qed.

Lemma parseVorbisComments_nil X : parseVorbisComments X [] ∅ = ∅.
Proof. reflexivity. Qed.

(** X8. The FLAC strip without names to keep.  The
    file written has the audio frames of the input, parses again, holds
    no PICTURE block and no comment field, and its blocks other than the
    comment block are those of the input other than comment and PICTURE
    blocks, in order. *)
Theorem strip_flac_clears_comments
    (X : Ext) (ord : Sched) (w : World) (path out : string) (opts : StripOptions)
    (blocks : list flacBlock) (audio : bytes) :
  Forall wfBlock blocks → Exists (λ b, blockType b ≠ 6) blocks →
  files w !! path = Some (flacFile blocks audio) →
  KeepFields opts = [] → StripDryRun opts = false →
  ∃ blocks' audioStart,
    stripFLAC X ord w path out opts = (WriteFile w out (flacFile blocks' audio), Success)
    ∧ parseFLACBlocks (flacFile blocks' audio) = Ok (blocks', audioStart)
    ∧ sliceFrom (flacFile blocks' audio) audioStart = audio
    ∧ flacComments X (flacFile blocks' audio) = ∅
    ∧ Forall (λ b, blockType b ≠ 6) blocks'
    ∧ filter (λ b, blockType b ≠ 4) blocks'
      = filter (λ b, blockType b ≠ 4 ∧ blockType b ≠ 6) blocks.
Proof.
  intros Hwf Hex Hfile Hkeep Hdry.
  assert (Hne : blocks ≠ []) by (intros ->; by apply Exists_nil in Hex).
  set (clear := λ b, if bool_decide (blockType b = 4)
                     then mkBlock (blockType b) (buildVorbisComment []) else b).
  assert (Hty : ∀ b, blockType (clear b) = blockType b)
    by (intros b; unfold clear; by case_bool_decide).
  set (blocks' := filter (λ b, blockType b ≠ 6) (map clear blocks)).
  assert (Hstrip : stripFLACBlocks X ord opts blocks = blocks')
    by (unfold stripFLACBlocks; by rewrite Hkeep).
  assert (Hwf' : Forall wfBlock blocks').
  { apply Forall_forall. intros b [_ Hb]%list_elem_of_filter.
    apply list_elem_of_In, in_map_iff in Hb as (b0 & <- & Hb0%list_elem_of_In).
    eapply Forall_forall in Hwf; [|exact Hb0]. unfold clear. case_bool_decide; [|done].
    destruct Hwf as [Ht _]. split; [done|]. vm_compute. reflexivity. }
  assert (Hne' : blocks' ≠ []).
  { apply Exists_exists in Hex as (b & Hb & Hb6). intros Hnil.
    assert (clear b ∈ blocks') as Hin.
    { apply list_elem_of_filter. split; [by rewrite Hty|].
      apply list_elem_of_In, in_map, list_elem_of_In, Hb. }
    rewrite Hnil in Hin. by apply elem_of_nil in Hin. }
  exists blocks', (4 + len (flacBlocksBytes blocks')).
  split; [by rewrite (stripFLAC_wellformed X ord w path out opts blocks audio), Hstrip|].
  split; [by apply parseFLACBlocks_flacFile|].
  split; [apply flacFile_audio|].
  split; [|split].
  - rewrite flacComments_flacFile by done.
    destruct (vcData_cases blocks') as [->|(b & [_ Hb]%list_elem_of_filter & Hb4 & ->)];
      [apply parseVorbisComments_nil|].
    apply list_elem_of_In, in_map_iff in Hb as (b0 & <- & _).
    rewrite Hty in Hb4. unfold clear. rewrite bool_decide_eq_true_2 by done.
    apply parseVorbisComments_cleared.
  - apply Forall_forall. by intros b [Hb _]%list_elem_of_filter.
  - unfold blocks'. clear -Hty. induction blocks as [|b blocks IH]; [done|].
    cbn [map]. destruct (decide (blockType b = 6)) as [H6|H6].
    + rewrite filter_cons_False by (rewrite Hty; intros Hn; by apply Hn).
      rewrite IH. by rewrite filter_cons_False by (intros [_ Hn]; by apply Hn).
    + rewrite filter_cons_True by (by rewrite Hty).
      destruct (decide (blockType b = 4)) as [H4|H4].
      * rewrite filter_cons_False by (rewrite Hty; intros Hn; by apply Hn).
        rewrite IH. by rewrite filter_cons_False by (intros [Hn _]; by apply Hn).
      * rewrite filter_cons_True by (by rewrite Hty). rewrite IH.
        rewrite filter_cons_True by done. f_equal.
        unfold clear. by rewrite bool_decide_eq_false_2.
Qed.

Lemma strip_flac_clears_comments_witness :
  let blocks := [mkBlock 0 (replicate 34 0);
                 mkBlock 4 (buildVorbisComment [(str "TITLE", str "x")]);
                 mkBlock 6 [1; 2; 3]] in
  let w := mkWorld {[ "a.flac"%string := flacFile blocks [255; 248; 1] ]} [] in
  flacComments asciiExt (flacFile blocks [255; 248; 1]) = {[ str "TITLE" := str "x" ]}
  ∧ ∃ blocks',
      stripFLAC asciiExt inOrder w "a.flac" "b.flac" (mkStrip [] false true false)
        = (WriteFile w "b.flac" (flacFile blocks' [255; 248; 1]), Success)
      ∧ flacComments asciiExt (flacFile blocks' [255; 248; 1]) = ∅.
Proof.
  intros blocks w. split; [vm_compute; reflexivity|].
  destruct (strip_flac_clears_comments asciiExt inOrder w "a.flac" "b.flac"
              (mkStrip [] false true false) blocks [255; 248; 1])
    as (blocks' & audioStart & Hstrip & _ & _ & Hnone & _).
  - repeat (first [apply Forall_nil_2 | apply Forall_cons_2]); repeat split; vm_compute;
      first [reflexivity | discriminate].
  - apply Exists_cons_hd. discriminate.
  - vm_compute; reflexivity.
  - reflexivity.
  - reflexivity.
  - exists blocks'. by split.
Defined.

Lemma keep_fold (keep : gset (list Z)) (l : list (list Z * list Z))
    (m : gmap (list Z) (list Z)) :
  fold_left (λ (m : gmap (list Z) (list Z)) kv,
               if bool_decide (kv.1 ∈ keep) then m else delete kv.1 m) l m
  = filter (λ kv : list Z * list Z, kv.1 ∈ keep ∨ kv.1 ∉ l.*1) m.
Proof.
  revert m. induction l as [|[k v] l IH]; intros m.
  - cbn [fold_left]. symmetry. apply map_filter_id. intros i x _. right. cbn.
    apply not_elem_of_nil.
  - cbn [fold_left fst]. rewrite IH. case_bool_decide as Hk.
    + apply map_filter_ext. intros i x _. cbn [fst fmap list_fmap].
      rewrite not_elem_of_cons. split; [|tauto].
      intros [?|?]; [by left|]. destruct (decide (i = k)) as [->|?]; [by left|by right].
    + rewrite map_filter_delete. apply map_eq. intros i.
      destruct (decide (i = k)) as [->|Hik].
      * rewrite lookup_delete_eq. symmetry. apply eq_None_not_Some. intros [x Hx].
        apply map_lookup_filter_Some in Hx as [_ [?|Hx]]; [done|].
        cbn in Hx. apply Hx. apply list_elem_of_here.
      * rewrite lookup_delete_ne by done. apply option_eq. intros x.
        rewrite !map_lookup_filter_Some. cbn [fst fmap list_fmap].
        rewrite not_elem_of_cons. naive_solver.
Qed.

Lemma keptComments_filter X ord i keepFields d :
  keptComments X ord i keepFields d
  = filter (λ kv : list Z * list Z, kv.1 ∈ (list_to_set (map (ToUpper X) keepFields) : gset (list Z)))
           (parseVorbisComments X d ∅).
Proof.
  unfold keptComments. cbv zeta. rewrite keep_fold.
  apply map_filter_ext. intros k v Hkv. cbn [fst]. split; [|by left].
  intros [?|Hn]; [done|]. destruct Hn.
  apply list_elem_of_fmap. exists (k, v). split; [done|].
  unfold rangeMap. rewrite (pick_perm ord (2 * i) _). by apply elem_of_map_to_list.
Qed.

Lemma imap_fixed {A} (P : A → Prop) (f : nat → A → A) (l : list A) :
  Forall P l → (∀ i x, P x → f i x = x) → imap f l = l.
Proof.
  intros Hl. revert f. induction Hl as [|x l Hx Hl IH]; intros f Hf; [done|].
  rewrite imap_cons, Hf by done. f_equal. apply IH. intros i y Hy. by apply Hf.
Qed.

Lemma vcData_first pre vcd post :
  Forall (λ b, blockType b ≠ 4) pre → vcData (pre ++ mkBlock 4 vcd :: post) = Some vcd.
Proof.
  intros Hpre. unfold vcData, findVC.
  assert (Hfind : list_find (λ b, blockType b = 4) (pre ++ mkBlock 4 vcd :: post)
                  = Some (length pre, mkBlock 4 vcd)).
  { apply list_find_Some. split; [|split].
    - by rewrite list_lookup_middle.
    - done.
    - intros j y Hj Hlt. rewrite lookup_app_l in Hj by done.
      by eapply Forall_lookup_1 in Hpre. }
  rewrite Hfind. cbn [fmap option_fmap option_map fst].
  by rewrite list_lookup_middle.
Qed.

(** X9. The FLAC strip with names to keep.  On a
    file with one comment block, the file written has the same blocks
    around a new comment block, PICTURE blocks included, and its comment
    fields are those of the input whose key is one of the names to keep
    in upper case. *)
Theorem strip_flac_keeps_named_fields
    (X : Ext) (ord : Sched) (w : World) (path out : string) (opts : StripOptions)
    (pre post : list flacBlock) (vcd audio : bytes) :
  upperOK X →
  Forall wfBlock (pre ++ mkBlock 4 vcd :: post) →
  Forall (λ b, blockType b ≠ 4) pre → Forall (λ b, blockType b ≠ 4) post →
  files w !! path = Some (flacFile (pre ++ mkBlock 4 vcd :: post) audio) →
  KeepFields opts ≠ [] → StripDryRun opts = false →
  let keep : gset (list Z) := list_to_set (map (ToUpper X) (KeepFields opts)) in
  let kept := filter (λ kv : list Z * list Z, kv.1 ∈ keep) (parseVorbisComments X vcd ∅) in
  len (buildVorbisComment (map_to_list kept)) < 16777216 →
  ∃ newVC,
    stripFLAC X ord w path out opts
      = (WriteFile w out (flacFile (pre ++ mkBlock 4 newVC :: post) audio), Success)
    ∧ parseVorbisComments X newVC ∅ = kept
    ∧ flacComments X (flacFile (pre ++ mkBlock 4 newVC :: post) audio) = kept.
Proof.
  intros HX Hwf Hpre Hpost Hfile Hkeep Hdry keep kept Hfit.
  set (f := λ (i : nat) (b : flacBlock),
              if bool_decide (blockType b = 4)
              then mkBlock (blockType b)
                     (buildVorbisComment
                        (rangeMap ord (2 * i + 1)
                           (keptComments X ord i (KeepFields opts) (blockData b))))
              else b).
  assert (Hf : ∀ i b, blockType b ≠ 4 → f i b = b)
    by (intros i b Hb; unfold f; by rewrite bool_decide_eq_false_2).
  set (newVC := buildVorbisComment
                  (rangeMap ord (2 * (length pre + 0) + 1)
                     (keptComments X ord (length pre + 0) (KeepFields opts) vcd))).
  assert (Hstrip : stripFLACBlocks X ord opts (pre ++ mkBlock 4 vcd :: post)
                   = pre ++ mkBlock 4 newVC :: post).
  { unfold stripFLACBlocks.
    assert (0 < len (KeepFields opts)) as Hpos
      by (destruct (KeepFields opts) as [|k0 ks]; [done|rewrite len_cons; pose proof (len_nonneg ks); lia]).
    rewrite (proj2 (Z.ltb_lt _ _)) by done. fold f.
    rewrite imap_app, imap_cons.
    rewrite (imap_fixed (λ b, blockType b ≠ 4) f pre) by done.
    rewrite (imap_fixed (λ b, blockType b ≠ 4) _ post) by (done || intros; by apply Hf).
    done. }
  assert (Hkept : keptComments X ord (length pre + 0) (KeepFields opts) vcd = kept)
    by apply keptComments_filter.
  assert (Hkeys : map_Forall (λ k _, wfKey X k) kept).
  { intros k v [Hkv _]%map_lookup_filter_Some.
    exact (parseVorbisComments_keys X vcd HX k v Hkv). }
  assert (Hlen : len newVC < 16777216).
  { unfold newVC. by rewrite Hkept, buildVorbisComment_len_rangeMap. }
  assert (Hparse : parseVorbisComments X newVC ∅ = kept).
  { unfold newVC. rewrite Hkept. apply parseVorbisComments_rangeMap; [done|lia]. }
  assert (Hwf' : Forall wfBlock (pre ++ mkBlock 4 newVC :: post)).
  { apply Forall_app in Hwf as [H1 H2]. apply Forall_cons in H2 as [[H3 _] H4].
    apply Forall_app. split; [done|]. apply Forall_cons. by repeat split. }
  exists newVC. split; [|split; [done|]].
  - rewrite (stripFLAC_wellformed X ord w path out opts (pre ++ mkBlock 4 vcd :: post) audio);
      [by rewrite Hstrip| |done..].
    by destruct pre.
  - rewrite flacComments_flacFile; [|by destruct pre|done].
    by rewrite vcData_first.
Qed.

Lemma strip_flac_keeps_named_fields_witness :
  let vcd := buildVorbisComment [(str "TITLE", str "x"); (str "ARTIST", str "y")] in
  let pre := [mkBlock 0 (replicate 34 0)] in
  let w := mkWorld {[ "a.flac"%string := flacFile (pre ++ [mkBlock 4 vcd]) [255; 248; 1] ]} [] in
  ∃ newVC,
    stripFLAC asciiExt reversed w "a.flac" "b.flac" (mkStrip [str "title"] false false false)
      = (WriteFile w "b.flac" (flacFile (pre ++ [mkBlock 4 newVC]) [255; 248; 1]), Success)
    ∧ parseVorbisComments asciiExt newVC ∅ = {[ str "TITLE" := str "x" ]}.
Proof.
  intros vcd pre w.
  destruct (strip_flac_keeps_named_fields asciiExt reversed w "a.flac" "b.flac"
              (mkStrip [str "title"] false false false) pre [] vcd [255; 248; 1])
    as (newVC & Hstrip & Hparse & _).
  - exact upperOK_ascii.
  - repeat (first [apply Forall_nil_2 | apply Forall_cons_2]); repeat split; vm_compute;
      first [reflexivity | discriminate].
  - apply Forall_singleton. discriminate.
  - apply Forall_nil_2.
  - vm_compute; reflexivity.
  - discriminate.
  - reflexivity.
  - vm_compute. reflexivity.
  - exists newVC. split; [exact Hstrip|]. rewrite Hparse. vm_compute. reflexivity.
Defined.

(** ** FLAC: what an edit keeps *)


Lemma filter_alter_out {A} (P : A → Prop) `{!∀ x, Decision (P x)} (f : A → A)
    (i : nat) (l : list A) (x : A) :
  l !! i = Some x → ¬ P x → ¬ P (f x) → filter P (alter f i l) = filter P l.
Proof.
  revert i. induction l as [|y l IH]; intros [|i] Hi Hx Hfx; try done.
  - cbn in Hi. injection Hi as ->. cbn [alter list_alter].
    by rewrite !filter_cons_False.
  - cbn in Hi. cbn [alter list_alter].
    destruct (decide (P y)).
    + rewrite !filter_cons_True by done. f_equal. by eapply IH.
    + rewrite !filter_cons_False by done. by eapply IH.
Qed.

Lemma editFLACBlocks_others X ord opts blocks blocks' :
  editFLACBlocks X ord opts blocks = Ok blocks' →
  filter (λ b, blockType b ≠ 4) blocks' = filter (λ b, blockType b ≠ 4) blocks.
Proof.
  unfold editFLACBlocks, findVC.
  destruct (list_find (λ b, blockType b = 4) blocks) as [[i b]|] eqn:Hfind;
    cbn [fmap option_fmap option_map fst].
  - apply list_find_Some in Hfind as (Hi & Hb & _). intros [= <-].
    eapply filter_alter_out; [exact Hi| |]; cbn; intros Hn; by apply Hn.
  - destruct blocks as [|b0 rest]; [done|]. intros [= <-].
    rewrite (filter_cons _ b0), (filter_cons _ (mkBlock 4 _)), (filter_cons _ b0).
    rewrite (decide_False (P := blockType (mkBlock 4 _) ≠ 4)) by (cbn; intros Hn; by apply Hn).
    done.
Qed.

(** X10. What the FLAC edit leaves as it was.
    An edit that is no dry run writes a file that parses again, with the
    audio frames of the input and with the blocks of the input other
    than the comment block, in order. *)
Theorem edit_flac_keeps_blocks_and_audio
    (X : Ext) (ord : Sched) (w : World) (path out : string) (opts : EditOptions)
    (blocks : list flacBlock) (audio : bytes) :
  blocks ≠ [] → Forall wfBlock blocks →
  files w !! path = Some (flacFile blocks audio) → DryRun opts = false →
  len (buildVorbisComment (map_to_list (editedComments X ord opts (vcData blocks))))
    < 16777216 →
  ∃ blocks' audioStart,
    editFLAC X ord w path out opts = (WriteFile w out (flacFile blocks' audio), Success)
    ∧ parseFLACBlocks (flacFile blocks' audio) = Ok (blocks', audioStart)
    ∧ sliceFrom (flacFile blocks' audio) audioStart = audio
    ∧ filter (λ b, blockType b ≠ 4) blocks' = filter (λ b, blockType b ≠ 4) blocks.
Proof.
  intros Hne Hwf Hfile Hdry Hfit.
  rewrite <- (buildVorbisComment_len_rangeMap ord 1) in Hfit.
  destruct (editFLACBlocks_ok X ord opts blocks Hne Hwf Hfit)
    as (blocks' & Hedit & Hne' & Hwf' & _).
  exists blocks', (4 + len (flacBlocksBytes blocks')).
  split; [|split; [|split]].
  - unfold editFLAC, ReadFile. rewrite Hfile, flacFile_magic, Hdry.
    rewrite parseFLACBlocks_flacFile by done. rewrite Hedit.
    unfold writeFLAC. by rewrite flacFile_audio.
  - by apply parseFLACBlocks_flacFile.
  - apply flacFile_audio.
  - by eapply editFLACBlocks_others.
Qed.

Lemma edit_flac_keeps_blocks_and_audio_witness :
  let blocks := [mkBlock 0 (replicate 34 0);
                 mkBlock 4 (buildVorbisComment [(str "TITLE", str "x")]);
                 mkBlock 1 [0; 0]] in
  let w := mkWorld {[ "a.flac"%string := flacFile blocks [255; 248; 1] ]} [] in
  ∃ blocks',
    editFLAC asciiExt inOrder w "a.flac" "b.flac" (mkEdit {[ str "artist" := str "y" ]} [] false)
      = (WriteFile w "b.flac" (flacFile blocks' [255; 248; 1]), Success)
    ∧ filter (λ b, blockType b ≠ 4) blocks' = [mkBlock 0 (replicate 34 0); mkBlock 1 [0; 0]].
Proof.
  intros blocks w.
  destruct (edit_flac_keeps_blocks_and_audio asciiExt inOrder w "a.flac" "b.flac"
              (mkEdit {[ str "artist" := str "y" ]} [] false) blocks [255; 248; 1])
    as (blocks' & audioStart & Hedit & _ & _ & Hrest).
  - discriminate.
  - repeat (first [apply Forall_nil_2 | apply Forall_cons_2]); repeat split; vm_compute;
      first [reflexivity | discriminate].
  - reflexivity.
  - reflexivity.
  - vm_compute. reflexivity.
  - exists blocks'. split; [exact Hedit|]. rewrite Hrest. reflexivity.
Defined.

(** ** RIFF: the WAV and WebP strips *)


Lemma riffChunk_bare id p :
  riffChunk id p = bareChunk (id, p) ++ (if bool_decide (len p mod 2 ≠ 0) then [0] else []).
Proof. unfold riffChunk, bareChunk. cbn [fst snd]. by rewrite <- !app_assoc. Qed.

Lemma len_riffChunk id p :
  length id = 4%nat →
  len (riffChunk id p) = 8 + len p + (if bool_decide (len p mod 2 ≠ 0) then 1 else 0).
Proof.
  intros Hid. assert (len id = 4) by (unfold len; by rewrite Hid).
  unfold riffChunk. rewrite !len_app, len_lePutUint32.
  case_bool_decide; [rewrite len_cons, len_nil|rewrite len_nil]; lia.
Qed.

(** The header of the chunk that starts at the end of [pre]. *)
Lemma riff_header pre id p tail :
  length id = 4%nat → len p < 4294967296 →
  let d := pre ++ riffChunk id p ++ tail in
  (len d <? len pre + 8) = false
  ∧ slice d (len pre) (len pre + 4) = id
  ∧ leUint32 (slice d (len pre + 4) (len pre + 8)) = len p
  ∧ (len d <? len pre + 8 + len p) = false
  ∧ slice d (len pre + 8) (len pre + 8 + len p) = p
  ∧ slice d (len pre + 8 - 8) (len pre + 8 + len p) = bareChunk (id, p).
Proof.
  intros Hid Hp d.
  pose proof (len_nonneg p) as Hp0. pose proof (len_nonneg tail) as Ht0.
  pose proof (len_nonneg pre) as Hpre0.
  assert (Hid4 : len id = 4) by (unfold len; by rewrite Hid).
  set (pad := if bool_decide (len p mod 2 ≠ 0) then [0] else []).
  assert (Hd : d = pre ++ id ++ lePutUint32 (len p) ++ p ++ pad ++ tail).
  { unfold d, riffChunk. by rewrite <- !app_assoc. }
  assert (Hlen : len d = len pre + 8 + len p + len (pad ++ tail)).
  { rewrite Hd, !len_app, len_lePutUint32. lia. }
  pose proof (len_nonneg (pad ++ tail)).
  split; [apply Z.ltb_ge; lia|].
  split.
  { rewrite Hd. replace (len pre + 4) with (len pre + len id) by lia. apply slice_middle. }
  split.
  { rewrite Hd. rewrite (app_assoc pre id).
    replace (len pre + 4) with (len (pre ++ id)) by (rewrite len_app; lia).
    replace (len pre + 8) with (len (pre ++ id) + len (lePutUint32 (len p)))
      by (rewrite len_app, len_lePutUint32; lia).
    rewrite slice_middle. apply leUint32_lePutUint32. lia. }
  split; [apply Z.ltb_ge; lia|].
  split.
  { rewrite Hd. rewrite (app_assoc id), (app_assoc pre).
    replace (len pre + 8) with (len (pre ++ id ++ lePutUint32 (len p)))
      by (rewrite !len_app, len_lePutUint32; lia).
    apply slice_middle. }
  { rewrite Hd. replace (len pre + 8 - 8) with (len pre) by lia.
    unfold bareChunk. cbn [fst snd].
    replace (len pre + 8 + len p) with (len pre + len (id ++ lePutUint32 (len p) ++ p))
      by (rewrite !len_app, len_lePutUint32; lia).
    rewrite <- (slice_middle pre (id ++ lePutUint32 (len p) ++ p) (pad ++ tail)) at 2.
    by rewrite <- !app_assoc. }
Qed.

Lemma riffBody_cons id p chunks :
  riffBody ((id, p) :: chunks) = riffChunk id p ++ riffBody chunks.
Proof. reflexivity. Qed.

Lemma riffBody_length chunks : (length chunks ≤ length (riffBody chunks))%nat.
Proof.
  induction chunks as [|[id p] chunks IH]; [done|].
  rewrite riffBody_cons. unfold riffChunk. rewrite !length_app, lePutUint32_length.
  cbn [length]. lia.
Qed.

Lemma stripWAVLoop_chunks chunks :
  ∀ fuel pre acc,
    Forall wfRiff chunks → (length chunks ≤ fuel)%nat →
    stripWAVLoop fuel (pre ++ riffBody chunks) (len pre) acc
    = acc ++ concat (map bareChunk (filter (λ c, ¬ wavMeta c.1) chunks)).
Proof.
  induction chunks as [|[id p] chunks IH]; intros fuel pre acc Hwf Hfuel.
  - cbn [riffBody map concat]. rewrite !app_nil_r. destruct fuel; [done|].
    cbn [stripWAVLoop].
    by replace (len pre <? len pre + 8) with true by (symmetry; apply Z.ltb_lt; lia).
  - destruct fuel as [|fuel]; [cbn in Hfuel; lia|].
    apply Forall_cons in Hwf as [[Hid Hp] Hwf]. cbn [fst snd] in Hid, Hp.
    rewrite riffBody_cons.
    destruct (riff_header pre id p (riffBody chunks) Hid Hp) as (H1 & H2 & H3 & H4 & _ & H6).
    cbn [stripWAVLoop]. cbv zeta. rewrite H1, H2, !H3, H4, H6.
    set (off := if bool_decide (len p mod 2 ≠ 0) then _ else _).
    assert (Hoff : off = len (pre ++ riffChunk id p)).
    { unfold off. rewrite len_app, len_riffChunk by done. case_bool_decide; lia. }
    rewrite Hoff, app_assoc, IH by (done || cbn in Hfuel; lia).
    destruct (decide (wavMeta id)) as [Hm|Hm].
    + rewrite filter_cons_False by (cbn; tauto).
      replace (beq id (str "LIST") || beq id (str "id3 ") || beq id (str "ID3 ")) with true; [done|].
      unfold beq. destruct Hm as [->|[->| ->]]; reflexivity.
    + rewrite filter_cons_True by done. cbn [map concat].
      replace (beq id (str "LIST") || beq id (str "id3 ") || beq id (str "ID3 ")) with false.
      { by rewrite <- app_assoc. }
      unfold wavMeta in Hm. unfold beq. symmetry.
      repeat (rewrite bool_decide_eq_false_2; [|tauto]). done.
Qed.

Lemma stripWebPLoop_chunks opts chunks :
  ∀ fuel pre acc,
    Forall wfRiff chunks → (length chunks ≤ fuel)%nat →
    stripWebPLoop fuel opts (pre ++ riffBody chunks) (len pre) acc
    = acc ++ riffBody (filter (λ c, ¬ webpMeta opts c.1) chunks).
Proof.
  induction chunks as [|[id p] chunks IH]; intros fuel pre acc Hwf Hfuel.
  - cbn [riffBody map concat]. rewrite !app_nil_r. destruct fuel; [done|].
    cbn [stripWebPLoop].
    by replace (len pre <? len pre + 8) with true by (symmetry; apply Z.ltb_lt; lia).
  - destruct fuel as [|fuel]; [cbn in Hfuel; lia|].
    apply Forall_cons in Hwf as [[Hid Hp] Hwf]. cbn [fst snd] in Hid, Hp.
    rewrite riffBody_cons.
    destruct (riff_header pre id p (riffBody chunks) Hid Hp) as (H1 & H2 & H3 & H4 & H5 & _).
    cbn [stripWebPLoop]. cbv zeta. rewrite H1, !H2, !H3, H4, H5.
    set (off := if bool_decide (len p mod 2 ≠ 0) then _ else _).
    assert (Hoff : off = len (pre ++ riffChunk id p)).
    { unfold off. rewrite len_app, len_riffChunk by done. case_bool_decide; lia. }
    rewrite Hoff, app_assoc, IH by (done || cbn in Hfuel; lia).
    set (flag := StripAll opts || bool_decide (len (KeepFields opts) = 0)).
    assert (Hflag : flag = true ↔ (StripAll opts = true ∨ KeepFields opts = [])).
    { unfold flag. rewrite orb_true_iff, bool_decide_eq_true.
      split; (intros [?|Hk]; [by left|right]).
      - destruct (KeepFields opts) as [|k ks]; [done|].
        rewrite len_cons in Hk. pose proof (len_nonneg ks). lia.
      - by rewrite Hk. }
    set (isMeta := beq id (str "EXIF") || beq id (str "XMP ")).
    assert (HisMeta : isMeta = true ↔ (id = str "EXIF" ∨ id = str "XMP ")).
    { unfold isMeta, beq. by rewrite orb_true_iff, !bool_decide_eq_true. }
    destruct (decide (webpMeta opts id)) as [Hm|Hm].
    + rewrite filter_cons_False by (cbn; tauto).
      destruct Hm as [Hm1 Hm2]. apply Hflag in Hm1. apply HisMeta in Hm2.
      by rewrite Hm1, Hm2.
    + rewrite filter_cons_True by done. rewrite riffBody_cons.
      replace (flag && isMeta) with false.
      { unfold riffChunk. by rewrite <- !app_assoc. }
      symmetry. apply andb_false_iff. unfold webpMeta in Hm.
      destruct flag, isMeta; auto. destruct Hm. split; [by apply Hflag|by apply HisMeta].
Qed.

Lemma stripWAV_chunks
    (w : World) (path out : string) (opts : StripOptions)
    (hdr : bytes) (chunks : list (list Z * list Z)) :
  files w !! path = Some (hdr ++ riffBody chunks) →
  length hdr = 12%nat → Forall wfRiff chunks →
  let body := concat (map bareChunk (filter (λ c, ¬ wavMeta c.1) chunks)) in
  stripWAV w path out opts
  = (WriteFile w out (str "RIFF" ++ lePutUint32 (len body + 4) ++ str "WAVE" ++ body),
     Success).
Proof.
  intros Hfile Hhdr Hwf body. unfold stripWAV, ReadFile. rewrite Hfile.
  assert (H12 : len hdr = 12) by (unfold len; by rewrite Hhdr).
  pose proof (len_nonneg (riffBody chunks)).
  replace (len (hdr ++ riffBody chunks) <? 12) with false
    by (symmetry; apply Z.ltb_ge; rewrite len_app; lia).
  unfold stripWAVBytes. rewrite <- H12.
  rewrite stripWAVLoop_chunks; [done..|].
  rewrite length_app. pose proof (riffBody_length chunks). lia.
Qed.

(** X11. The WAV strip, chunk by chunk.  On a file
    of a 12-byte header and well-formed chunks, [stripWAV] writes a new
    RIFF/WAVE header and then every chunk other than [LIST], [id3 ] and
    [ID3 ], as identifier, length and payload: the padding byte of a
    chunk of odd length is not written again. *)
Theorem strip_wav_keeps_other_chunks
    (w : World) (path out : string) (opts : StripOptions)
    (hdr : bytes) (chunks : list (list Z * list Z)) :
  files w !! path = Some (hdr ++ riffBody chunks) →
  length hdr = 12%nat → Forall wfRiff chunks →
  let body := concat (map bareChunk (filter (λ c, ¬ wavMeta c.1) chunks)) in
  stripWAV w path out opts
  = (WriteFile w out (str "RIFF" ++ lePutUint32 (len body + 4) ++ str "WAVE" ++ body),
     Success).
Proof. apply stripWAV_chunks. Qed.

Lemma strip_wav_keeps_other_chunks_witness :
  let chunks := [(str "fmt ", [1; 0; 1; 0]); (str "LIST", str "INFO");
                 (str "data", [128; 129; 130]); (str "cue ", [0; 0])] in
  let w := mkWorld {[ "a.wav"%string := str "RIFF" ++ [0; 0; 0; 0] ++ str "WAVE" ++ riffBody chunks ]} [] in
  stripWAV w "a.wav" "b.wav" (mkStrip [] false true false)
  = (WriteFile w "b.wav"
       (str "RIFF" ++ [37; 0; 0; 0] ++ str "WAVE"
        ++ str "fmt " ++ [4; 0; 0; 0] ++ [1; 0; 1; 0]
        ++ str "data" ++ [3; 0; 0; 0] ++ [128; 129; 130]
        ++ str "cue " ++ [2; 0; 0; 0] ++ [0; 0]), Success).
Proof.
  intros chunks w.
  rewrite (strip_wav_keeps_other_chunks w "a.wav" "b.wav" (mkStrip [] false true false)
             (str "RIFF" ++ [0; 0; 0; 0] ++ str "WAVE") chunks).
  - vm_compute. reflexivity.
  - vm_compute. reflexivity.
  - reflexivity.
  - repeat (first [apply Forall_nil_2 | apply Forall_cons_2]); split; vm_compute; reflexivity.
Defined.

(** X12. The WebP strip, chunk by chunk.  On a
    file of a 12-byte header and well-formed chunks, [stripWebP] writes
    a new RIFF/WEBP header and then every chunk, padded as in the
    input, other than the [EXIF] and [XMP ] chunks; these two are
    dropped only when everything is stripped or no field is to be kept,
    and kept otherwise. *)
Theorem strip_webp_keeps_other_chunks
    (w : World) (path out : string) (opts : StripOptions)
    (hdr : bytes) (chunks : list (list Z * list Z)) :
  files w !! path = Some (hdr ++ riffBody chunks) →
  length hdr = 12%nat → Forall wfRiff chunks →
  let body := riffBody (filter (λ c, ¬ webpMeta opts c.1) chunks) in
  stripWebP w path out opts
  = (WriteFile w out (str "RIFF" ++ lePutUint32 (len body + 4) ++ str "WEBP" ++ body),
     Success).
Proof.
  intros Hfile Hhdr Hwf body. unfold stripWebP, ReadFile. rewrite Hfile.
  assert (H12 : len hdr = 12) by (unfold len; by rewrite Hhdr).
  pose proof (len_nonneg (riffBody chunks)).
  replace (len (hdr ++ riffBody chunks) <? 12) with false
    by (symmetry; apply Z.ltb_ge; rewrite len_app; lia).
  unfold stripWebPBytes. rewrite <- H12.
  rewrite stripWebPLoop_chunks; [done..|].
  rewrite length_app. pose proof (riffBody_length chunks). lia.
Qed.

Lemma strip_webp_keeps_other_chunks_witness :
  let chunks := [(str "VP8X", [16; 0; 0; 0; 0; 0; 0; 0; 0; 0]); (str "EXIF", [1; 2; 3]);
                 (str "VP8 ", [7; 8; 9]); (str "XMP ", str "<x/>")] in
  let d := str "RIFF" ++ [58; 0; 0; 0] ++ str "WEBP" ++ riffBody chunks in
  let w := mkWorld {[ "a.webp"%string := d ]} [] in
  stripWebP w "a.webp" "b.webp" (mkStrip [] false true false)
  = (WriteFile w "b.webp"
       (str "RIFF" ++ [34; 0; 0; 0] ++ str "WEBP"
        ++ riffBody [(str "VP8X", [16; 0; 0; 0; 0; 0; 0; 0; 0; 0]); (str "VP8 ", [7; 8; 9])]),
     Success)
  ∧ stripWebP w "a.webp" "b.webp" (mkStrip [str "exif"] false false false)
    = (WriteFile w "b.webp" d, Success).
Proof.
  intros chunks d w.
  assert (Hwf : Forall wfRiff chunks).
  { repeat (first [apply Forall_nil_2 | apply Forall_cons_2]); split; vm_compute; reflexivity. }
  split.
  - rewrite (strip_webp_keeps_other_chunks w "a.webp" "b.webp" (mkStrip [] false true false)
               (str "RIFF" ++ [58; 0; 0; 0] ++ str "WEBP") chunks); [|reflexivity..|exact Hwf].
    vm_compute. reflexivity.
  - rewrite (strip_webp_keeps_other_chunks w "a.webp" "b.webp"
               (mkStrip [str "exif"] false false false)
               (str "RIFF" ++ [58; 0; 0; 0] ++ str "WEBP") chunks); [|reflexivity..|exact Hwf].
    vm_compute. reflexivity.
Defined.

(** ** JPEG: round trip, strip and failed edit *)


Lemma jpegFile_cons s l : jpegFile (s :: l) = jpegSegmentBytes s ++ jpegFile l.
Proof. reflexivity. Qed.

Lemma jpegSegmentBytes_plain s :
  plainSeg s →
  jpegSegmentBytes s
  = [255; marker s; ((len (segData s) + 2) / 256) mod 256; (len (segData s) + 2) mod 256]
    ++ segData s.
Proof.
  intros [(H0 & H1 & H2) Hlen]. unfold jpegSegmentBytes.
  rewrite !bool_decide_eq_false_2 by done. cbv zeta.
  pose proof (len_nonneg (segData s)).
  by rewrite (Z.mod_small (len (segData s) + 2) 65536) by lia.
Qed.

Lemma parseSegLoop_tail fuel tail :
  jpegTail tail → (length tail ≤ fuel)%nat → parseSegLoop fuel (jpegFile tail) = tail.
Proof.
  intros [->|[->|(r & -> & Hr & Hh)]] Hfuel.
  - by destruct fuel.
  - destruct fuel; [cbn in Hfuel; lia|]. reflexivity.
  - destruct fuel; [cbn in Hfuel; lia|].
    destruct r as [|x r]; [done|]. cbn in Hh.
    unfold jpegFile. cbn [map concat].
    change (jpegSegmentBytes (mkSeg 0 (x :: r))) with (x :: r).
    rewrite app_nil_r. cbn [parseSegLoop].
    rewrite bool_decide_eq_false_2 by congruence. done.
Qed.

Lemma parseSegLoop_written plain :
  ∀ fuel tail,
    Forall plainSeg plain → jpegTail tail → (length (plain ++ tail) ≤ fuel)%nat →
    parseSegLoop fuel (jpegFile (plain ++ tail)) = plain ++ tail.
Proof.
  induction plain as [|s plain IH]; intros fuel tail Hwf Htail Hfuel.
  - by apply parseSegLoop_tail.
  - destruct fuel as [|fuel]; [cbn in Hfuel; lia|].
    apply Forall_cons in Hwf as [Hs Hwf].
    cbn [app]. rewrite jpegFile_cons, jpegSegmentBytes_plain by done.
    destruct Hs as [(H0 & H1 & H2) Hlen]. pose proof (len_nonneg (segData s)) as Hn.
    set (L := len (segData s) + 2).
    cbn [app parseSegLoop].
    rewrite bool_decide_eq_true_2 by done. cbn [negb].
    rewrite !bool_decide_eq_false_2 by done.
    set (rest := jpegFile (plain ++ tail)).
    replace (len ((L / 256) mod 256 :: L mod 256 :: segData s ++ rest) <? 2) with false
      by (symmetry; apply Z.ltb_ge; rewrite !len_cons;
          pose proof (len_nonneg (segData s ++ rest)); lia).
    change (take 2 ((L / 256) mod 256 :: L mod 256 :: segData s ++ rest))
      with [(L / 256) mod 256; L mod 256].
    change (drop 2 ((L / 256) mod 256 :: L mod 256 :: segData s ++ rest))
      with (segData s ++ rest).
    assert (Hbe : beUint16 [(L / 256) mod 256; L mod 256] - 2 = len (segData s)).
    { change (beUint16 [(L / 256) mod 256; L mod 256])
        with ((L / 256) mod 256 * 256 + L mod 256).
      rewrite (Z.mod_small (L / 256) 256) by (unfold L; split;
        [apply Z.div_pos; lia|apply Z.div_lt_upper_bound; lia]).
      pose proof (Z.div_mod L 256 ltac:(lia)). unfold L in *. lia. }
    rewrite Hbe.
    replace (len (segData s) <? 0) with false by (symmetry; apply Z.ltb_ge; lia).
    replace (len (segData s ++ rest) <? len (segData s)) with false
      by (symmetry; apply Z.ltb_ge; rewrite len_app; pose proof (len_nonneg rest); lia).
    cbn [orb]. unfold sliceTo, sliceFrom. rewrite take_len_app, drop_len_app.
    replace (mkSeg (marker s) (segData s)) with s by (by destruct s).
    f_equal. apply IH; [done..|]. cbn in Hfuel. lia.
Qed.

Lemma jpegFile_length l :
  Forall plainSeg l → (length l ≤ length (jpegFile l))%nat.
Proof.
  induction 1 as [|s l Hs Hl IH]; [done|].
  rewrite jpegFile_cons, jpegSegmentBytes_plain by done.
  rewrite length_app. cbn [length app]. lia.
Qed.

Lemma jpegFile_app l1 l2 : jpegFile (l1 ++ l2) = jpegFile l1 ++ jpegFile l2.
Proof. unfold jpegFile. by rewrite map_app, concat_app. Qed.

Lemma jpegTail_length tail : jpegTail tail → (length tail ≤ S (length (jpegFile tail)))%nat.
Proof. intros [->|[->|(r & -> & _)]]; cbn; lia. Qed.

Lemma parseJPEGSegments_written plain tail :
  Forall plainSeg plain → jpegTail tail →
  parseJPEGSegments (jpegFile (mkSeg 216 [] :: plain ++ tail))
  = Ok (mkSeg 216 [] :: plain ++ tail).
Proof.
  intros Hwf Htail. rewrite jpegFile_cons.
  change (jpegSegmentBytes (mkSeg 216 [])) with [255; 216].
  unfold parseJPEGSegments.
  set (rest := jpegFile (plain ++ tail)).
  change (at_ ([255; 216] ++ rest) 0) with 255.
  change (at_ ([255; 216] ++ rest) 1) with 216.
  replace (len ([255; 216] ++ rest) <? 2) with false
    by (symmetry; apply Z.ltb_ge; rewrite len_app; pose proof (len_nonneg rest);
        change (len [255; 216]) with 2; lia).
  rewrite !bool_decide_eq_true_2 by done. cbn [negb orb].
  change (drop 2 ([255; 216] ++ rest)) with rest. f_equal. f_equal.
  apply parseSegLoop_written; [done..|].
  unfold rest. rewrite jpegFile_app, !length_app.
  pose proof (jpegFile_length plain Hwf). pose proof (jpegTail_length tail Htail).
  cbn [length]. lia.
Qed.

(** X13. Reading back a written JPEG.  A file written
    by the segment writer from SOI, segments with a length field and a
    payload of at most 65533 bytes, and then nothing, EOI or raw data
    that does not start with 0xFF, is parsed by [parseJPEGSegments] as
    exactly those segments. *)
Theorem jpeg_segments_round_trip (plain tail : list jpegSegment) :
  Forall plainSeg plain → jpegTail tail →
  parseJPEGSegments (jpegFile (mkSeg 216 [] :: plain ++ tail))
  = Ok (mkSeg 216 [] :: plain ++ tail).
Proof. apply parseJPEGSegments_written. Qed.

Lemma jpeg_segments_round_trip_witness :
  let plain := [mkSeg 224 (str "JFIF" ++ [0; 1; 1]); mkSeg 218 [1; 2; 3]] in
  let tail := [mkSeg 0 [7; 255; 217]] in
  parseJPEGSegments (jpegFile (mkSeg 216 [] :: plain ++ tail))
  = Ok (mkSeg 216 [] :: plain ++ tail).
Proof.
  intros plain tail. apply (jpeg_segments_round_trip plain tail).
  - repeat (first [apply Forall_nil_2 | apply Forall_cons_2]); repeat split;
      first [discriminate | vm_compute; discriminate].
  - right. right. exists [7; 255; 217]. repeat split; discriminate.
Defined.

(** *** The strip that drops every metadata segment *)

Lemma stripSegment_all X ord opts keepSet segs :
  StripAll opts = true → StripGPS opts = false →
  concat (map (stripSegment X ord opts keepSet) segs)
  = filter (λ s, jpegMetaMarkers (marker s) = false) segs.
Proof.
  intros Hall Hgps. induction segs as [|s segs IH]; [done|].
  cbn [map concat]. rewrite IH. unfold stripSegment. rewrite Hall, Hgps. cbn [andb].
  destruct (jpegMetaMarkers (marker s)) eqn:Hm.
  - by rewrite filter_cons_False by (by rewrite Hm).
  - by rewrite filter_cons_True by done.
Qed.

Lemma jpegTail_not_meta tail :
  jpegTail tail → filter (λ s, jpegMetaMarkers (marker s) = false) tail = tail.
Proof. intros [->|[->|(r & -> & _)]]; reflexivity. Qed.

(** No segment with marker [mk] before the scan data: the search of
    [extractJPEGSegment] finds nothing. *)
Lemma extractLoop_absent mk prefix plain :
   ∀ fuel tail,
    Forall plainSeg plain → Forall (λ s, marker s ≠ mk) plain → jpegTail tail →
    extractLoop fuel (jpegFile (plain ++ tail)) mk prefix = None.
Proof.
  induction plain as [|s plain IH]; intros fuel tail Hwf Hmk Htail.
  - destruct fuel as [|fuel]; [done|]. cbn [app].
    destruct Htail as [->|[->|(r & -> & Hr & Hh)]]; [done..|].
    destruct r as [|x r]; [done|]. cbn in Hh.
    unfold jpegFile. cbn [map concat].
    change (jpegSegmentBytes (mkSeg 0 (x :: r))) with (x :: r).
    rewrite app_nil_r. cbn [extractLoop].
    destruct (len (x :: r) <? 2); [done|].
    change (at_ (x :: r) 0) with x.
    rewrite bool_decide_eq_false_2 by congruence. done.
  - destruct fuel as [|fuel]; [done|].
    apply Forall_cons in Hwf as [Hs Hwf]. apply Forall_cons in Hmk as [Hsm Hmk].
    cbn [app]. rewrite jpegFile_cons, jpegSegmentBytes_plain by done.
    destruct Hs as [(H0 & H1 & H2) Hlen]. pose proof (len_nonneg (segData s)) as Hn.
    set (L := len (segData s) + 2).
    set (rest := jpegFile (plain ++ tail)).
    cbn [app extractLoop].
    pose proof (len_nonneg (segData s ++ rest)) as Hn2.
    replace (len (255 :: marker s :: (L / 256) mod 256 :: L mod 256 :: segData s ++ rest) <? 2)
      with false by (symmetry; apply Z.ltb_ge; rewrite !len_cons; lia).
    change (at_ (255 :: marker s :: ?l) 0) with 255.
    change (at_ (255 :: marker s :: ?l) 1) with (marker s).
    rewrite bool_decide_eq_true_2 by done. cbn [negb].
    change (drop 2 (255 :: marker s :: ?l)) with l.
    replace (len ((L / 256) mod 256 :: L mod 256 :: segData s ++ rest) <? 2) with false
      by (symmetry; apply Z.ltb_ge; rewrite !len_cons; lia).
    change (take 2 ((L / 256) mod 256 :: L mod 256 :: segData s ++ rest))
      with [(L / 256) mod 256; L mod 256].
    change (drop 2 ((L / 256) mod 256 :: L mod 256 :: segData s ++ rest))
      with (segData s ++ rest).
    assert (Hbe : beUint16 [(L / 256) mod 256; L mod 256] - 2 = len (segData s)).
    { change (beUint16 [(L / 256) mod 256; L mod 256])
        with ((L / 256) mod 256 * 256 + L mod 256).
      rewrite (Z.mod_small (L / 256) 256) by (unfold L; split;
        [apply Z.div_pos; lia|apply Z.div_lt_upper_bound; lia]).
      pose proof (Z.div_mod L 256 ltac:(lia)). unfold L in *. lia. }
    rewrite !Hbe.
    replace (len (segData s) <? 0) with false by (symmetry; apply Z.ltb_ge; lia).
    replace (len (segData s ++ rest) <? len (segData s)) with false
      by (symmetry; apply Z.ltb_ge; rewrite len_app; pose proof (len_nonneg rest); lia).
    rewrite (bool_decide_eq_false_2 (marker s = mk)) by done. cbn [andb].
    destruct (bool_decide (marker s = 218)); [done|].
    unfold sliceFrom. rewrite drop_len_app. by apply IH.
Qed.

Lemma extractJPEGSegment_absent mk prefix plain tail :
  Forall plainSeg plain → Forall (λ s, marker s ≠ mk) plain → jpegTail tail →
  extractJPEGSegment (jpegFile (mkSeg 216 [] :: plain ++ tail)) mk prefix = None.
Proof.
  intros Hwf Hmk Htail. rewrite jpegFile_cons.
  change (jpegSegmentBytes (mkSeg 216 [])) with [255; 216].
  unfold extractJPEGSegment.
  set (rest := jpegFile (plain ++ tail)).
  change (at_ ([255; 216] ++ rest) 0) with 255.
  change (at_ ([255; 216] ++ rest) 1) with 216.
  replace (len ([255; 216] ++ rest) <? 2) with false
    by (symmetry; apply Z.ltb_ge; rewrite len_app; pose proof (len_nonneg rest);
        change (len [255; 216]) with 2; lia).
  rewrite !bool_decide_eq_true_2 by done. cbn [negb orb].
  change (drop 2 ([255; 216] ++ rest)) with rest. by apply extractLoop_absent.
Qed.

(** X14. The JPEG strip of all metadata.
    [stripJPEG] with the strip-all option and without the GPS option
    writes the segments of the input other than those with marker APP1,
    APP2, APP12, APP13, APP14 or COM, in order; the file written parses
    as those segments, and the view of it succeeds. *)
Theorem strip_jpeg_all_drops_metadata_segments
    (X : Ext) (ord : Sched) (w : World) (path out : string) (opts : StripOptions)
    (plain tail : list jpegSegment) :
  files w !! path = Some (jpegFile (mkSeg 216 [] :: plain ++ tail)) →
  Forall plainSeg plain → jpegTail tail →
  StripAll opts = true → StripGPS opts = false →
  let kept := mkSeg 216 [] :: filter (λ s, jpegMetaMarkers (marker s) = false) plain ++ tail in
  let w' := WriteFile w out (jpegFile kept) in
  stripJPEG X ord w path out opts = (w', Success)
  ∧ parseJPEGSegments (jpegFile kept) = Ok kept
  ∧ viewJPEG X w' out = (exifFields X jpegEditable (jpegFile kept), Success).
Proof.
  intros Hfile Hwf Htail Hall Hgps kept w'.
  assert (Hwf' : Forall plainSeg (filter (λ s, jpegMetaMarkers (marker s) = false) plain)).
  { apply Forall_forall. intros s [_ Hs]%list_elem_of_filter.
    by eapply Forall_forall in Hwf. }
  assert (Hno : ∀ mk, jpegMetaMarkers mk = true →
            Forall (λ s, marker s ≠ mk)
              (filter (λ s, jpegMetaMarkers (marker s) = false) plain)).
  { intros mk Hmk. apply Forall_forall. intros s [Hs _]%list_elem_of_filter.
    intros Heq. rewrite Heq in Hs. congruence. }
  split; [|split].
  - unfold stripJPEG, ReadFile. rewrite Hfile, parseJPEGSegments_written by done.
    rewrite stripSegment_all by done. unfold writeJPEGSegments, w', kept.
    rewrite filter_cons_True by reflexivity.
    by rewrite filter_app, (jpegTail_not_meta tail Htail).
  - by apply parseJPEGSegments_written.
  - unfold viewJPEG, w'. rewrite ReadFile_WriteFile. unfold kept.
    rewrite (extractJPEGSegment_absent 225 _ _ _ Hwf' (Hno 225 eq_refl) Htail).
    rewrite (extractJPEGSegment_absent 237 _ _ _ Hwf' (Hno 237 eq_refl) Htail).
    by rewrite !app_nil_r.
Qed.

Lemma strip_jpeg_all_drops_metadata_segments_witness :
  let plain := [mkSeg 224 (str "JFIF" ++ [0; 1; 1]);
                mkSeg 225 (str "http://ns.adobe.com/xap/1.0/" ++ [0] ++ str "<x/>");
                mkSeg 254 (str "secret"); mkSeg 218 [1; 2; 3]] in
  let tail := [mkSeg 0 [7; 255; 217]] in
  let w := mkWorld {[ "a.jpg"%string := jpegFile (mkSeg 216 [] :: plain ++ tail) ]} [] in
  let kept := [mkSeg 216 []; mkSeg 224 (str "JFIF" ++ [0; 1; 1]); mkSeg 218 [1; 2; 3];
               mkSeg 0 [7; 255; 217]] in
  stripJPEG asciiExt inOrder w "a.jpg" "b.jpg" (mkStrip [] false true false)
  = (WriteFile w "b.jpg" (jpegFile kept), Success)
  ∧ viewJPEG asciiExt (WriteFile w "b.jpg" (jpegFile kept)) "b.jpg" = ([], Success).
Proof.
  intros plain tail w kept.
  destruct (strip_jpeg_all_drops_metadata_segments asciiExt inOrder w "a.jpg" "b.jpg"
              (mkStrip [] false true false) plain tail) as (Hstrip & _ & Hview).
  - reflexivity.
  - repeat (first [apply Forall_nil_2 | apply Forall_cons_2]); repeat split;
      first [discriminate | vm_compute; discriminate].
  - right. right. exists [7; 255; 217]. repeat split; discriminate.
  - reflexivity.
  - reflexivity.
  - split; [exact Hstrip|exact Hview].
Defined.

(** *** An edit whose fields have no EXIF tag *)

Lemma buildMinimalEXIF_unknown entries :
  Forall (λ kv, lookupAssoc exifTagIDs kv.1 = None) entries →
  buildMinimalEXIF entries = Err "no recognised EXIF fields to write".
Proof.
  intros Hall. unfold buildMinimalEXIF.
  replace (omap (λ kv, (λ tid, (tid, kv.2)) <$> lookupAssoc exifTagIDs kv.1) entries)
    with (@nil (Z * list Z)); [done|].
  symmetry. induction Hall as [|kv entries Hkv Hall IH]; [done|].
  cbn [omap list_omap]. by rewrite Hkv.
Qed.

(** X15. An edit that names no field the writer
    knows.  On a JPEG file without an EXIF segment, an edit whose fields
    to set are all outside the table of EXIF tags fails with the error
    for no recognised field and writes nothing, also as a dry run. *)
Theorem edit_jpeg_unknown_fields_fails
    (X : Ext) (ord : Sched) (w : World) (path out : string) (opts : EditOptions)
    (d : bytes) (segs : list jpegSegment) :
  files w !! path = Some d → parseJPEGSegments d = Ok segs →
  findExifSeg segs = None → Set_ opts ≠ ∅ →
  map_Forall (λ k _, lookupAssoc exifTagIDs k = None) (Set_ opts) →
  editJPEG X ord w path out opts = (w, Error "no recognised EXIF fields to write").
Proof.
  intros Hfile Hparse Hnone Hset Hunknown.
  unfold editJPEG, ReadFile. rewrite Hfile, Hparse, Hnone.
  assert (0 < Z.of_nat (size (Set_ opts))) as Hsize.
  { destruct (decide (size (Set_ opts) = 0%nat)) as [H0|H0]; [|lia].
    by apply map_size_empty_iff in H0. }
  rewrite (proj2 (Z.ltb_lt _ _)) by done.
  rewrite buildMinimalEXIF_unknown; [done|].
  apply Forall_forall. intros [k v] Hin. cbn [fst].
  assert (Hin' : (k, v) ∈ map_to_list (Set_ opts))
    by (by rewrite <- (pick_perm ord 0 (map_to_list (Set_ opts)))).
  apply elem_of_map_to_list in Hin'. exact (Hunknown k v Hin').
Qed.

Lemma edit_jpeg_unknown_fields_fails_witness :
  let d := jpegFile [mkSeg 216 []; mkSeg 224 (str "JFIF" ++ [0; 1; 1]); mkSeg 217 []] in
  let w := mkWorld {[ "a.jpg"%string := d ]} [] in
  editJPEG asciiExt inOrder w "a.jpg" "b.jpg" (mkEdit {[ str "make" := str "Canon" ]} [] true)
  = (w, Error "no recognised EXIF fields to write").
Proof.
  intros d w.
  apply (edit_jpeg_unknown_fields_fails asciiExt inOrder w "a.jpg" "b.jpg"
           (mkEdit {[ str "make" := str "Canon" ]} [] true) d
           [mkSeg 216 []; mkSeg 224 (str "JFIF" ++ [0; 1; 1]); mkSeg 217 []]).
  - reflexivity.
  - vm_compute. reflexivity.
  - vm_compute. reflexivity.
  - cbn [Set_]. apply insert_non_empty.
  - cbn [Set_]. apply map_Forall_singleton. vm_compute. reflexivity.
Defined.

(** ** Format detection *)


Lemma HasPrefix_head (b p : bytes) x y b' p' :
  b = x :: b' → p = y :: p' → x ≠ y → HasPrefix b p = false.
Proof.
  intros -> -> Hxy. unfold HasPrefix, beq. cbn [length take].
  apply bool_decide_eq_false_2. congruence.
Qed.

Lemma len_ge_cons4 (a b c d : Z) (r : bytes) : (len (a :: b :: c :: d :: r) <? 4) = false.
Proof. apply Z.ltb_ge. rewrite !len_cons. pose proof (len_nonneg r). lia. Qed.

Lemma len_le_cons4 (a b c d : Z) (r : bytes) : (4 <=? len (a :: b :: c :: d :: r)) = true.
Proof. apply Z.leb_le. rewrite !len_cons. pose proof (len_nonneg r). lia. Qed.

(** Deciding the tests of [detectMagic] on a buffer whose first bytes are
    known. *)
Ltac closed_bool :=
  match goal with
  | |- context [beq ?a ?b] =>
      let v := eval vm_compute in (beq a b) in
      lazymatch v with
      | true => change (beq a b) with true
      | false => change (beq a b) with false
      end
  | |- context [@bool_decide ?P ?D] =>
      let v := eval vm_compute in (@bool_decide P D) in
      lazymatch v with
      | true => change (@bool_decide P D) with true
      | false => change (@bool_decide P D) with false
      end
  | |- context [HasPrefix ?a ?b] =>
      let v := eval vm_compute in (HasPrefix a b) in
      lazymatch v with
      | true => change (HasPrefix a b) with true
      | false => change (HasPrefix a b) with false
      end
  end.

Ltac magic_tests :=
  repeat first
    [ rewrite len_ge_cons4
    | rewrite len_le_cons4
    | rewrite (HasPrefix_head _ _ _ _ _ _ eq_refl eq_refl) by discriminate
    | progress cbn [take drop slice at_ andb orb negb]
    | closed_bool
    | rewrite andb_false_r
    | rewrite andb_true_r
    | rewrite orb_false_r ].

Ltac starts_with_byte :=
  let H := fresh in intros H; apply (f_equal (take 1)) in H; discriminate H.

Lemma DetectFormat_magic X w out d f :
  d ≠ [] → detectMagic (take 16 d) = f → f ≠ FmtUnknown →
  DetectFormat X (WriteFile w out d) out = Ok f.
Proof.
  intros Hd Hm Hf. unfold DetectFormat, WriteFile. cbn [files].
  rewrite lookup_insert_eq. cbv zeta.
  rewrite bool_decide_eq_false_2 by (by destruct d). rewrite Hm. by destruct f.
Qed.

Lemma detectMagic_png t : detectMagic (take 16 (pngSignature ++ t)) = FmtPNG.
Proof.
  change (pngSignature ++ t) with (137 :: 80 :: 78 :: 71 :: 13 :: 10 :: 26 :: 10 :: t).
  unfold detectMagic. by magic_tests.
Qed.

Lemma detectMagic_flac t : detectMagic (take 16 (str "fLaC" ++ t)) = FmtFLAC.
Proof.
  change (str "fLaC" ++ t) with (102 :: 76 :: 97 :: 67 :: t).
  unfold detectMagic. by magic_tests.
Qed.

Lemma len_take16_riff (a b c d e f g h i j k l : Z) (t : bytes) :
  (12 <=? len (take 16 (a :: b :: c :: d :: e :: f :: g :: h :: i :: j :: k :: l :: t))) = true.
Proof.
  apply Z.leb_le. cbn [take]. rewrite !len_cons. pose proof (len_nonneg (take 4 t)). lia.
Qed.

Lemma detectMagic_riff (form : bytes) (s0 s1 s2 s3 : Z) (t : bytes) (f : FormatID) :
  (form = str "WAVE" ∧ f = FmtWAV) ∨ (form = str "WEBP" ∧ f = FmtWebP) →
  detectMagic (take 16 (str "RIFF" ++ [s0; s1; s2; s3] ++ form ++ t)) = f.
Proof.
  intros [[-> ->]|[-> ->]].
  - change (str "RIFF" ++ [s0; s1; s2; s3] ++ str "WAVE" ++ t)
      with (82 :: 73 :: 70 :: 70 :: s0 :: s1 :: s2 :: s3 :: 87 :: 65 :: 86 :: 69 :: t).
    unfold detectMagic. rewrite !len_take16_riff. by magic_tests.
  - change (str "RIFF" ++ [s0; s1; s2; s3] ++ str "WEBP" ++ t)
      with (82 :: 73 :: 70 :: 70 :: s0 :: s1 :: s2 :: s3 :: 87 :: 69 :: 66 :: 80 :: t).
    unfold detectMagic. rewrite !len_take16_riff. by magic_tests.
Qed.

Lemma detectMagic_jpeg s segs :
  plainSeg s → detectMagic (take 16 (jpegFile (mkSeg 216 [] :: s :: segs))) = FmtJPEG.
Proof.
  intros Hs. rewrite !jpegFile_cons, (jpegSegmentBytes_plain s) by done.
  change (jpegSegmentBytes (mkSeg 216 [])) with [255; 216].
  cbn [app take]. unfold detectMagic. rewrite len_ge_cons4. reflexivity.
Qed.

(** X16. What the writers write is detected as the
    format written.  [DetectFormat] of the output file gives PNG for
    every file [writePNGChunks] lays out, FLAC for every file
    [writeFLAC] lays out, WAV and WebP for the outputs of the two RIFF
    strips, and JPEG for a segment file that starts with SOI and a
    segment with a length field, whatever the name of the file. *)
Theorem written_files_are_detected (X : Ext) (w : World) (out : string) :
  (∀ chunks, DetectFormat X (WriteFile w out (pngFile chunks)) out = Ok FmtPNG)
  ∧ (∀ blocks audio,
       DetectFormat X (WriteFile w out (flacFile blocks audio)) out = Ok FmtFLAC)
  ∧ (∀ d, DetectFormat X (WriteFile w out (stripWAVBytes d)) out = Ok FmtWAV)
  ∧ (∀ opts d, DetectFormat X (WriteFile w out (stripWebPBytes opts d)) out = Ok FmtWebP)
  ∧ (∀ s segs, plainSeg s →
       DetectFormat X (WriteFile w out (jpegFile (mkSeg 216 [] :: s :: segs))) out
       = Ok FmtJPEG).
Proof.
  repeat split.
  - intros chunks. apply DetectFormat_magic; [starts_with_byte| |done].
    unfold pngFile. apply detectMagic_png.
  - intros blocks audio. apply DetectFormat_magic; [starts_with_byte| |done].
    unfold flacFile. apply detectMagic_flac.
  - intros d. apply DetectFormat_magic; [starts_with_byte| |done].
    unfold stripWAVBytes, lePutUint32. cbv zeta.
    apply (detectMagic_riff (str "WAVE")). by left.
  - intros opts d. apply DetectFormat_magic; [starts_with_byte| |done].
    unfold stripWebPBytes, lePutUint32. cbv zeta.
    apply (detectMagic_riff (str "WEBP")). by right.
  - intros s segs Hs.
    apply DetectFormat_magic; [starts_with_byte|by apply detectMagic_jpeg|done].
Qed.

Lemma written_files_are_detected_witness :
  let w := mkWorld ∅ [] in
  DetectFormat asciiExt (WriteFile w "x.txt" (pngFile [])) "x.txt" = Ok FmtPNG
  ∧ DetectFormat asciiExt
      (WriteFile w "x.txt" (jpegFile [mkSeg 216 []; mkSeg 224 [1; 2]; mkSeg 217 []])) "x.txt"
    = Ok FmtJPEG.
Proof.
  intros w.
  destruct (written_files_are_detected asciiExt w "x.txt") as (Hpng & _ & _ & _ & Hjpeg).
  split; [apply Hpng|]. apply Hjpeg.
  repeat split; first [discriminate | vm_compute; discriminate].
Defined.

(** The formats [detectMagic] can answer. *)
Lemma detectMagic_range b :
  detectMagic b ∈ [FmtUnknown; FmtJPEG; FmtPNG; FmtGIF; FmtWebP; FmtTIFF; FmtBMP; FmtMP3;
                   FmtFLAC; FmtOGG; FmtWAV; FmtAIFF; FmtMP4; FmtM4A; FmtMOV; FmtMKV;
                   FmtAVI; FmtFLV; FmtPDF; FmtDOCX].
Proof.
  unfold detectMagic, detectMP4Subtype, detectMKVSubtype.
  repeat match goal with
         | |- context [if ?c then _ else _] => destruct c
         end;
    repeat first [apply list_elem_of_here | apply list_elem_of_further].
Qed.

(** X17. The formats that only a file name can
    give.  Whenever [DetectFormat] answers HEIC, SVG, Opus, WebM, WMV,
    XLSX, PPTX, ODT or EPUB, the first bytes of the file matched no
    signature and the answer is the entry of the extension table for
    the name of the file. *)
Theorem formats_known_by_extension_only
    (X : Ext) (w : World) (path : string) (f : FormatID) :
  DetectFormat X w path = Ok f →
  f ∈ [FmtHEIC; FmtSVG; FmtOpus; FmtWebM; FmtWMV; FmtXLSX; FmtPPTX; FmtODT; FmtEPUB] →
  ∃ d, files w !! path = Some d ∧ detectMagic (take 16 d) = FmtUnknown
       ∧ formatByExt X path = f.
Proof.
  unfold DetectFormat. destruct (files w !! path) as [d|]; [|done]. cbv zeta.
  case_bool_decide; [done|]. intros Hdet Hf. exists d. split; [done|].
  pose proof (detectMagic_range (take 16 d)) as Hr.
  destruct (detectMagic (take 16 d)); injection Hdet as <-; try (by split);
    exfalso;
    repeat (apply elem_of_cons in Hf as [Hf|Hf]; [discriminate Hf|]);
    try (by apply elem_of_nil in Hf);
    repeat (apply elem_of_cons in Hr as [Hr|Hr]; [discriminate Hr|]);
    by apply elem_of_nil in Hr.
Qed.

Lemma formats_known_by_extension_only_witness :
  let w := mkWorld {[ "book.EPUB"%string := str "plain text" ]} [] in
  DetectFormat asciiExt w "book.EPUB" = Ok FmtEPUB
  ∧ ∃ d, files w !! "book.EPUB"%string = Some d ∧ detectMagic (take 16 d) = FmtUnknown.
Proof.
  intros w.
  assert (Hdet : DetectFormat asciiExt w "book.EPUB" = Ok FmtEPUB) by (vm_compute; reflexivity).
  split; [exact Hdet|].
  destruct (formats_known_by_extension_only asciiExt w "book.EPUB" FmtEPUB Hdet)
    as (d & Hd & Hm & _).
  - repeat first [apply list_elem_of_here | apply list_elem_of_further].
  - exists d. by split.
Defined.

(** X18. Archives and EBML files, whatever their
    names.  A file that starts with the ZIP signature is detected as
    DOCX and a file that starts with the EBML signature as MKV, unless
    bytes 4 to 8 spell [ftyp]; the extension is not consulted. *)
Theorem zip_and_ebml_ignore_extension
    (X : Ext) (w : World) (path : string) (d : bytes) :
  files w !! path = Some d → slice d 4 8 ≠ str "ftyp" →
  (take 4 d = str "PK" ++ [3; 4] → DetectFormat X w path = Ok FmtDOCX)
  ∧ (take 4 d = [26; 69; 223; 163] → DetectFormat X w path = Ok FmtMKV).
Proof.
  intros Hfile Hftyp.
  assert (Hsl : ∀ (a b c e : Z) (rest : bytes),
            slice (take 16 (a :: b :: c :: e :: rest)) 4 8 = slice (a :: b :: c :: e :: rest) 4 8).
  { intros. unfold slice. change (Z.to_nat (8 - 4)) with 4%nat.
    change (Z.to_nat 4) with 4%nat. cbn [take drop]. rewrite !drop_0, take_take. done. }
  split; intros Hmagic;
    destruct d as [|a [|b [|c [|e rest]]]]; try discriminate Hmagic;
    injection Hmagic as -> -> -> ->;
    unfold DetectFormat; rewrite Hfile; cbv zeta;
    (rewrite bool_decide_eq_false_2 by (cbn [take]; rewrite !len_cons;
       pose proof (len_nonneg (take 12 rest)); lia));
    unfold detectMagic;
    rewrite Hsl;
    match goal with
    | |- context [beq ?x (str "ftyp")] =>
        replace (beq x (str "ftyp")) with false
          by (symmetry; apply bool_decide_eq_false_2; exact Hftyp)
    end;
    cbn [take]; by magic_tests.
Qed.

Lemma zip_and_ebml_ignore_extension_witness :
  let w := mkWorld {[ "book.epub"%string := str "PK" ++ [3; 4; 20; 0; 0; 0; 8; 0];
                      "clip.webm"%string := [26; 69; 223; 163; 1; 0; 0; 0] ]} [] in
  DetectFormat asciiExt w "book.epub" = Ok FmtDOCX
  ∧ DetectFormat asciiExt w "clip.webm" = Ok FmtMKV.
Proof.
  intros w. split.
  - apply (zip_and_ebml_ignore_extension asciiExt w "book.epub"
             (str "PK" ++ [3; 4; 20; 0; 0; 0; 8; 0])); [reflexivity|discriminate|reflexivity].
  - apply (zip_and_ebml_ignore_extension asciiExt w "clip.webm"
             [26; 69; 223; 163; 1; 0; 0; 0]); [reflexivity|discriminate|reflexivity].
Defined.

(** X19. Files shorter than the shortest signature.  An
    empty file makes [DetectFormat] fail with the end-of-file error of
    the read; a file of one to three bytes is given the format of its
    extension. *)
Theorem detect_short_files (X : Ext) (w : World) (path : string) (d : bytes) :
  files w !! path = Some d → len d < 4 →
  DetectFormat X w path
  = if bool_decide (d = []) then Err "EOF" else Ok (formatByExt X path).
Proof.
  intros Hfile Hlen. unfold DetectFormat. rewrite Hfile. cbv zeta.
  assert (Htake : take 16 d = d).
  { apply take_ge. unfold len in Hlen. lia. }
  rewrite Htake. destruct d as [|x d]; [done|].
  rewrite bool_decide_eq_false_2
    by (rewrite len_cons; pose proof (len_nonneg d); lia).
  rewrite (bool_decide_eq_false_2 (x :: d = [])) by done.
  unfold detectMagic. by rewrite (proj2 (Z.ltb_lt _ _)) by done.
Qed.

Lemma detect_short_files_witness :
  let w := mkWorld {[ "a.png"%string := []; "b.png"%string := [137; 80] ]} [] in
  DetectFormat asciiExt w "a.png" = Err "EOF"
  ∧ DetectFormat asciiExt w "b.png" = Ok FmtPNG.
Proof.
  intros w. split.
  - by rewrite (detect_short_files asciiExt w "a.png" []).
  - rewrite (detect_short_files asciiExt w "b.png" [137; 80]); [|reflexivity|reflexivity].
    vm_compute. reflexivity.
Defined.

(** ** MP4: data atoms and the strip *)


Lemma trimRightNul_id s : last s ≠ Some 0 → trimRightNul s = s.
Proof.
  induction s as [|x s IH]; [done|]. intros Hlast. cbn [trimRightNul].
  destruct s as [|y s].
  - cbn in *. rewrite bool_decide_eq_false_2; [done|]. congruence.
  - rewrite IH by done. done.
Qed.

(** X20. The data atom the editor builds, read by
    the viewer.  [buildiTunesDataAtom] writes the UTF-8 flag over the
    last letter of the atom name, so the name reads [dat] followed by
    the byte 1, and [extractiTunesData] returns the empty string for
    the atom, whatever the value stored. *)
Theorem built_data_atom_reads_empty (val : bytes) :
  extractiTunesData (buildiTunesDataAtom val) = []
  ∧ slice (buildiTunesDataAtom val) 4 8 = str "dat" ++ [1].
Proof.
  assert (Hb : buildiTunesDataAtom val
               = bePutUint32 (16 + len val) ++ (str "dat" ++ [1]) ++ replicate 8 0 ++ val)
    by reflexivity.
  assert (Hs : slice (buildiTunesDataAtom val) 4 8 = str "dat" ++ [1]) by (by rewrite Hb).
  split; [|done]. unfold extractiTunesData. rewrite Hs.
  destruct (len _ <? 16); reflexivity.
Qed.

(** X21. A well-formed data atom, read by the
    viewer.  From an atom named [data] with the UTF-8 type indicator and
    a locale word, [extractiTunesData] returns the value without its
    trailing zero bytes, hence the value itself when it does not end
    with one. *)
Theorem wellformed_data_atom_reads_value (val : bytes) :
  extractiTunesData (utf8DataAtom val) = trimRightNul val
  ∧ (last val ≠ Some 0 → extractiTunesData (utf8DataAtom val) = val).
Proof.
  assert (Hr : extractiTunesData (utf8DataAtom val) = trimRightNul val).
  { unfold extractiTunesData.
    assert (Hu : utf8DataAtom val
                 = bePutUint32 (8 + len ([0; 0; 0; 1] ++ [0; 0; 0; 0] ++ val))
                   ++ str "data" ++ [0; 0; 0; 1; 0; 0; 0; 0] ++ val) by reflexivity.
    rewrite Hu.
    replace (len _ <? 16) with false
      by (symmetry; apply Z.ltb_ge; rewrite !len_app, len_bePutUint32;
          pose proof (len_nonneg val); change (len (str "data")) with 4;
          change (len [0; 0; 0; 1; 0; 0; 0; 0]) with 8; lia).
    reflexivity. }
  split; [done|]. intros Hlast. by rewrite Hr, trimRightNul_id.
Qed.

Lemma wellformed_data_atom_reads_value_witness :
  extractiTunesData (utf8DataAtom (str "Song")) = str "Song"
  ∧ extractiTunesData (buildiTunesDataAtom (str "Song")) = [].
Proof.
  split.
  - apply (wellformed_data_atom_reads_value (str "Song")). discriminate.
  - vm_compute. reflexivity.
Defined.

(** *** The atom that the strip cuts out *)

Lemma packAtom_layout name content :
  length name = 4%nat →
  packAtom name content = bePutUint32 (8 + len content) ++ name ++ content.
Proof.
  intros Hn. unfold packAtom. do 2 f_equal.
  rewrite take_app_length'; done.
Qed.

(** X22. The strip of an MP4 file.  When the first
    occurrence of the letters [udta] in the file is the name of an
    atom, [stripMP4] writes the file without the bytes of that atom and
    with every other byte as it was: no length field of an enclosing
    atom is changed. *)
Theorem strip_mp4_cuts_udta
    (w : World) (path out : string) (opts : StripOptions) (pre content post : bytes) :
  let d := pre ++ packAtom (str "udta") content ++ post in
  files w !! path = Some d → StripDryRun opts = false →
  Index d (str "udta") = len pre + 4 → 8 + len content < 4294967296 →
  stripMP4 w path out opts = (WriteFile w out (pre ++ post), Success).
Proof.
  intros d Hfile Hdry Hidx Hfit. unfold stripMP4, ReadFile. rewrite Hfile, Hdry.
  do 2 f_equal. unfold removeMP4Atom. rewrite Hidx.
  pose proof (len_nonneg pre) as Hp. pose proof (len_nonneg content) as Hc.
  pose proof (len_nonneg post) as Hq.
  replace (len pre + 4 <? 4) with false by (symmetry; apply Z.ltb_ge; lia).
  replace (len pre + 4 - 4) with (len pre) by lia.
  assert (Hd : d = pre ++ bePutUint32 (8 + len content) ++ (str "udta" ++ content ++ post)).
  { unfold d. rewrite packAtom_layout by done. by rewrite <- !app_assoc. }
  assert (Hsize : beUint32 (slice d (len pre) (len pre + 4)) = 8 + len content).
  { rewrite Hd. replace (len pre + 4) with (len pre + len (bePutUint32 (8 + len content)))
      by (rewrite len_bePutUint32; lia).
    rewrite slice_middle. apply beUint32_bePutUint32. lia. }
  rewrite Hsize.
  assert (Hlen : len d = len pre + (8 + len content) + len post).
  { unfold d. rewrite packAtom_layout by done.
    rewrite !len_app, len_bePutUint32. change (len (str "udta")) with 4. lia. }
  replace (len d <? len pre + (8 + len content)) with false
    by (symmetry; apply Z.ltb_ge; lia).
  unfold sliceTo, sliceFrom, d. rewrite take_len_app. f_equal.
  replace (len pre + (8 + len content))
    with (len (pre ++ packAtom (str "udta") content)).
  2:{ rewrite packAtom_layout by done. rewrite !len_app, len_bePutUint32.
      change (len (str "udta")) with 4. lia. }
  rewrite app_assoc. apply drop_len_app.
Qed.

Lemma strip_mp4_cuts_udta_witness :
  let pre := packAtom (str "ftyp") (str "isom") ++ bePutUint32 136 ++ str "moov"
             ++ packAtom (str "mvhd") (replicate 100 0) in
  let content := packAtom (str "meta") [0; 0; 0; 0] in
  let post := packAtom (str "mdat") [1; 2; 3; 4] in
  let w := mkWorld {[ "a.mp4"%string := pre ++ packAtom (str "udta") content ++ post ]} [] in
  stripMP4 w "a.mp4" "b.mp4" (mkStrip [] false true false)
  = (WriteFile w "b.mp4" (pre ++ post), Success).
Proof.
  intros pre content post w.
  apply (strip_mp4_cuts_udta w "a.mp4" "b.mp4" (mkStrip [] false true false) pre content post).
  - reflexivity.
  - reflexivity.
  - vm_compute. reflexivity.
  - vm_compute. reflexivity.
Defined.

(** ** WAV: the view after a strip *)


Lemma viewWAVLoop_plain tagTitle chunks :
  ∀ fuel pre acc,
    Forall wfRiff chunks → Forall (λ c, ¬ wavMeta c.1) chunks →
    viewWAVLoop tagTitle fuel (pre ++ riffBody chunks) (len pre) acc = acc.
Proof.
  induction chunks as [|[id p] chunks IH]; intros fuel pre acc Hwf Hplain.
  - cbn [riffBody map concat]. rewrite !app_nil_r. destruct fuel; [done|].
    cbn [viewWAVLoop].
    by replace (len pre <? len pre + 8) with true by (symmetry; apply Z.ltb_lt; lia).
  - destruct fuel as [|fuel]; [done|].
    apply Forall_cons in Hwf as [[Hid Hp] Hwf]. cbn [fst snd] in Hid, Hp.
    apply Forall_cons in Hplain as [Hm Hplain]. cbn [fst] in Hm.
    rewrite riffBody_cons.
    destruct (riff_header pre id p (riffBody chunks) Hid Hp) as (H1 & H2 & H3 & H4 & _ & _).
    cbn [viewWAVLoop]. cbv zeta. rewrite H1, !H2, !H3, H4.
    unfold wavMeta in Hm.
    replace (beq id (str "LIST")) with false
      by (symmetry; apply bool_decide_eq_false_2; tauto).
    replace (beq id (str "id3 ")) with false
      by (symmetry; apply bool_decide_eq_false_2; tauto).
    replace (beq id (str "ID3 ")) with false
      by (symmetry; apply bool_decide_eq_false_2; tauto).
    cbn [andb orb].
    set (off := if bool_decide (len p mod 2 ≠ 0) then _ else _).
    assert (Hoff : off = len (pre ++ riffChunk id p)).
    { unfold off. rewrite len_app, len_riffChunk by done. case_bool_decide; lia. }
    rewrite Hoff, app_assoc. by apply IH.
Qed.

Lemma bare_even chunks :
  Forall (λ c : list Z * list Z, len c.2 mod 2 = 0) chunks →
  concat (map bareChunk chunks) = riffBody chunks.
Proof.
  induction 1 as [|[id p] chunks Hc Hall IH]; [done|].
  cbn [map concat]. rewrite riffBody_cons, riffChunk_bare, IH. cbn [snd] in Hc.
  rewrite bool_decide_eq_false_2 by (intros Hn; by apply Hn).
  by rewrite app_nil_r.
Qed.

(** X23. The WAV strip, then the view.  When the chunks
    that the strip keeps have payloads of even length, the view of the
    written file succeeds and shows the three header fields it reads at
    fixed offsets and nothing else: no field of a [LIST] chunk is
    left. *)
Theorem strip_wav_then_view
    (tagTitle : bytes → option bytes) (w : World) (path out : string)
    (opts : StripOptions) (hdr : bytes) (chunks : list (list Z * list Z)) :
  files w !! path = Some (hdr ++ riffBody chunks) →
  length hdr = 12%nat → Forall wfRiff chunks →
  Forall (λ c, ¬ wavMeta c.1 → len c.2 mod 2 = 0) chunks →
  ∃ d', stripWAV w path out opts = (WriteFile w out d', Success)
        ∧ viewWAV tagTitle (WriteFile w out d') out = (wavHeaderFields d', Success).
Proof.
  intros Hfile Hhdr Hwf Heven.
  set (kept := filter (λ c : list Z * list Z, ¬ wavMeta c.1) chunks).
  assert (HwfK : Forall wfRiff kept).
  { apply Forall_forall. intros c [_ Hc]%list_elem_of_filter.
    by eapply Forall_forall in Hwf. }
  assert (HplainK : Forall (λ c : list Z * list Z, ¬ wavMeta c.1) kept).
  { apply Forall_forall. by intros c [Hc _]%list_elem_of_filter. }
  assert (HevenK : Forall (λ c : list Z * list Z, len c.2 mod 2 = 0) kept).
  { apply Forall_forall. intros c [Hc Hin]%list_elem_of_filter.
    eapply Forall_forall in Heven; [|exact Hin]. by apply Heven. }
  set (body := concat (map bareChunk kept)).
  set (head := str "RIFF" ++ lePutUint32 (len body + 4) ++ str "WAVE").
  exists (head ++ body). split.
  - rewrite (stripWAV_chunks w path out opts hdr chunks Hfile Hhdr Hwf).
    unfold head. by rewrite <- !app_assoc.
  - unfold viewWAV. rewrite ReadFile_WriteFile.
    assert (Hh : len head = 12) by reflexivity.
    pose proof (len_nonneg body).
    replace (len (head ++ body) <? 12) with false
      by (symmetry; apply Z.ltb_ge; rewrite len_app; lia).
    cbv zeta. fold (wavHeaderFields (head ++ body)). f_equal.
    unfold body at 2. rewrite bare_even by done. rewrite <- Hh.
    by apply viewWAVLoop_plain.
Qed.

Lemma strip_wav_then_view_witness :
  let chunks := [(str "fmt ", [1; 0; 2; 0; 68; 172; 0; 0; 16; 177; 2; 0; 4; 0; 16; 0]);
                 (str "LIST", str "INFO" ++ riffChunk (str "INAM") (str "Song"));
                 (str "data", [1; 2; 3; 4])] in
  let w := mkWorld {[ "a.wav"%string := str "RIFF" ++ [0; 0; 0; 0] ++ str "WAVE"
                                         ++ riffBody chunks ]} [] in
  (viewWAV (λ _, None) w "a.wav").1
  = [ mkField (str "SampleRate") (str "44100 Hz") (str "WAV Header") false;
      mkField (str "Channels") (str "2") (str "WAV Header") false;
      mkField (str "BitsPerSample") (str "16") (str "WAV Header") false;
      mkField (str "Title") (str "Song") (str "WAV INFO") false ]
  ∧ ∃ d', stripWAV w "a.wav" "b.wav" (mkStrip [] false true false)
            = (WriteFile w "b.wav" d', Success)
          ∧ viewWAV (λ _, None) (WriteFile w "b.wav" d') "b.wav"
            = (wavHeaderFields d', Success).
Proof.
  intros chunks w. split; [vm_compute; reflexivity|].
  apply (strip_wav_then_view (λ _, None) w "a.wav" "b.wav" (mkStrip [] false true false)
           (str "RIFF" ++ [0; 0; 0; 0] ++ str "WAVE") chunks).
  - reflexivity.
  - reflexivity.
  - repeat (first [apply Forall_nil_2 | apply Forall_cons_2]); split; vm_compute; reflexivity.
  - repeat (first [apply Forall_nil_2 | apply Forall_cons_2]); intros _; vm_compute; reflexivity.
Defined.

(** ** Command-line pairs and EBML numbers *)


Lemma Index_absent s c : c ∉ s → Index s [c] = -1.
Proof.
  induction s as [|x s IH]; intros Hc; [done|].
  rewrite Index_cons. unfold HasPrefix, beq. cbn [length take].
  rewrite bool_decide_eq_false_2 by (intros [= ->]; set_solver).
  by rewrite IH by set_solver.
Qed.

(** X24. Splitting KEY=VALUE.  [ParseKV] splits
    at the first '=': the key is the trimmed text before it, which must
    not be empty, and the value is the trimmed text after it, further
    '=' signs included.  A text that starts with '=' or holds none is
    refused. *)
Theorem parse_kv_splits_at_first_equals (TrimSpace : bytes → bytes) :
  (∀ k v, k ≠ [] → 61 ∉ k →
     ParseKV TrimSpace (k ++ str "=" ++ v) = Some (TrimSpace k, TrimSpace v))
  ∧ (∀ v, ParseKV TrimSpace (str "=" ++ v) = None)
  ∧ (∀ s, 61 ∉ s → ParseKV TrimSpace s = None).
Proof.
  split; [|split].
  - intros k v Hne Hk. unfold ParseKV. change (str "=" ++ v) with (61 :: v).
    change (str "=") with [61]. rewrite Index_single by done. cbv zeta.
    assert (0 < len k) by (destruct k; [done|rewrite len_cons; pose proof (len_nonneg k); lia]).
    replace (len k <? 1) with false by (symmetry; apply Z.ltb_ge; lia).
    unfold sliceTo, sliceFrom. rewrite take_len_app. do 3 f_equal.
    replace (len k + 1) with (len (k ++ [61])) by (rewrite len_app; reflexivity).
    change (k ++ 61 :: v) with (k ++ [61] ++ v). rewrite app_assoc. apply drop_len_app.
  - intros v. reflexivity.
  - intros s Hs. unfold ParseKV. change (str "=") with [61].
    by rewrite Index_absent.
Qed.

Lemma parse_kv_splits_at_first_equals_witness :
  ParseKV (λ s, s) (str "Title=a=b") = Some (str "Title", str "a=b")
  ∧ ParseKV (λ s, s) (str "Title") = None.
Proof.
  destruct (parse_kv_splits_at_first_equals (λ s, s)) as (Hsplit & _ & Hnone).
  split.
  - apply (Hsplit (str "Title") (str "a=b")); [discriminate|].
    vm_compute. intros Hin. repeat (apply elem_of_cons in Hin as [Hin|Hin]; [discriminate|]).
    by apply elem_of_nil in Hin.
  - apply Hnone.
    vm_compute. intros Hin. repeat (apply elem_of_cons in Hin as [Hin|Hin]; [discriminate|]).
    by apply elem_of_nil in Hin.
Defined.

Lemma lor_bound n a b :
  0 ≤ n → 0 ≤ a < 2 ^ n → 0 ≤ b < 2 ^ n → 0 ≤ Z.lor a b < 2 ^ n.
Proof.
  intros Hn Ha Hb. split; [apply Z.lor_nonneg; lia|].
  destruct (decide (Z.lor a b = 0)) as [->|Hne]; [lia|].
  assert (0 ≤ Z.lor a b) by (apply Z.lor_nonneg; lia).
  apply Z.log2_lt_pow2; [lia|]. rewrite Z.log2_lor by lia.
  destruct (decide (a = 0)) as [->|]; destruct (decide (b = 0)) as [->|];
    [done| | |].
  - rewrite Z.max_r by (apply Z.log2_nonneg). apply Z.log2_lt_pow2; lia.
  - rewrite Z.max_l by (apply Z.log2_nonneg). apply Z.log2_lt_pow2; lia.
  - apply Z.max_lub_lt; apply Z.log2_lt_pow2; lia.
Qed.

Lemma shiftl_bound j k a n :
  0 ≤ j → 0 ≤ k → j + k ≤ n → 0 ≤ a < 2 ^ j → 0 ≤ Z.shiftl a k < 2 ^ n.
Proof.
  intros Hj Hk Hn [H0 H1]. rewrite Z.shiftl_mul_pow2 by done.
  assert (0 < 2 ^ k) by (apply Z.pow_pos_nonneg; lia).
  split; [nia|]. eapply Z.lt_le_trans with (2 ^ (j + k)).
  - rewrite Z.pow_add_r by lia. nia.
  - apply Z.pow_le_mono_r; lia.
Qed.

Lemma land_bound n a m :
  0 ≤ n → 0 ≤ a → 0 ≤ m < 2 ^ n → 0 ≤ Z.land a m < 2 ^ n.
Proof.
  intros Hn Ha [Hm0 Hm1]. split; [apply Z.land_nonneg; lia|].
  destruct (decide (Z.land a m = 0)) as [->|Hne]; [lia|].
  assert (0 ≤ Z.land a m) by (apply Z.land_nonneg; lia).
  apply Z.log2_lt_pow2; [lia|].
  pose proof (Z.log2_land a m Ha Hm0).
  destruct (decide (m = 0)) as [->|]; [by rewrite Z.land_0_r in Hne|].
  assert (Z.log2 m < n) by (apply Z.log2_lt_pow2; lia).
  lia.
Qed.

Lemma at_bound d i n : Forall isByte d → 8 ≤ n → 0 ≤ at_ d i < 2 ^ n.
Proof.
  intros Hd Hn. destruct (at_isByte d i Hd) as [H0 H1]. split; [done|].
  eapply Z.lt_le_trans with (2 ^ 8); [exact H1|]. apply Z.pow_le_mono_r; lia.
Qed.

Lemma const_below n c : 0 ≤ c → Z.ltb c (2 ^ n) = true → 0 ≤ c < 2 ^ n.
Proof. intros H0 H1. split; [done|]. by apply Z.ltb_lt. Qed.

(** Bounds of an OR of shifted bytes, as [readEBMLID] and [readEBMLSize]
    build them; [H0] says that the first byte is not negative. *)
Ltac ebml_bound Hd H0 :=
  repeat (apply lor_bound; [lia| |]);
  first
    [ apply const_below; [lia|reflexivity]
    | apply at_bound; [exact Hd|lia]
    | apply shiftl_bound with (j := 8); [lia|lia|lia|apply at_bound; [exact Hd|lia]]
    | apply land_bound; [lia|exact H0|apply const_below; [lia|reflexivity]]
    | apply shiftl_bound with (j := 8);
      [lia|lia|lia|apply land_bound; [lia|exact H0|apply const_below; [lia|reflexivity]]]
    | apply shiftl_bound with (j := 3);
      [lia|lia|lia|apply land_bound; [lia|exact H0|apply const_below; [lia|reflexivity]]] ].

(** X25. The EBML readers stay inside the buffer and
    move on.  At a position inside a buffer of bytes, [readEBMLID]
    consumes one to four bytes and [readEBMLSize] one to five, never
    more than are left; past the end, and only there, both consume
    none.  The identifier fits 32 bits; the size is below 2^35 and not
    negative, except for the answer -1 to a first byte without a usable
    width marker, which consumes one byte. *)
Theorem ebml_readers_stay_in_bounds (d : bytes) (pos : Z) :
  Forall isByte d → 0 ≤ pos →
  ((readEBMLID d pos).2 = 0 ↔ len d ≤ pos)
  ∧ (pos < len d → 1 ≤ (readEBMLID d pos).2 ≤ 4 ∧ pos + (readEBMLID d pos).2 ≤ len d)
  ∧ 0 ≤ (readEBMLID d pos).1 < 2 ^ 32
  ∧ ((readEBMLSize d pos).2 = 0 ↔ len d ≤ pos)
  ∧ (pos < len d → 1 ≤ (readEBMLSize d pos).2 ≤ 5 ∧ pos + (readEBMLSize d pos).2 ≤ len d)
  ∧ -1 ≤ (readEBMLSize d pos).1 < 2 ^ 35
  ∧ ((readEBMLSize d pos).1 = -1 → (readEBMLSize d pos).2 = 1).
Proof.
  intros Hd Hpos.
  assert (H0 : 0 ≤ at_ d pos) by apply (at_isByte d pos Hd).
  assert (Hid : 0 ≤ (readEBMLID d pos).1 < 2 ^ 32).
  { unfold readEBMLID. cbv zeta.
    repeat match goal with
           | |- context [if ?c then _ else _] => destruct c
           end; cbn [fst snd]; ebml_bound Hd H0. }
  assert (Hsz : (readEBMLSize d pos).1 = -1 ∧ (readEBMLSize d pos).2 = 1
                ∨ 0 ≤ (readEBMLSize d pos).1 < 2 ^ 35).
  { unfold readEBMLSize. cbv zeta.
    repeat match goal with
           | |- context [if ?c then _ else _] => destruct c
           end; cbn [fst snd]; [right..|left; done]; ebml_bound Hd H0. }
  assert (Hlen : ((readEBMLID d pos).2 = 0 ↔ len d ≤ pos)
    ∧ (pos < len d → 1 ≤ (readEBMLID d pos).2 ≤ 4 ∧ pos + (readEBMLID d pos).2 ≤ len d)
    ∧ ((readEBMLSize d pos).2 = 0 ↔ len d ≤ pos)
    ∧ (pos < len d → 1 ≤ (readEBMLSize d pos).2 ≤ 5 ∧ pos + (readEBMLSize d pos).2 ≤ len d)).
  { unfold readEBMLID, readEBMLSize.
    destruct (len d <=? pos) eqn:Hlen; [apply Z.leb_le in Hlen|apply Z.leb_gt in Hlen];
      cbn [fst snd]; [repeat split; intros; lia|].
    repeat match goal with
           | |- context [if ?c then _ else _] => destruct c eqn:?
           end;
      cbn [fst snd];
      repeat match goal with
             | H : _ && _ = true |- _ => apply andb_true_iff in H as [_ H]
             | H : (_ <? _) = true |- _ => apply Z.ltb_lt in H
             end;
      repeat split; intros; try lia. }
  destruct Hlen as (H1 & H2 & H3 & H4).
  repeat split; first [tauto | lia | by apply H2 | by apply H4].
Qed.

Lemma ebml_readers_stay_in_bounds_witness :
  readEBMLID [26; 69; 223; 163; 132] 0 = (440786851, 4)
  ∧ (readEBMLSize [26; 69; 223; 163; 132] 4).2 = 1
  ∧ 0 ≤ (readEBMLID [26; 69; 223; 163; 132] 0).1 < 2 ^ 32.
Proof.
  split; [reflexivity|]. split; [reflexivity|].
  assert (Hd : Forall isByte [26; 69; 223; 163; 132])
    by (repeat constructor; unfold isByte; lia).
  exact (proj1 (proj2 (proj2 (ebml_readers_stay_in_bounds [26; 69; 223; 163; 132] 0 Hd
                                 ltac:(lia))))).
Defined.

(** ** GIF: the strip *)


Lemma at_middle (pre : bytes) (x : Z) (post : bytes) : at_ (pre ++ x :: post) (len pre) = x.
Proof. unfold at_, len. rewrite Nat2Z.id. by rewrite list_lookup_middle. Qed.

Lemma at_app_l (a b : bytes) (i : Z) : 0 ≤ i < len a → at_ (a ++ b) i = at_ a i.
Proof.
  intros Hi. unfold at_, len in *. by rewrite lookup_app_l by lia.
Qed.

Lemma at_app_r (a b : bytes) (i : Z) : at_ (a ++ b) (len a + i) = at_ b i ∨ i < 0.
Proof.
  destruct (decide (i < 0)); [by right|left].
  unfold at_, len. rewrite lookup_app_r by lia. do 2 f_equal. lia.
Qed.

Lemma skipSubBlocks_comment (bs : list bytes) :
  ∀ (pre post : bytes) (fuel : nat),
    Forall wfSubBlock bs → (length bs < fuel)%nat →
    skipSubBlocks fuel (pre ++ concat (map (λ b, len b :: b) bs) ++ 0 :: post) (len pre)
    = len pre + len (concat (map (λ b, len b :: b) bs)) + 1.
Proof.
  induction bs as [|b bs IH]; intros pre post fuel Hbs Hfuel;
    (destruct fuel as [|fuel]; [cbn in Hfuel; lia|]).
  - cbn [map concat app skipSubBlocks].
    replace (len pre <? len (pre ++ 0 :: post)) with true
      by (symmetry; apply Z.ltb_lt; rewrite len_app, len_cons; pose proof (len_nonneg post); lia).
    rewrite at_middle. cbn. rewrite len_nil. lia.
  - apply Forall_cons in Hbs as [Hb Hbs]. cbn [map concat].
    rewrite <- !app_assoc. cbn [app skipSubBlocks].
    replace (len pre <? _) with true
      by (symmetry; apply Z.ltb_lt; rewrite len_app, len_cons;
          pose proof (len_nonneg (b ++ concat (map (λ b, len b :: b) bs) ++ 0 :: post)); lia).
    rewrite at_middle. unfold wfSubBlock in Hb.
    replace (len b =? 0) with false by (symmetry; apply Z.eqb_neq; lia).
    replace (pre ++ len b :: b ++ concat (map (λ b0, len b0 :: b0) bs) ++ 0 :: post)
      with ((pre ++ len b :: b) ++ concat (map (λ b0, len b0 :: b0) bs) ++ 0 :: post)
      by (by rewrite <- app_assoc).
    replace (len pre + 1 + len b) with (len (pre ++ len b :: b))
      by (rewrite len_app, len_cons; lia).
    rewrite IH; [|done|cbn in Hfuel; lia].
    repeat rewrite ?len_app, ?len_cons. lia.
Qed.

Lemma stripGIFLoop_plain (body : bytes) :
  ∀ (pre follow out : bytes) (fuel : nat),
    plainRun body = true → default 0 (head follow) ≠ 254 →
    stripGIFLoop (length body + fuel) (pre ++ body ++ follow) (len pre) out
    = stripGIFLoop fuel (pre ++ body ++ follow) (len pre + len body) (out ++ body).
Proof.
  induction body as [|x body IH]; intros pre follow out fuel Hplain Hfollow.
  - cbn [length Nat.add]. by rewrite len_nil, Z.add_0_r, !app_nil_r.
  - cbn [plainRun] in Hplain. apply andb_true_iff in Hplain as [Hx Hplain].
    apply andb_true_iff in Hx as [H59 H33].
    apply negb_true_iff in H59, H33.
    cbn [length Nat.add app stripGIFLoop].
    replace (len pre <? _) with true
      by (symmetry; apply Z.ltb_lt; rewrite len_app, len_cons;
          pose proof (len_nonneg (body ++ follow)); lia).
    rewrite at_middle, H59.
    assert (Hnext : (x =? 33) && (len pre + 1 <? len (pre ++ x :: body ++ follow))
                    && (at_ (pre ++ x :: body ++ follow) (len pre + 1) =? 254) = false).
    { replace (at_ (pre ++ x :: body ++ follow) (len pre + 1))
        with (default 0 (head (body ++ follow))).
      - destruct (x =? 33); [|done]. cbn [andb] in *.
        apply andb_false_iff; right. apply Z.eqb_neq.
        destruct body as [|y body]; [done|]. cbn in *. by apply Z.eqb_neq.
      - replace (pre ++ x :: body ++ follow) with ((pre ++ [x]) ++ body ++ follow)
          by (by rewrite <- app_assoc).
        replace (len pre + 1) with (len (pre ++ [x])) by (rewrite len_app; reflexivity).
        destruct (body ++ follow) as [|y t]; [|by rewrite at_middle].
        unfold at_, len. rewrite Nat2Z.id, app_nil_r.
        by rewrite lookup_ge_None_2 by lia. }
    rewrite Hnext.
    replace (pre ++ x :: body ++ follow) with ((pre ++ [x]) ++ body ++ follow)
      by (by rewrite <- app_assoc).
    replace (len pre + 1) with (len (pre ++ [x])) by (rewrite len_app; reflexivity).
    rewrite IH by done. rewrite <- !app_assoc. cbn [app].
    replace (len (pre ++ [x]) + len body) with (len pre + len (x :: body)); [done|].
    rewrite len_app, !len_cons, len_nil. lia.
Qed.

Lemma head_gifBlocks parts rest :
  default 0 (head (gifBlocks parts ++ 59 :: rest)) ≠ 254.
Proof. by destruct parts as [|[bs b] parts]. Qed.

Lemma length_subBlocks (bs : list bytes) :
  (length bs ≤ length (concat (map (λ b, len b :: b) bs)))%nat.
Proof.
  induction bs as [|b bs IH]; [done|]. cbn [map concat].
  rewrite length_app. cbn [length]. lia.
Qed.

Lemma len_commentExt bs :
  len (commentExt bs) = 2 + len (concat (map (λ b, len b :: b) bs)) + 1.
Proof.
  unfold commentExt. cbn [app]. rewrite !len_cons, len_app, len_cons, len_nil. lia.
Qed.

Lemma stripGIFLoop_comment (bs : list bytes) (pre post out : bytes) (fuel : nat) :
  Forall wfSubBlock bs →
  stripGIFLoop (S fuel) (pre ++ commentExt bs ++ post) (len pre) out
  = stripGIFLoop fuel (pre ++ commentExt bs ++ post) (len pre + len (commentExt bs)) out.
Proof.
  intros Hbs. rewrite len_commentExt.
  set (sb := concat (map (λ b, len b :: b) bs)).
  assert (Hd : pre ++ commentExt bs ++ post = pre ++ 33 :: 254 :: sb ++ 0 :: post).
  { unfold commentExt. fold sb. rewrite <- !app_assoc. reflexivity. }
  rewrite Hd. set (T := sb ++ 0 :: post).
  assert (Hlen : len (pre ++ 33 :: 254 :: T) = len pre + 2 + len T)
    by (rewrite len_app, !len_cons; lia).
  pose proof (len_nonneg T) as HT.
  cbn [stripGIFLoop]. rewrite Hlen.
  replace (len pre <? len pre + 2 + len T) with true by (symmetry; apply Z.ltb_lt; lia).
  replace (len pre + 1 <? len pre + 2 + len T) with true by (symmetry; apply Z.ltb_lt; lia).
  rewrite at_middle.
  assert (H254 : at_ (pre ++ 33 :: 254 :: T) (len pre + 1) = 254).
  { replace (pre ++ 33 :: 254 :: T) with ((pre ++ [33]) ++ 254 :: T)
      by (by rewrite <- app_assoc).
    replace (len pre + 1) with (len (pre ++ [33])) by (rewrite len_app; reflexivity).
    apply at_middle. }
  rewrite H254.
  change ((33 =? 59)) with false. change ((33 =? 33) && true && (254 =? 254)) with true.
  cbv iota. f_equal.
  replace (pre ++ 33 :: 254 :: T) with ((pre ++ [33; 254]) ++ sb ++ 0 :: post)
    by (by rewrite <- app_assoc).
  replace (len pre + 2) with (len (pre ++ [33; 254])) by (rewrite len_app; reflexivity).
  pose proof (length_subBlocks bs) as Hsb.
  unfold sb.
  rewrite skipSubBlocks_comment; [rewrite len_app; change (len [33; 254]) with 2; lia|done|].
  rewrite !length_app. cbn [length]. lia.
Qed.

Lemma stripGIFLoop_parts (rest : bytes) (parts : list (list bytes * bytes)) :
  ∀ (pre out : bytes) (fuel : nat),
    Forall (λ p, Forall wfSubBlock p.1 ∧ plainRun p.2 = true) parts →
    (length (gifBlocks parts) < fuel)%nat →
    stripGIFLoop fuel (pre ++ gifBlocks parts ++ 59 :: rest) (len pre) out
    = out ++ concat (map snd parts) ++ [59].
Proof.
  induction parts as [|[bs b] parts IH]; intros pre out fuel Hparts Hfuel.
  - destruct fuel as [|fuel]; [cbn in Hfuel; lia|].
    cbn [gifBlocks map concat app stripGIFLoop].
    replace (len pre <? _) with true
      by (symmetry; apply Z.ltb_lt; rewrite len_app, len_cons;
          pose proof (len_nonneg rest); lia).
    by rewrite at_middle.
  - apply Forall_cons in Hparts as [[Hbs Hb] Hparts]. cbn [fst snd] in Hbs, Hb.
    assert (Hg : gifBlocks ((bs, b) :: parts) = commentExt bs ++ b ++ gifBlocks parts).
    { unfold gifBlocks. cbn [map concat fst snd]. by rewrite <- app_assoc. }
    rewrite Hg in *. rewrite !length_app in Hfuel.
    assert (2 ≤ length (commentExt bs))%nat by (unfold commentExt; cbn [app length]; lia).
    destruct fuel as [|fuel]; [lia|].
    replace fuel with (length b + (fuel - length b))%nat by lia.
    rewrite <- !app_assoc. rewrite stripGIFLoop_comment by done.
    replace (pre ++ commentExt bs ++ b ++ gifBlocks parts ++ 59 :: rest)
      with ((pre ++ commentExt bs) ++ b ++ gifBlocks parts ++ 59 :: rest)
      by (by rewrite <- app_assoc).
    replace (len pre + len (commentExt bs)) with (len (pre ++ commentExt bs))
      by (by rewrite len_app).
    rewrite stripGIFLoop_plain by (done || apply head_gifBlocks).
    replace ((pre ++ commentExt bs) ++ b ++ gifBlocks parts ++ 59 :: rest)
      with (((pre ++ commentExt bs) ++ b) ++ gifBlocks parts ++ 59 :: rest)
      by (by rewrite <- !app_assoc).
    replace (len (pre ++ commentExt bs) + len b) with (len ((pre ++ commentExt bs) ++ b))
      by (by rewrite (len_app _ b)).
    rewrite IH; [|done|lia]. cbn [map concat snd]. by rewrite <- !app_assoc.
Qed.

Lemma stripGIFBytes_blocks (hdr ct b0 rest : bytes) (parts : list (list bytes * bytes)) :
  len hdr = 13 → len ct = colorTableSize hdr →
  plainRun b0 = true →
  Forall (λ p, Forall wfSubBlock p.1 ∧ plainRun p.2 = true) parts →
  stripGIFBytes (hdr ++ ct ++ b0 ++ gifBlocks parts ++ 59 :: rest)
  = Ok (hdr ++ ct ++ b0 ++ concat (map snd parts) ++ [59]).
Proof.
  intros Hhdr Hct Hb0 Hparts.
  set (d := hdr ++ ct ++ b0 ++ gifBlocks parts ++ 59 :: rest).
  assert (Hlen : len d = 13 + len ct + len b0 + len (gifBlocks parts) + 1 + len rest)
    by (unfold d; rewrite !len_app, len_cons; lia).
  pose proof (len_nonneg ct). pose proof (len_nonneg b0). pose proof (len_nonneg rest).
  pose proof (len_nonneg (gifBlocks parts)).
  assert (Hat : at_ d 10 = at_ hdr 10) by (apply at_app_l; lia).
  assert (Hout : sliceTo d 13 = hdr) by (rewrite <- Hhdr; apply take_len_app).
  assert (Hloop : ∀ out, stripGIFLoop (length d) d (len hdr + len ct) out
                         = out ++ b0 ++ concat (map snd parts) ++ [59]).
  { intros out. unfold d.
    replace (hdr ++ ct ++ b0 ++ gifBlocks parts ++ 59 :: rest)
      with ((hdr ++ ct) ++ b0 ++ gifBlocks parts ++ 59 :: rest)
      by (by rewrite <- app_assoc).
    rewrite <- len_app.
    replace (length ((hdr ++ ct) ++ b0 ++ gifBlocks parts ++ 59 :: rest))
      with (length b0 + (length (hdr ++ ct) + length (gifBlocks parts) + 1 + length rest))%nat
      by (rewrite !length_app; cbn [length]; lia).
    rewrite stripGIFLoop_plain by (done || apply head_gifBlocks).
    replace ((hdr ++ ct) ++ b0 ++ gifBlocks parts ++ 59 :: rest)
      with (((hdr ++ ct) ++ b0) ++ gifBlocks parts ++ 59 :: rest)
      by (by rewrite <- !app_assoc).
    rewrite <- (len_app _ b0).
    rewrite stripGIFLoop_parts; [by rewrite <- !app_assoc|done|lia]. }
  unfold stripGIFBytes. fold d. cbv zeta.
  replace (len d <? 13) with false by (symmetry; apply Z.ltb_ge; lia).
  rewrite Hat, Hout. unfold colorTableSize in Hct.
  destruct (bool_decide (Z.land (at_ hdr 10) 128 ≠ 0)).
  - rewrite <- Hct.
    replace (len d <? 13 + len ct) with false by (symmetry; apply Z.ltb_ge; lia).
    assert (Hsl : slice d 13 (13 + len ct) = ct)
      by (rewrite <- Hhdr; unfold d; apply slice_middle).
    rewrite Hsl. replace (13 + len ct) with (len hdr + len ct) by lia.
    rewrite Hloop. by rewrite <- !app_assoc.
  - replace 13 with (len hdr + len ct) by lia.
    rewrite Hloop.
    assert (ct = []) as ->
      by (destruct ct as [|c ct']; [done|rewrite len_cons in Hct; pose proof (len_nonneg ct'); lia]).
    done.
Qed.

(** X26. The GIF strip.  On a file of a 13-byte
    header, a global colour table of the announced size, and then runs
    of bytes and comment extensions up to a byte 0x3B, [stripGIF] writes
    the header, the colour table and the runs, in order, and then one
    byte 0x3B: comment extensions are left out, and so is everything
    after the first 0x3B outside a comment. *)
Theorem strip_gif_removes_comments (w : World) (path out : string) (opts : StripOptions)
    (hdr ct b0 rest : bytes) (parts : list (list bytes * bytes)) :
  files w !! path = Some (hdr ++ ct ++ b0 ++ gifBlocks parts ++ 59 :: rest) →
  len hdr = 13 → len ct = colorTableSize hdr →
  plainRun b0 = true →
  Forall (λ p, Forall wfSubBlock p.1 ∧ plainRun p.2 = true) parts →
  stripGIF w path out opts
  = (WriteFile w out (hdr ++ ct ++ b0 ++ concat (map snd parts) ++ [59]), Success).
Proof.
  intros Hfile Hhdr Hct Hb0 Hparts. unfold stripGIF, ReadFile. rewrite Hfile.
  by rewrite stripGIFBytes_blocks.
Qed.

Lemma strip_gif_removes_comments_witness :
  let hdr := str "GIF89a" ++ [1; 0; 1; 0; 0; 0; 0] in
  let d := hdr ++ [33; 249; 4; 0; 0; 0; 0; 0] ++ commentExt [str "made by me"]
               ++ [44; 0] ++ [59; 7] in
  stripGIF (mkWorld {["a.gif" := d]} []) "a.gif" "b.gif" (mkStrip [] false true false)
  = (WriteFile (mkWorld {["a.gif" := d]} []) "b.gif"
       (hdr ++ [33; 249; 4; 0; 0; 0; 0; 0] ++ [44; 0] ++ [59]), Success).
Proof.
  intros hdr d.
  apply (strip_gif_removes_comments (mkWorld {["a.gif" := d]} []) "a.gif" "b.gif"
           (mkStrip [] false true false) hdr [] [33; 249; 4; 0; 0; 0; 0; 0] [7]
           [([str "made by me"], [44; 0])]).
  - reflexivity.
  - reflexivity.
  - reflexivity.
  - reflexivity.
  - repeat constructor; unfold wfSubBlock; vm_compute; done.
Defined.
